(** * Duration classification, episode sequencing and catalog parsing of the
    disc rippers ([bluray_ripper.py], [dvd_ripper_windows.py]).

    The Python functions are embedded as Rocq functions over explicit data:
    integers are [Z], dictionaries whose iteration order matters are
    association lists in insertion order, dictionaries and sets that are only
    probed are [gmap] and [gset], and calls to external tools (the sampler,
    the metadata service, the ripping engine, the file system) are inputs of
    the functions that use them. *)

From Stdlib Require Import ZArith QArith String Ascii List Permutation.
From Stdlib Require Import DecimalString DecimalN DecimalZ.
From stdpp Require Import gmap strings list sorting.

Local Open Scope Z_scope.

(** ** Python dictionaries with insertion order *)

Module Dict.
Section Dict.
Context {V : Type}.

(** [d.get(k)] *)
Fixpoint get (d : list (Z * V)) (k : Z) : option V :=
  match d with
  | [] => None
  | (k', v) :: d' => if Z.eqb k' k then Some v else get d' k
  end.

(** [d[k] = v]: an existing key keeps its position, a new key goes last. *)
Fixpoint set (d : list (Z * V)) (k : Z) (v : V) : list (Z * V) :=
  match d with
  | [] => [(k, v)]
  | (k', v') :: d' =>
      if Z.eqb k' k then (k', v) :: d' else (k', v') :: set d' k v
  end.

Definition keys (d : list (Z * V)) : list Z := d.*1.

(** The invariant of every Python dictionary: keys are unique. *)
Definition wf (d : list (Z * V)) : Prop := NoDup (keys d).

(** [sorted(d.items())]: ascending keys; the keys of a dictionary differ,
    so the values are never compared. *)
Fixpoint insert_item (x : Z * V) (l : list (Z * V)) : list (Z * V) :=
  match l with
  | [] => [x]
  | y :: l' => if Z.leb x.1 y.1 then x :: l else y :: insert_item x l'
  end.

Definition sorted_items (d : list (Z * V)) : list (Z * V) :=
  foldr insert_item [] d.
End Dict.
End Dict.

(** ** Python exceptions, strings, paths and the file system *)

Module Py.
(** Exceptions the modelled code raises or catches. [RequestException]
    stands for every exception of the [requests] library, [SubprocessError]
    for those of [subprocess] other than [TimeoutExpired], [OSError] for
    the errors of the operating system other than the two named. *)
Inductive exn :=
| RequestException (msg : string)
| SubprocessError
| TimeoutExpired
| FileNotFoundError
| FileExistsError
| OSError
| ValueError
| KeyError
| IndexError
| BluRayError (msg : string)
| DVDError (msg : string).

(** Code that may raise: the exception, or the value. *)
Global Instance exn_bind : MBind (sum exn) :=
  λ A B f m, match m with inl e => inl e | inr a => f a end.

(** [try: body / except Exception as e: handler(e)] *)
Definition try_except {A} (body : exn + A) (handler : exn → exn + A)
    : exn + A :=
  match body with
  | inl e => handler e
  | inr a => inr a
  end.

(** [d[key]] on decoded JSON: a missing key raises. *)
Definition item {A} (o : option A) : exn + A :=
  match o with
  | Some a => inr a
  | None => inl KeyError
  end.

(** [str(n)] *)
Definition str (n : Z) : string := NilZero.string_of_int (Z.to_int n).

(** [f"{n:02d}"]: the sign counts in the width. *)
Definition format_02d (n : Z) : string :=
  if (0 <=? n) && (n <? 10) then "0" +:+ str n else str n.

Definition is_digit (c : ascii) : bool :=
  (48 <=? nat_of_ascii c)%nat && (nat_of_ascii c <=? 57)%nat.

(** Characters [str.strip()] removes and [\s] matches, among the first 256
    code points. *)
Definition is_space (c : ascii) : bool :=
  let n := nat_of_ascii c in
  ((9 <=? n) && (n <=? 13) || (28 <=? n) && (n <=? 32) ||
   (n =? 133) || (n =? 160))%nat.

(** Characters [int()] skips around the number: those of [str.strip()]
    without the separators 0x1c to 0x1f. *)
Definition is_int_space (c : ascii) : bool :=
  let n := nat_of_ascii c in
  ((9 <=? n) && (n <=? 13) || (n =? 32) || (n =? 133) || (n =? 160))%nat.

(** Line boundaries of [str.splitlines()], among the first 256 code
    points; ["\r\n"] is one boundary. *)
Definition is_linebreak (c : ascii) : bool :=
  let n := nat_of_ascii c in
  ((10 <=? n) && (n <=? 13) || (28 <=? n) && (n <=? 30) || (n =? 133))%nat.

(** [int(s)] for a string of ASCII digits. *)
Definition int_of_digits (s : string) : option Z :=
  Z.of_uint <$> NilEmpty.uint_of_string s.

(** [str.lower()] on one of the first 256 code points: the letters A to Z
    and the capital letters of Latin-1 (0xC0 to 0xDE without the
    multiplication sign 0xD7) move up by 32. *)
Definition lower_ascii (c : ascii) : ascii :=
  let n := nat_of_ascii c in
  if ((65 <=? n) && (n <=? 90) ||
      (192 <=? n) && (n <=? 222) && negb (n =? 215))%nat
  then ascii_of_nat (n + 32) else c.

Fixpoint lower (s : string) : string :=
  match s with
  | EmptyString => EmptyString
  | String c s' => String (lower_ascii c) (lower s')
  end.

(** [s[n:]] *)
Fixpoint skip (n : nat) (s : string) : string :=
  match n, s with
  | O, _ => s
  | S n', String _ s' => skip n' s'
  | S _, EmptyString => EmptyString
  end.

(** [s.startswith(p)], [s.endswith(p)], [p in s] *)
Definition startswith (s p : string) : bool := String.prefix p s.
Definition endswith (s p : string) : bool :=
  (String.length p <=? String.length s)%nat &&
  String.eqb (skip (String.length s - String.length p) s) p.
Fixpoint contains (s p : string) : bool :=
  String.prefix p s ||
  match s with
  | EmptyString => false
  | String _ s' => contains s' p
  end.

(** Removal of leading characters, and of leading and trailing ones. *)
Fixpoint lstrip_with (drop : ascii → bool) (s : string) : string :=
  match s with
  | EmptyString => EmptyString
  | String c s' => if drop c then lstrip_with drop s' else s
  end.
Definition strip_with (drop : ascii → bool) (s : string) : string :=
  String.rev (lstrip_with drop (String.rev (lstrip_with drop s))).

(** [s.strip()] and [s.strip(c)] for a single character [c]. *)
Definition strip (s : string) : string := strip_with is_space s.
Definition strip_char (c : ascii) (s : string) : string :=
  strip_with (Ascii.eqb c) s.

(** [s.split(sep)] for a single character [sep]; [cur] is the piece being
    read. *)
Fixpoint split_go (sep : ascii) (cur s : string) : list string :=
  match s with
  | EmptyString => [cur]
  | String c s' =>
      if Ascii.eqb c sep then cur :: split_go sep EmptyString s'
      else split_go sep (cur +:+ String c EmptyString) s'
  end.
Definition split (sep : ascii) (s : string) : list string :=
  split_go sep EmptyString s.

(** [sep.join(l)] *)
Fixpoint join (sep : string) (l : list string) : string :=
  match l with
  | [] => EmptyString
  | [x] => x
  | x :: l' => x +:+ sep +:+ join sep l'
  end.

(** [s.splitlines()]: no empty last line after a final boundary. *)
Fixpoint splitlines_go (cur s : string) : list string :=
  match s with
  | EmptyString => if String.eqb cur EmptyString then [] else [cur]
  | String c s' =>
      if Ascii.eqb c "013" then
        match s' with
        | String "010" s'' => cur :: splitlines_go EmptyString s''
        | _ => cur :: splitlines_go EmptyString s'
        end
      else if is_linebreak c then cur :: splitlines_go EmptyString s'
      else splitlines_go (cur +:+ String c EmptyString) s'
  end.
Definition splitlines (s : string) : list string :=
  splitlines_go EmptyString s.

(** The longest run of digits at the start of [s], and what follows. *)
Fixpoint take_digits (s : string) : string * string :=
  match s with
  | EmptyString => (EmptyString, EmptyString)
  | String c s' =>
      if is_digit c
      then let '(ds, rest) := take_digits s' in (String c ds, rest)
      else (EmptyString, s)
  end.

(** The digits of an integer literal in which single underscores may
    separate digits; [prev] tells that the previous character was a
    digit. *)
Fixpoint literal_digits (prev : bool) (s : string) : option string :=
  match s with
  | EmptyString => if prev then Some EmptyString else None
  | String c s' =>
      if is_digit c then String c <$> literal_digits true s'
      else if Ascii.eqb c "_" && prev then literal_digits false s'
      else None
  end.

(** [int(s)]: surrounding white space, an optional sign, digits. *)
Definition int (s : string) : exn + Z :=
  let s := strip_with is_int_space s in
  let '(negative, body) :=
    match s with
    | String "-" r => (true, r)
    | String "+" r => (false, r)
    | _ => (false, s)
    end in
  match literal_digits false body ≫= int_of_digits with
  | Some n => inr (if negative then - n else n)
  | None => inl ValueError
  end.

(** A [pathlib] path: the anchor and the components after it. *)
Record path := Path { anchor : string; parts : list string }.

Global Instance path_eq_dec : EqDecision path.
Proof. solve_decision. Defined.

(** [p.parent]: a path without components is its own parent. *)
Definition parent (p : path) : path :=
  Path (anchor p) (removelast (parts p)).

(** The components of [name] in [p / name]: the pieces between slashes
    without the empty ones and the dots. *)
Definition path_parts (name : string) : list string :=
  filter (λ c, negb (String.eqb c "") && negb (String.eqb c ".") = true)
    (split "/" name).

(** [p / name] for a POSIX path: the components of [name] are appended; a
    name that starts with a slash replaces [p], with the anchor [//] when
    it starts with exactly two slashes. Components [..] are kept. The DVD
    script applies [/] only to names it builds without a separator, on
    which the Windows flavour of [pathlib] does the same. *)
Definition joinpath (p : path) (name : string) : path :=
  match name with
  | String "/" (String "/" (String "/" _)) => Path "/" (path_parts name)
  | String "/" (String "/" _) => Path "//" (path_parts name)
  | String "/" _ => Path "/" (path_parts name)
  | _ => Path (anchor p) (parts p ++ path_parts name)
  end.

(** The directories of a file system with the names of their entries;
    an entry that is not itself a directory is a regular file. A directory
    is known by its path: paths with [..] components or through links are
    not identified with the directory they lead to. *)
Definition filesystem := list (path * list string).

Definition listdir (fs : filesystem) (p : path) : option (list string) :=
  snd <$> find (λ e, bool_decide (e.1 = p)) fs.

Fixpoint add_entry (fs : filesystem) (p : path) (name : string)
    : filesystem :=
  match fs with
  | [] => []
  | (q, entries) :: fs' =>
      if bool_decide (q = p) then (q, entries ++ [name]) :: fs'
      else (q, entries) :: add_entry fs' p name
  end.

(** [p.mkdir(exist_ok=True)] *)
Definition mkdir_exist_ok (fs : filesystem) (p : path)
    : exn + filesystem :=
  match listdir fs p with
  | Some _ => inr fs
  | None =>
      match listdir fs (parent p), last (parts p) with
      | Some entries, Some name =>
          if bool_decide (name ∈ entries) then inl FileExistsError
          else inr (add_entry fs (parent p) name ++ [(p, [])])
      | _, _ => inl FileNotFoundError
      end
  end.

(** [p.name]: the last component, empty for a path without components. *)
Definition name (p : path) : string := default EmptyString (last (parts p)).

(** [p.is_dir()] *)
Definition is_dir (fs : filesystem) (p : path) : bool :=
  bool_decide (is_Some (listdir fs p)).

(** [s.replace(c, '')] for a single character [c]. *)
Fixpoint remove_char (c : ascii) (s : string) : string :=
  match s with
  | EmptyString => EmptyString
  | String x s' =>
      if Ascii.eqb x c then remove_char c s' else String x (remove_char c s')
  end.

(** [a, b = map(int, s.split(sep))]: unpacking anything but two fields
    raises [ValueError], as does a field that is not an integer. *)
Definition int_pair (sep : ascii) (s : string) : exn + (Z * Z) :=
  match split sep s with
  | [a; b] => a ← int a; b ← int b; inr (a, b)
  | _ => inl ValueError
  end.

(** [range(start, stop)] *)
Definition range (start stop : Z) : list Z := seqZ start (stop - start).

(** [l[i]]: a negative index counts from the end. *)
Definition index {A} (l : list A) (i : Z) : exn + A :=
  let j := if i <? 0 then Z.of_nat (length l) + i else i in
  if j <? 0 then inl IndexError
  else match l !! Z.to_nat j with
       | Some a => inr a
       | None => inl IndexError
       end.

(** [p.exists()]: a directory, or an entry of its parent. *)
Definition exists_ (fs : filesystem) (p : path) : bool :=
  is_dir fs p ||
  match listdir fs (parent p), last (parts p) with
  | Some entries, Some name => bool_decide (name ∈ entries)
  | _, _ => false
  end.

(** [p.mkdir()] *)
Definition mkdir (fs : filesystem) (p : path) : exn + filesystem :=
  if is_dir fs p then inl FileExistsError else mkdir_exist_ok fs p.

(** *** Vocabulary for the properties of strings *)

(** The character [c] occurs in [s]. *)
Fixpoint occurs (c : ascii) (s : string) : Prop :=
  match s with
  | EmptyString => False
  | String x s' => x = c ∨ occurs c s'
  end.

(** A name that is one path component: not empty, not a dot, without a
    slash. *)
Definition plain_name (s : string) : Prop :=
  s ≠ EmptyString ∧ s ≠ "."%string ∧ ¬ occurs "/" s.
End Py.

(** ** The regular expressions of the scripts

    Every pattern the scripts search for is a sequence of literal text,
    [(\d+)] and [(\d{2})]; each [(\d+)] is followed by a literal that starts
    with a character that is not a digit, so the longest run of digits is
    the only one that can match and the matcher never has to give digits
    back. Digits are the ASCII ones. *)

Module Re.
Inductive token :=
| Lit (s : string)
| Digits
| TwoDigits.

(** The pattern matched at the start of [s]: the groups, in order. *)
Fixpoint match_here (p : list token) (s : string) : option (list string) :=
  match p with
  | [] => Some []
  | Lit l :: p' =>
      if Py.startswith s l
      then match_here p' (Py.skip (String.length l) s) else None
  | Digits :: p' =>
      let '(ds, rest) := Py.take_digits s in
      if String.eqb ds EmptyString then None
      else cons ds <$> match_here p' rest
  | TwoDigits :: p' =>
      match s with
      | String a (String b rest) =>
          if Py.is_digit a && Py.is_digit b
          then cons (String a (String b EmptyString)) <$> match_here p' rest
          else None
      | _ => None
      end
  end.

(** [re.search(pattern, s)]: the groups of the leftmost match. *)
Fixpoint search (p : list token) (s : string) : option (list string) :=
  match match_here p s with
  | Some groups => Some groups
  | None =>
      match s with
      | EmptyString => None
      | String _ s' => search p s'
      end
  end.

(** *** Season folders and year tags

    [(?:w1|w2)[_ ]?(\d+)] is searched in a name in lower case (one script
    lowers the name, the other passes [re.IGNORECASE]; the words are in
    lower case). The alternatives and the optional separator are tried in
    the order of the backtracking matcher. *)

(** [(\d+)] at the start of [s] *)
Definition digits_here (s : string) : option string :=
  let '(ds, _) := Py.take_digits s in
  if String.eqb ds EmptyString then None else Some ds.

(** [[_ ]?(\d+)] at the start of [s]: with the separator first, then
    without it. *)
Definition separator_digits_here (s : string) : option string :=
  match
    match s with
    | String c s' =>
        if Ascii.eqb c "_" || Ascii.eqb c " " then digits_here s' else None
    | EmptyString => None
    end
  with
  | Some ds => Some ds
  | None => digits_here s
  end.

Fixpoint season_here (words : list string) (s : string) : option string :=
  match words with
  | [] => None
  | w :: words' =>
      match
        if Py.startswith s w
        then separator_digits_here (Py.skip (String.length w) s) else None
      with
      | Some ds => Some ds
      | None => season_here words' s
      end
  end.

(** [re.search], group 1 of the leftmost match. *)
Fixpoint search_season (words : list string) (s : string) : option string :=
  match season_here words s with
  | Some ds => Some ds
  | None =>
      match s with
      | EmptyString => None
      | String _ s' => search_season words s'
      end
  end.

(** [\(\d{4}\)] at the start of [s] *)
Definition year_here (s : string) : bool :=
  match s with
  | String "(" (String a (String b (String c (String d (String ")" _))))) =>
      Py.is_digit a && Py.is_digit b && Py.is_digit c && Py.is_digit d
  | _ => false
  end.

(** [\s*\(\d{4}\)] at the start of [s]: the length of the match. The
    white space is taken whole, since a parenthesis must follow it. *)
Definition spaced_year_here (s : string) : option nat :=
  let t := Py.lstrip_with Py.is_space s in
  if year_here t
  then Some (String.length s - String.length t + 6)%nat else None.

(** [re.sub(r'\(\d{4}\)', '', s)] and [re.sub(r'\s*\(\d{4}\)', '', s)]:
    every match is removed, from left to right; [dropping] counts the
    characters of the current match that are still to be removed. *)
Fixpoint sub_years_go (dropping : nat) (s : string) : string :=
  match s with
  | EmptyString => EmptyString
  | String c s' =>
      match dropping with
      | S n => sub_years_go n s'
      | O =>
          if year_here s then sub_years_go 5 s'
          else String c (sub_years_go 0 s')
      end
  end.
Definition sub_years (s : string) : string := sub_years_go 0 s.

Fixpoint sub_spaced_years_go (dropping : nat) (s : string) : string :=
  match s with
  | EmptyString => EmptyString
  | String c s' =>
      match dropping with
      | S n => sub_spaced_years_go n s'
      | O =>
          match spaced_year_here s with
          | Some (S n) => sub_spaced_years_go n s'
          | _ => String c (sub_spaced_years_go 0 s')
          end
      end
  end.
Definition sub_spaced_years (s : string) : string :=
  sub_spaced_years_go 0 s.

(** What [.*$] leaves of [s]: nothing, or the line feed that ends [s];
    there is no match when more text follows a line feed. *)
Fixpoint line_end (s : string) : option string :=
  match s with
  | EmptyString => Some EmptyString
  | String c s' =>
      if Ascii.eqb c "010"
      then if String.eqb s' EmptyString then Some s else None
      else line_end s'
  end.

(** [\s*\(\d{4}\).*$] at the start of [s]: what is left after the
    match. *)
Definition year_to_end_here (s : string) : option string :=
  let t := Py.lstrip_with Py.is_space s in
  if year_here t then line_end (Py.skip 6 t) else None.

(** [re.sub(r'\s*\(\d{4}\).*$', '', s)]: the leftmost match reaches the
    end, and nothing matches in a line feed left behind. *)
Fixpoint sub_year_to_end (s : string) : string :=
  match year_to_end_here s with
  | Some rest => rest
  | None =>
      match s with
      | EmptyString => EmptyString
      | String c s' => String c (sub_year_to_end s')
      end
  end.

(** [re.sub(r'[._]', ' ', s)] *)
Fixpoint dots_to_spaces (s : string) : string :=
  match s with
  | EmptyString => EmptyString
  | String c s' =>
      String (if Ascii.eqb c "." || Ascii.eqb c "_" then " "%char else c)
        (dots_to_spaces s')
  end.
End Re.

(** ** Python floats

    The scripts compute thresholds with floating-point operations and
    compare them with integer durations. The operations are an interface,
    so that what is proved holds for IEEE doubles as for exact rationals;
    Python compares an [int] with a [float] exactly, without converting. *)

Class PyFloat (F : Type) := {
  of_int : Z → F;
  fadd : F → F → F;
  fsub : F → F → F;
  fmul : F → F → F;
  fdiv : F → F → F;
  float_le_int : F → Z → bool;
  int_le_float : Z → F → bool
}.

(** [a / b] on integers raises [OverflowError] when the quotient, rounded
    to the nearest float, is beyond the largest float: from
    [2^1024 - 2^970] on. *)
Definition true_division_overflows (a b : Z) : bool :=
  (2 ^ 1024 - 2 ^ 970) * Z.abs b <=? Z.abs a.

(** Exact rational arithmetic. *)
Global Instance Q_float : PyFloat Q := {
  of_int := inject_Z;
  fadd := Qplus;
  fsub := Qminus;
  fmul := Qmult;
  fdiv := Qdiv;
  float_le_int x n := Qle_bool x (inject_Z n);
  int_le_float n x := Qle_bool (inject_Z n) x
}.

(** ** The metadata service

    What the TVDB requests return is an input: a request either raises (a
    [requests] exception for a network or HTTP failure, another exception
    for a malformed answer) or yields the decoded data. *)

Module Tvdb.
(** An entry of the search result; a field may be absent. *)
Record show := Show { id : option Z; name : option string }.

(** An episode record; a field that is absent or null is [None]. *)
Record episode := Episode {
  seasonNumber : option Z;
  number : option Z;
  runtime : option Z
}.

Record service := Service {
  (** [POST /login], then [data.token] *)
  login : Py.exn + string;
  (** [GET /search?query=...&type=series], then [data] *)
  search : string → Py.exn + list show;
  (** [GET /series/{id}/episodes/official], with the [season] parameter
      when the caller passes one, then the episode list *)
  episodes_official : Z → option Z → Py.exn + list episode
}.

(** Truth value of [episode.get(field)] for a numeric field. *)
Definition truthy (v : option Z) : bool :=
  match v with
  | Some n => negb (n =? 0)
  | None => false
  end.

(** [min(l)], [max(l)] for a list with head [x]. *)
Definition min_of (x : Z) (l : list Z) : Z := foldr Z.min x l.
Definition max_of (x : Z) (l : list Z) : Z := foldr Z.max x l.
End Tvdb.

(** ** The duration classifier ([filter_episodes])

    The two scripts share the function; they differ in the chapter count of a
    title ([info['chapters']] is a number in the Blu-ray script and a list in
    the DVD script) which is the sort key of a duration group. *)

Section DurationClassifier.
Context {info : Type}.
(** [info['duration']] *)
Variable info_duration : info → Z.
(** [info['chapters']], respectively [len(info['chapters'])] *)
Variable chapter_count : info → Z.
(** [sample_title(device, title_num, duration)]: the sample file (or
    [None]) and its size in bytes ([0] when sampling failed). *)
Variable sample_title : string → Z → Z → option string * Z.

(** [min_sec <= duration <= max_sec]; band bounds are numbers entered in
    minutes and multiplied by 60, or the integer defaults. *)
Definition in_range (duration : Z) (r : Q * Q) : bool :=
  Qle_bool r.1 (inject_Z duration) && Qle_bool (inject_Z duration) r.2.

(** The loop over [episode_ranges.items()] that sets [is_valid]. *)
Definition is_valid (episode_ranges : list (string * (Q * Q)))
    (duration : Z) : bool :=
  existsb (λ r, in_range duration r.2) episode_ranges.

(** [duration_groups[duration].append((num, info))], creating the group
    when the duration is new. *)
Fixpoint group_append (groups : list (Z * list (Z * info)))
    (duration : Z) (x : Z * info) : list (Z * list (Z * info)) :=
  match groups with
  | [] => [(duration, [x])]
  | (d, g) :: rest =>
      if Z.eqb d duration then (d, g ++ [x]) :: rest
      else (d, g) :: group_append rest duration x
  end.

Definition first_pass_step (episode_ranges : list (string * (Q * Q)))
    (groups : list (Z * list (Z * info))) (x : Z * info)
    : list (Z * list (Z * info)) :=
  if is_valid episode_ranges (info_duration x.2)
  then group_append groups (info_duration x.2) x
  else groups.

(** First pass: group the in-band titles by exact duration. *)
Definition duration_groups (titles : list (Z * info))
    (episode_ranges : list (string * (Q * Q)))
    : list (Z * list (Z * info)) :=
  fold_left (first_pass_step episode_ranges) titles [].

(** [sorted(duration_groups.items())]: ascending duration. *)
Fixpoint insert_group (x : Z * list (Z * info))
    (l : list (Z * list (Z * info))) : list (Z * list (Z * info)) :=
  match l with
  | [] => [x]
  | y :: l' => if Z.leb x.1 y.1 then x :: l else y :: insert_group x l'
  end.

Definition sorted_groups (groups : list (Z * list (Z * info)))
    : list (Z * list (Z * info)) :=
  foldr insert_group [] groups.

(** [sorted(group, key=chapters, reverse=True)]: descending chapter count;
    Python's sort is stable, also with [reverse=True]. *)
Fixpoint insert_title (x : Z * info) (l : list (Z * info))
    : list (Z * info) :=
  match l with
  | [] => [x]
  | y :: l' =>
      if Z.leb (chapter_count y.2) (chapter_count x.2) then x :: l
      else y :: insert_title x l'
  end.

Definition sorted_by_chapters (group : list (Z * info))
    : list (Z * info) :=
  foldr insert_title [] group.

(** State of the sampling loop of one group: [samples] (sample size to
    title number), [unique_titles], and the titles the sampler was called
    on, in call order. *)
Record sampling := Sampling {
  samples : gmap Z Z;
  unique_titles : gset Z;
  sampled : list Z
}.

Definition sample_step (device : string) (duration : Z) (st : sampling)
    (x : Z * info) : sampling :=
  let '(sample_file, sample_size) := sample_title device x.1 duration in
  if Z.ltb 0 sample_size then
    match samples st !! sample_size with
    | None =>
        Sampling (<[sample_size := x.1]> (samples st))
                 ({[x.1]} ∪ unique_titles st)
                 (sampled st ++ [x.1])
    | Some original =>
        Sampling (samples st) (unique_titles st) (sampled st ++ [x.1])
    end
  else Sampling (samples st) (unique_titles st) (sampled st ++ [x.1]).

Definition sample_group (device : string) (duration : Z)
    (group : list (Z * info)) : sampling :=
  fold_left (sample_step device duration) (sorted_by_chapters group)
    (Sampling ∅ ∅ []).

(** The inner loop that copies a unique title from the group. *)
Definition add_unique (group : list (Z * info)) (num : Z)
    (episode_titles : gmap Z info) : gmap Z info :=
  match find (λ y, Z.eqb y.1 num) group with
  | Some y => <[num := y.2]> episode_titles
  | None => episode_titles
  end.

(** Second pass, one group. The result dictionary is a [gmap]: within a
    group the insertion order follows the iteration of a Python set. *)
Definition second_pass_step (device : string)
    (acc : gmap Z info * list Z) (dg : Z * list (Z * info))
    : gmap Z info * list Z :=
  if Nat.leb 2 (length dg.2) then
    let st := sample_group device dg.1 dg.2 in
    (set_fold (add_unique dg.2) acc.1 (unique_titles st),
     acc.2 ++ sampled st)
  else
    match dg.2 with
    | x :: _ => (<[x.1 := x.2]> acc.1, acc.2)
    | [] => acc
    end.

(** [filter_episodes(titles, min_length, max_length, device,
    episode_ranges)]: the accepted titles, and the titles that were
    sampled, in order. [min_length] and [max_length] are only logged. *)
Definition filter_episodes (titles : list (Z * info))
    (min_length max_length : Z) (device : string)
    (episode_ranges : list (string * (Q * Q)))
    : gmap Z info * list Z :=
  fold_left (second_pass_step device)
    (sorted_groups (duration_groups titles episode_ranges)) (∅, []).

(** *** Vocabulary for the properties of the classifier *)

(** Titles of one duration that fall in some band. *)
Definition in_group (episode_ranges : list (string * (Q * Q))) (d : Z)
    (x : Z * info) : Prop :=
  is_valid episode_ranges (info_duration x.2) = true ∧ info_duration x.2 = d.

Global Instance in_group_dec ranges d x : Decision (in_group ranges d x).
Proof. unfold in_group. apply _. Defined.

(** What the first pass has built after reading [titles]. *)
Definition groups_inv (ranges : list (string * (Q * Q)))
    (titles : list (Z * info)) (groups : list (Z * list (Z * info)))
    : Prop :=
  NoDup (groups.*1) ∧
  (∀ d g, (d, g) ∈ groups →
     g ≠ [] ∧ g = filter (in_group ranges d) titles) ∧
  (∀ x, x ∈ titles → is_valid ranges (info_duration x.2) = true →
     info_duration x.2 ∈ groups.*1).

(** [x] is processed no later than [y]: it has at least as many chapters. *)
Definition chapters_ge (x y : Z * info) : Prop :=
  chapter_count y.2 ≤ chapter_count x.2.

(** The fingerprint of a title: the size of its sample. *)
Definition fingerprint (device : string) (d : Z) (x : Z * info) : Z :=
  (sample_title device x.1 d).2.

(** [x] is sampled successfully in [l], and no title before it in [l] has
    its fingerprint. *)
Definition first_with_fingerprint (device : string) (d : Z)
    (l : list (Z * info)) (x : Z * info) : Prop :=
  ∃ l1 l2, l = l1 ++ x :: l2 ∧ 0 < fingerprint device d x ∧
    ∀ y, y ∈ l1 → fingerprint device d y ≠ fingerprint device d x.

(** The titles of a group that the second pass accepts. *)
Definition accepted (device : string) (dg : Z * list (Z * info)) (k : Z)
    : Prop :=
  if Nat.leb 2 (length dg.2)
  then k ∈ unique_titles (sample_group device dg.1 dg.2)
  else fst <$> head dg.2 = Some k.

Global Instance accepted_dec device dg k : Decision (accepted device dg k).
Proof. unfold accepted. destruct (Nat.leb 2 (length dg.2)); apply _. Defined.

(** The sampler calls of a group. *)
Definition group_samples (device : string) (dg : Z * list (Z * info))
    : list Z :=
  if Nat.leb 2 (length dg.2)
  then (sorted_by_chapters dg.2).*1 else [].
End DurationClassifier.

(** ** The episode sequencer ([find_next_available_episode],
    [get_next_season_episode]); the two scripts have the same text. *)

Section EpisodeSequencer.
(** [Path.glob] compares names without regard to case on Windows. *)
Variable ignore_case : bool.

(** The literal text before the episode number: [S{season_num:02d}E]. *)
Definition episode_prefix (season_num : Z) : string :=
  "S" +:+ Py.format_02d season_num +:+ "E".

(** [output_dir.glob(f"S{season_num:02d}E*.mkv")] on one name: the season
    text has no wildcard, so the name must start with the prefix, end
    with [.mkv], and be long enough for both. *)
Definition glob_match (season_num : Z) (name : string) : bool :=
  let fold := if ignore_case then Py.lower else id in
  let p := episode_prefix season_num in
  Py.startswith (fold name) (fold p) &&
  Py.endswith (fold name) (fold ".mkv") &&
  (String.length p + 4 <=? String.length name)%nat.

Definition glob (fs : Py.filesystem) (output_dir : Py.path)
    (season_num : Z) : list string :=
  filter (λ name, glob_match season_num name = true)
    (default [] (Py.listdir fs output_dir)).

(** [re.search(rf"S{season_num:02d}E(\\d+)\\.mkv", name)], group 1: the
    season text is digits, or a sign and digits, and stands for itself in
    the pattern. *)
Definition re_search (season_num : Z) (name : string) : option string :=
  Re.search [Re.Lit (episode_prefix season_num); Re.Digits; Re.Lit ".mkv"]
    name ≫= head.

(** The list [existing] that the scan of the directory builds. *)
Definition existing_episodes (fs : Py.filesystem) (output_dir : Py.path)
    (season_num : Z) : list Z :=
  omap (λ name, re_search season_num name ≫= Py.int_of_digits)
    (glob fs output_dir season_num).

(** [max(existing)] for a list that is not empty. *)
Definition max_list (l : list Z) : Z :=
  match l with
  | [] => 0
  | x :: l' => foldr Z.max x l'
  end.

Definition find_next_available_episode (fs : Py.filesystem)
    (output_dir : Py.path) (season_num : Z) : Z :=
  let existing := existing_episodes fs output_dir season_num in
  match existing with
  | [] => 1
  | _ =>
      match find (λ i, negb (bool_decide (i ∈ existing)))
              (seqZ 1 (max_list existing + 1)) with
      | Some i => i
      | None => max_list existing + 1
      end
  end.

(** [get_next_season_episode]: the body of the [while True:] loop ends in
    an unconditional [return], so it runs once. The result is the file
    system after the call and the triple returned. *)
Definition get_next_season_episode (fs : Py.filesystem)
    (output_dir : Py.path) (season_num max_episodes : Z)
    : Py.exn + (Py.filesystem * (Z * Z * Py.path)) :=
  let current_season := season_num in
  let current_dir := output_dir in
  let next_episode :=
    find_next_available_episode fs current_dir current_season in
  if max_episodes <? next_episode then
    let current_season := current_season + 1 in
    let current_dir :=
      Py.joinpath (Py.parent output_dir)
        ("Season " +:+ Py.str current_season) in
    match Py.mkdir_exist_ok fs current_dir with
    | inl e => inl e
    | inr fs' =>
        let next_episode :=
          find_next_available_episode fs' current_dir current_season in
        inr (fs', (current_season, next_episode,
                   Py.joinpath current_dir
                     (episode_prefix current_season +:+
                      Py.format_02d next_episode +:+ ".mkv")))
    end
  else
    inr (fs, (current_season, next_episode,
              Py.joinpath current_dir
                (episode_prefix current_season +:+
                 Py.format_02d next_episode +:+ ".mkv"))).

(** *** Vocabulary for the properties of the sequencer *)

(** [n] is the smallest positive integer that is not in [l]. *)
Definition least_missing_positive (l : list Z) (n : Z) : Prop :=
  1 ≤ n ∧ (n ∉ l) ∧ ∀ j, 1 ≤ j < n → j ∈ l.

(** A string of ASCII digits. *)
Fixpoint all_digits (s : string) : bool :=
  match s with
  | EmptyString => true
  | String c s' => Py.is_digit c && all_digits s'
  end.

(** The name [S<season:02d>E<episode:02d>.mkv]. *)
Definition episode_file (season_num episode : Z) : string :=
  episode_prefix season_num +:+ Py.format_02d episode +:+ ".mkv".

(** A name of the shape [S<ss>E<middle>.mkv], which is what the glob
    pattern stands for; without regard to case when [ignore_case]. *)
Definition episode_like (season_num : Z) (name : string) : Prop :=
  let fold := if ignore_case then Py.lower else id in
  ∃ middle,
    fold name = fold (episode_prefix season_num) +:+ middle +:+ ".mkv".

(** Two names of one entry of a directory: equal, or equal without regard
    to case where the file system does not distinguish case. *)
Definition same_entry (a b : string) : Prop :=
  if ignore_case then Py.lower a = Py.lower b else a = b.

(** An occurrence of [S<ss>E<digits>.mkv] in [name], after the text
    [before] and with the digits [ds]. *)
Definition episode_occurrence (season_num : Z) (name before ds : string)
    : Prop :=
  ds ≠ EmptyString ∧ all_digits ds = true ∧
  ∃ after,
    name = before +:+ episode_prefix season_num +:+ ds +:+ ".mkv" +:+ after.

(** The episode numbers the scan reads in a listing: for a name of that
    shape, the number spelled by the digits that the pattern captures at
    its leftmost match inside the name. *)
Definition scanned (names : list string) (season_num n : Z) : Prop :=
  ∃ name ds, name ∈ names ∧ episode_like season_num name ∧
    re_search season_num name = Some ds ∧ Py.int_of_digits ds = Some n.
End EpisodeSequencer.

(** ** The margin filter ([filter_titles_by_duration], Blu-ray script) *)

Section MarginFilter.
Context `{PyFloat F} {info : Type}.
(** [info['duration']] *)
Variable info_duration : info → Z.

Definition min_with_margin (min_runtime margin_percent : F) : F :=
  let margin := fdiv margin_percent (of_int 100) in
  fmul min_runtime (fsub (of_int 1) margin).

Definition max_with_margin (max_runtime margin_percent : F) : F :=
  let margin := fdiv margin_percent (of_int 100) in
  fmul max_runtime (fadd (of_int 1) margin).

(** [min_with_margin <= duration <= max_with_margin] *)
Definition within_margin (min_runtime max_runtime margin_percent : F)
    (duration : Z) : bool :=
  float_le_int (min_with_margin min_runtime margin_percent) duration &&
  int_le_float duration (max_with_margin max_runtime margin_percent).

Definition filter_titles_by_duration (title_info : list (Z * info))
    (min_runtime max_runtime margin_percent : F)
    : list (Z * info) * list (Z * info) :=
  fold_left
    (λ (acc : list (Z * info) * list (Z * info)) (x : Z * info),
       let '(matching_titles, non_matching_titles) := acc in
       if within_margin min_runtime max_runtime margin_percent
            (info_duration x.2)
       then (Dict.set matching_titles x.1 x.2, non_matching_titles)
       else (matching_titles, Dict.set non_matching_titles x.1 x.2))
    title_info ([], []).
End MarginFilter.

(** ** The Blu-ray script ([bluray_ripper.py]) *)

Module Bluray.
(** The dictionary [parse_titles] builds for a title. *)
Record title := Title {
  number : Z;
  duration : Z;
  size_bytes : Z;
  chapters : Z;
  name : string;
  filename : string
}.

Definition filter_episodes
    (sample_title : string → Z → Z → option string * Z) :=
  filter_episodes (info := title) duration chapters sample_title.

(** *** [get_tvdb_episode_info] *)

(** The runtimes, in minutes, of the episodes of the season that have
    one. *)
Definition season_runtimes (season_num : Z) (episodes : list Tvdb.episode)
    : list Z :=
  omap (λ e, if bool_decide (Tvdb.seasonNumber e = Some season_num)
                && Tvdb.truthy (Tvdb.runtime e)
             then Tvdb.runtime e else None) episodes.

(** Both [except] clauses return the default range. *)
Definition get_tvdb_episode_info (api : Tvdb.service) (show_name : string)
    (season_num : Z) : Py.exn + (Z * Z) :=
  Py.try_except
    (shows ← Tvdb.search api show_name;
     match shows with
     | [] => inl (Py.BluRayError "Show not found on TVDB")
     | s :: _ =>
         show_id ← Py.item (Tvdb.id s);
         episodes ← Tvdb.episodes_official api show_id None;
         match season_runtimes season_num episodes with
         | [] => inr (30 * 60, 60 * 60)
         | r :: rs => inr (Tvdb.min_of r rs * 60, Tvdb.max_of r rs * 60)
         end
     end)
    (λ e, match e with
          | Py.RequestException _ => inr (30 * 60, 60 * 60)
          | _ => inr (30 * 60, 60 * 60)
          end).

(** *** [parse_titles] *)

Definition default_title (title_id : Z) : title :=
  Title title_id 0 0 0 "" "".

(** [int(x.split(':')[1])] *)
Definition int_after_colon (x : string) : Py.exn + Z :=
  match Py.split ":" x with
  | _ :: field :: _ => Py.int field
  | _ => inl Py.IndexError
  end.

(** [h, m, s = map(int, value.split(':'))] and the sum in seconds; a wrong
    number of fields and a field that is not an integer both raise
    [ValueError]. *)
Definition hms_seconds (value : string) : Py.exn + Z :=
  match Py.split ":" value with
  | [h; m; s] =>
      h ← Py.int h; m ← Py.int m; s ← Py.int s;
      inr (h * 3600 + m * 60 + s)
  | _ => inl Py.ValueError
  end.

Section ParseTitles.
(** [int(float(value.split()[0]) * 1024**3)]: the floating-point
    conversion of a size in gigabytes is left to the caller. *)
Variable gigabytes : string → Py.exn + Z.

(** One [TINFO:] line with at least four fields. *)
Definition title_info_line (titles : list (Z * title))
    (parts : list string) : Py.exn + list (Z * title) :=
  title_id ← int_after_colon (nth 0 parts "");
  let code := nth 1 parts "" in
  let value := Py.strip_char "034" (Py.join "," (drop 3 parts)) in
  let titles :=
    match Dict.get titles title_id with
    | Some _ => titles
    | None => Dict.set titles title_id (default_title title_id)
    end in
  let info := default (default_title title_id) (Dict.get titles title_id) in
  if String.eqb code "2" then
    inr (Dict.set titles title_id
           (Title (number info) (duration info) (size_bytes info)
                  (chapters info) value (filename info)))
  else if String.eqb code "8" then
    n ← Py.int value;
    inr (Dict.set titles title_id
           (Title (number info) (duration info) (size_bytes info)
                  n (name info) (filename info)))
  else if String.eqb code "9" then
    d ← hms_seconds value;
    inr (Dict.set titles title_id
           (Title (number info) d (size_bytes info)
                  (chapters info) (name info) (filename info)))
  else if String.eqb code "10" then
    if Py.contains value "GB" then
      b ← gigabytes value;
      inr (Dict.set titles title_id
             (Title (number info) (duration info) b
                    (chapters info) (name info) (filename info)))
    else inr titles
  else if String.eqb code "27" then
    inr (Dict.set titles title_id
           (Title (number info) (duration info) (size_bytes info)
                  (chapters info) (name info) value))
  else inr titles.

(** The body of the loop over the lines of the output. *)
Definition parse_line (titles : list (Z * title)) (line : string)
    : Py.exn + list (Z * title) :=
  if Py.startswith line "TCOUNT:" then
    _ ← int_after_colon line; inr titles
  else if Py.startswith line "TINFO:" then
    let parts := Py.split "," line in
    if (4 <=? length parts)%nat then title_info_line titles parts
    else inr titles
  else if Py.startswith line "SINFO:" then
    let parts := Py.split "," line in
    if (4 <=? length parts)%nat then
      _ ← int_after_colon (nth 0 parts "");
      _ ← Py.int (nth 1 parts "");
      inr titles
    else inr titles
  else inr titles.

Fixpoint parse_lines (titles : list (Z * title)) (lines : list string)
    : Py.exn + list (Z * title) :=
  match lines with
  | [] => inr titles
  | line :: lines' =>
      titles' ← parse_line titles line; parse_lines titles' lines'
  end.

(** [parse_titles(output)]: the titles of at least two minutes. *)
Definition parse_titles (output : string) : Py.exn + list (Z * title) :=
  titles ← parse_lines [] (Py.splitlines output);
  inr (filter (λ kv, 120 ≤ duration kv.2) titles).

(** The lines of [main] that call the parser: an empty dictionary is the
    error [No valid titles found on disc]. *)
Definition main_parse_titles (stdout : string)
    : Py.exn + list (Z * title) :=
  titles ← parse_titles stdout;
  match titles with
  | [] => inl (Py.BluRayError "No valid titles found on disc")
  | _ => inr titles
  end.
End ParseTitles.

(** What every dictionary of [parse_titles] satisfies: unique title
    numbers, and a record that carries its own number. *)
Definition titles_inv (ts : list (Z * title)) : Prop :=
  Dict.wf ts ∧ ∀ k i, (k, i) ∈ ts → number i = k.

(** *** Ripping one episode in [process_tv_show] *)

(** An entry of the target directory after the engine has run; times are
    integers (nanoseconds, say). *)
Record file_stat := FileStat {
  file_name : string;
  st_mtime : Z;
  st_size : Z
}.

(** [max(files, key=mtime)]: the first of the newest files. *)
Definition newest (f : file_stat) (files : list file_stat) : file_stat :=
  fold_left (λ best g, if st_mtime best <? st_mtime g then g else best)
    files f.

(** [find_latest_mkv(directory, created_after)] *)
Definition find_latest_mkv (directory : list file_stat) (created_after : Z)
    : option file_stat :=
  let mkv_files :=
    filter (λ f, Py.endswith (file_name f) ".mkv" = true) directory in
  let recent_files :=
    filter (λ f, created_after < st_mtime f) mkv_files in
  match recent_files with
  | [] => None
  | f :: files => Some (newest f files)
  end.

(** What the engine did for one title: whether [rip_title] could start
    it, its exit code, the target directory afterwards, and whether the
    rename succeeds. *)
Record rip_run := RipRun {
  started : bool;
  returncode : Z;
  directory_after : list file_stat;
  rename_ok : bool
}.

(** The message printed for the episode. *)
Inductive rip_report :=
| SuccessfullyRipped
| FailedToRename
| FailedToFind
| FailedToStart.

(** The body of the loop over the selected titles, from the call of
    [rip_title] to the message. The exit code and the size of the file are
    not looked at. *)
Definition rip_episode (start_time : Z) (run : rip_run) : rip_report :=
  if started run then
    match find_latest_mkv (directory_after run) start_time with
    | Some new_file =>
        if rename_ok run then SuccessfullyRipped else FailedToRename
    | None => FailedToFind
    end
  else FailedToStart.

(** [verify_ripped_file(file_path)]: the exit code of the decoder and the
    size of the file, either of which may raise. No function of the script
    calls it. *)
Definition verify_ripped_file (ffmpeg : Py.exn + Z) (stat : Py.exn + Z)
    : bool :=
  match ffmpeg with
  | inr rc =>
      (rc =? 0) &&
      match stat with
      | inr size => 1000000 <? size
      | inl _ => false
      end
  | inl _ => false
  end.

(** *** [get_next_episode_number] *)

(** [None] without episode file, otherwise the highest episode number
    plus one; the scan is that of [find_next_available_episode]. *)
Definition get_next_episode_number (ignore_case : bool)
    (fs : Py.filesystem) (output_dir : Py.path) (season_num : Z)
    : option Z :=
  match glob ignore_case fs output_dir season_num with
  | [] => None
  | _ =>
      match existing_episodes ignore_case fs output_dir season_num with
      | [] => None
      | episode_numbers => Some (max_list episode_numbers + 1)
      end
  end.

(** *** The selection and the numbering of [process_tv_show] *)

Section ProcessTvShow.
Context `{PyFloat F}.

(** The dictionary [get_title_info] builds for a title. *)
Record title_info := TitleInfo { info_duration : Z; duration_mins : F }.

(** [get_title_info(titles)]: the durations in seconds and in minutes,
    and the list of exceptions. The division by 60 is the only operation
    of the loop that can raise: the title is then left out and the message
    of the exception recorded. *)
Definition get_title_info (titles : list (Z * title))
    : list (Z * title_info) * list string :=
  fold_left
    (λ acc kv,
       if true_division_overflows (duration kv.2) 60
       then (acc.1,
             acc.2 ++
             ["Title " +:+ Py.str kv.1 +:+
              ": integer division result too large for a float"])
       else (Dict.set acc.1 kv.1
               (TitleInfo (duration kv.2)
                  (fdiv (of_int (duration kv.2)) (of_int 60))),
             acc.2))
    titles ([], []).

(** [[int(x.strip()) for x in additional.split(',')]]: the list is built
    before any title is added. *)
Fixpoint title_numbers (parts : list string) : Py.exn + list Z :=
  match parts with
  | [] => inr []
  | x :: parts' =>
      num ← Py.int (Py.strip x);
      nums ← title_numbers parts';
      inr (num :: nums)
  end.

Definition include_titles
    (matching_titles non_matching_titles : list (Z * title_info))
    (additional : string) : Py.exn + list (Z * title_info) :=
  nums ← title_numbers (Py.split "," additional);
  inr (fold_left
         (λ matching num,
            match Dict.get non_matching_titles num with
            | Some info => Dict.set matching num info
            | None => matching
            end) nums matching_titles).

(** How a pass of the retry loop ends the selection: with titles, or by
    starting the pass again. *)
Inductive selection :=
| Selected (matching_titles : list (Z * title_info))
| StartOver.

(** From [filter_titles_by_duration] to the check that a title is
    selected: [include_choice] and [additional] are the answers of the
    user, asked for only when a title is outside the range. The margin is
    the default of 20 percent, the runtimes are integers. *)
Definition select_titles (titles : list (Z * title_info))
    (min_runtime max_runtime : Z) (include_choice : bool)
    (additional : string) : Py.exn + selection :=
  let '(matching_titles, non_matching_titles) :=
    filter_titles_by_duration info_duration titles
      (of_int min_runtime) (of_int max_runtime) (of_int 20) in
  let included :=
    match non_matching_titles with
    | [] => inr (Selected matching_titles)
    | _ =>
        if include_choice then
          if String.eqb (Py.lower additional) "b" then inr StartOver
          else
            match include_titles matching_titles non_matching_titles
                    additional with
            | inr matching_titles => inr (Selected matching_titles)
            | inl Py.ValueError => inr StartOver
            | inl e => inl e
            end
        else inr (Selected matching_titles)
    end in
  match included with
  | inr (Selected []) =>
      inl (Py.BluRayError
             "No valid titles found matching expected episode duration")
  | r => r
  end.

(** The first episode number: the one after the existing episodes, or
    the answer of the user ([None] when the answer is to go back). *)
Definition first_episode (next_episode : option Z) (episode_input : string)
    : Py.exn + option Z :=
  match next_episode with
  | Some start_episode => inr (Some start_episode)
  | None =>
      if String.eqb (Py.lower episode_input) "b" then inr None
      else start_episode ← Py.int episode_input; inr (Some start_episode)
  end.

(** The loop over [enumerate(sorted_titles)]: the title, its episode
    number and its output file. *)
Definition episode_plan (output_dir : Py.path)
    (season_num start_episode : Z)
    (matching_titles : list (Z * title_info))
    : list (Z * Z * Py.path) :=
  imap (λ i kv,
          let episode_num := start_episode + Z.of_nat i in
          (kv.1, episode_num,
           Py.joinpath output_dir
             ("S" +:+ Py.format_02d season_num +:+ "E" +:+
              Py.format_02d episode_num +:+ ".mkv")))
    (Dict.sorted_items matching_titles).
End ProcessTvShow.

(** *** [parse_title_range] *)

(** One part of the range text: a number, or [start-end]. *)
Definition title_range_part (numbers : gset Z) (part : string)
    : Py.exn + gset Z :=
  if Py.contains part "-" then
    '(start, stop) ← Py.int_pair "-" part;
    inr (numbers ∪ list_to_set (Py.range start (stop + 1)))
  else
    num ← Py.int part;
    inr (numbers ∪ {[num]}).

Fixpoint title_range_parts (numbers : gset Z) (parts : list string)
    : Py.exn + gset Z :=
  match parts with
  | [] => inr numbers
  | part :: parts' =>
      numbers ← title_range_part numbers part;
      title_range_parts numbers parts'
  end.

(** [parse_title_range(range_str)]: [sorted(list(numbers))] *)
Definition parse_title_range (range_str : string) : Py.exn + list Z :=
  numbers ← title_range_parts ∅ (Py.split "," range_str);
  inr (merge_sort Z.le (elements numbers)).

(** The numbers a part of a range text stands for. *)
Definition part_covers (part : string) (n : Z) : Prop :=
  if Py.contains part "-"
  then ∃ start stop,
         Py.int_pair "-" part = inr (start, stop) ∧ start ≤ n ≤ stop
  else Py.int part = inr n.

(** *** The folders of a show *)

(** [get_show_info_from_path(path)]: the season pattern is searched
    without regard to case, and a match has digits only, so nothing in the
    function can raise. *)
Definition get_show_info_from_path (path : Py.path)
    : string * option Z :=
  let season_num :=
    Re.search_season ["season"; "series"] (Py.lower (Py.name path))
      ≫= Py.int_of_digits in
  (Py.strip (Re.sub_years (Py.name (Py.parent path))), season_num).

(** The third test of [find_show_folder]:
    [re.match(rf"{re.escape(show)}\s*\(\d{{4}}\)", folder)] *)
Definition year_tagged (show_name folder_name : string) : bool :=
  Py.startswith folder_name show_name &&
  bool_decide
    (is_Some (Re.spaced_year_here
                (Py.skip (String.length show_name) folder_name))).

(** The loop over [base_dir.iterdir()]: an exact match goes first, the
    other matches last. *)
Definition show_folder_step (fs : Py.filesystem) (base_dir : Py.path)
    (show_name : string) (matches : list Py.path) (entry : string)
    : list Py.path :=
  let folder := Py.joinpath base_dir entry in
  if Py.is_dir fs folder then
    let folder_name := Py.lower entry in
    let show_name_lower := Py.lower show_name in
    if String.eqb folder_name show_name_lower then folder :: matches
    else if Py.contains folder_name show_name_lower
    then matches ++ [folder]
    else if year_tagged show_name_lower folder_name
    then matches ++ [folder]
    else matches
  else matches.

(** [find_show_folder(base_dir, show_name)]: when [iterdir] raises the
    list is empty. *)
Definition find_show_folder (fs : Py.filesystem) (base_dir : Py.path)
    (show_name : string) : list Py.path :=
  match Py.listdir fs base_dir with
  | Some entries =>
      fold_left (show_folder_step fs base_dir show_name) entries []
  | None => []
  end.

(** [create_folder_structure(base_dir, show_name, season_num)] *)
Definition create_folder_structure (fs : Py.filesystem)
    (base_dir : Py.path) (show_name : string) (season_num : Z)
    : Py.exn + (Py.filesystem * Py.path) :=
  let show_dir := Py.joinpath base_dir show_name in
  let season_dir :=
    Py.joinpath show_dir ("Season " +:+ Py.str season_num) in
  fs ← Py.mkdir_exist_ok fs show_dir;
  fs ← Py.mkdir_exist_ok fs season_dir;
  inr (fs, season_dir).

(** [setup_output_directory(provided_dir)]: [asked_show], [asked_season]
    and [asked_choice] are the answers of the user, asked for only when
    the directory is not a season folder. Every exception becomes a
    [BluRayError]. *)
Definition setup_output_directory (fs : Py.filesystem)
    (provided_dir : Py.path) (asked_show asked_season asked_choice : string)
    : Py.exn + (Py.filesystem * (Py.path * string * Z)) :=
  Py.try_except
    (match
       Re.search_season ["season"; "series"]
         (Py.lower (Py.name provided_dir)) ≫= Py.int_of_digits
     with
     | Some season_num =>
         inr (fs, (provided_dir,
                   Py.strip (Re.sub_spaced_years
                               (Py.name (Py.parent provided_dir))),
                   season_num))
     | None =>
         let show_name := asked_show in
         season_num ← Py.int asked_season;
         let potential_shows := find_show_folder fs provided_dir show_name in
         let create_new :=
           '(fs, season_dir) ←
             create_folder_structure fs provided_dir show_name season_num;
           inr (fs, (season_dir, show_name, season_num)) in
         match potential_shows with
         | [] => create_new
         | _ =>
             choice ← Py.int asked_choice;
             if choice <=? Z.of_nat (length potential_shows) then
               show_dir ← Py.index potential_shows (choice - 1);
               let season_dir :=
                 Py.joinpath show_dir ("Season " +:+ Py.str season_num) in
               fs ← (if Py.exists_ fs season_dir then inr fs
                     else Py.mkdir fs season_dir);
               inr (fs, (season_dir, Py.name show_dir, season_num))
             else create_new
         end
     end)
    (λ e, inl (Py.BluRayError "Failed to set up directory structure")).
End Bluray.

(** ** The DVD script ([dvd_ripper_windows.py]) *)

Module Windows.
(** The dictionary [scan_disc] builds for a title; a chapter is its number
    and its duration in seconds. *)
Record title := Title {
  duration : Z;
  chapters : list (Z * Z);
  audio : list string;
  subtitles : list string
}.

Definition filter_episodes
    (sample_title : string → Z → Z → option string * Z) :=
  filter_episodes (info := title) duration
    (λ info, Z.of_nat (length (chapters info))) sample_title.

(** *** [get_tvdb_info] *)

Record show_info := ShowInfo {
  show_name : string;
  season : Z;
  episode_count : Z;
  min_length : Z;
  max_length : Z
}.

(** [get_tvdb_token()]: every failure becomes a [DVDError]. *)
Definition get_tvdb_token (api : Tvdb.service) : Py.exn + string :=
  Py.try_except (Tvdb.login api)
    (λ e, inl (Py.DVDError "Failed to get TVDB token")).

(** The runtimes that are positive, and the episode numbers. *)
Definition runtimes_of (episodes : list Tvdb.episode) : list Z :=
  omap (λ e, match Tvdb.runtime e with
             | Some r => if 0 <? r then Some r else None
             | None => None
             end) episodes.
Definition episode_numbers_of (episodes : list Tvdb.episode) : list Z :=
  omap (λ e, if Tvdb.truthy (Tvdb.number e) then Tvdb.number e else None)
    episodes.

(** The token is fetched outside the [try]; inside it every exception is
    raised again as a [DVDError]. *)
Definition get_tvdb_info (api : Tvdb.service) (name : string)
    (season_num : Z) : Py.exn + show_info :=
  token ← get_tvdb_token api;
  Py.try_except
    (data ← Tvdb.search api name;
     match data with
     | [] => inl (Py.DVDError "Show not found")
     | s :: _ =>
         show_id ← Py.item (Tvdb.id s);
         episodes ← Tvdb.episodes_official api show_id (Some season_num);
         match episodes with
         | [] => inl (Py.DVDError "No episodes found for season")
         | _ =>
             let runtimes :=
               match runtimes_of episodes with
               | [] => [30]
               | rs => rs
               end in
             inr (ShowInfo (default name (Tvdb.name s)) season_num
                    (match episode_numbers_of episodes with
                     | [] => 0
                     | n :: ns => Tvdb.max_of n ns
                     end)
                    (match runtimes with
                     | [] => 0
                     | r :: rs => Tvdb.min_of r rs
                     end)
                    (match runtimes with
                     | [] => 0
                     | r :: rs => Tvdb.max_of r rs
                     end))
         end
     end)
    (λ e, match e with
          | Py.RequestException _ =>
              inl (Py.DVDError "TVDB API request failed")
          | _ => inl (Py.DVDError "TVDB API error")
          end).

(** *** [scan_disc] *)

Inductive section := Chapters | Audio | Subtitles.

Global Instance section_eq_dec : EqDecision section.
Proof. solve_decision. Defined.

(** The variables of the loop over the lines of the scan output. *)
Record scan_state := ScanState {
  titles : list (Z * title);
  current_title : option Z;
  current_section : option section
}.

(** Seconds of three two-digit groups. *)
Definition hms (h m s : string) : Z :=
  default 0 (Py.int_of_digits h) * 3600 +
  default 0 (Py.int_of_digits m) * 60 +
  default 0 (Py.int_of_digits s).

(** [titles[current_title][...] = ...] *)
Definition update_title (ts : list (Z * title)) (t : Z)
    (f : title → title) : list (Z * title) :=
  match Dict.get ts t with
  | Some info => Dict.set ts t (f info)
  | None => ts
  end.

(** The lines after the title header test, for a current title that is
    set (and not zero). *)
Definition scan_line_in_title (st : scan_state) (t : Z) (line : string)
    : scan_state :=
  if Py.startswith line "+ chapters:" then
    ScanState (titles st) (current_title st) (Some Chapters)
  else if Py.startswith line "+ audio tracks:" then
    ScanState (titles st) (current_title st) (Some Audio)
  else if Py.startswith line "+ subtitle tracks:" then
    ScanState (titles st) (current_title st) (Some Subtitles)
  else if Py.startswith line "+ duration:" then
    match Re.search [Re.Lit "duration: "; Re.TwoDigits; Re.Lit ":";
                     Re.TwoDigits; Re.Lit ":"; Re.TwoDigits] line with
    | Some [h; m; s] =>
        ScanState
          (update_title (titles st) t
             (λ info, Title (hms h m s) (chapters info) (audio info)
                        (subtitles info)))
          (current_title st) (current_section st)
    | _ => st
    end
  else if bool_decide (current_section st = Some Chapters)
          && Py.startswith line "+ " then
    match Re.search [Re.Lit "+ "; Re.Digits; Re.Lit ": duration ";
                     Re.TwoDigits; Re.Lit ":"; Re.TwoDigits; Re.Lit ":";
                     Re.TwoDigits] line with
    | Some [n; h; m; s] =>
        let chap_num := default 0 (Py.int_of_digits n) in
        let chap_duration := hms h m s in
        if 0 <? chap_duration then
          ScanState
            (update_title (titles st) t
               (λ info, Title (duration info)
                          (chapters info ++ [(chap_num, chap_duration)])
                          (audio info) (subtitles info)))
            (current_title st) (current_section st)
        else st
    | _ => st
    end
  else st.

(** The body of the loop over the lines. *)
Definition scan_line (st : scan_state) (raw : string) : scan_state :=
  let line := Py.strip raw in
  let header :=
    if Py.startswith line "+ title"
    then Re.search [Re.Lit "+ title "; Re.Digits; Re.Lit ":"] line
    else None in
  match header with
  | Some [n] =>
      let t := default 0 (Py.int_of_digits n) in
      ScanState (Dict.set (titles st) t (Title 0 [] [] [])) (Some t) None
  | _ =>
      match current_title st with
      | Some t => if t =? 0 then st else scan_line_in_title st t line
      | None => st
      end
  end.

(** The titles after the lines of one scan output, starting from the
    titles of the attempts before. *)
Definition parse_scan_output (ts : list (Z * title)) (scan_output : string)
    : list (Z * title) :=
  titles (fold_left scan_line (Py.splitlines scan_output)
            (ScanState ts None None)).

(** [valid_chapters] of a title: the chapters longer than 15 seconds. *)
Definition valid_chapters (info : title) : list (Z * Z) :=
  filter (λ c, 15 < c.2) (chapters info).

(** The filter at the end of an attempt. [duration / 60 >= 0.25] is
    [duration >= 15]: the division is correctly rounded, hence monotone,
    and 15 / 60 is 0.25 exactly. A title that passes keeps only its valid
    chapters. *)
Definition filter_valid_titles (ts : list (Z * title))
    : list (Z * title) :=
  omap (λ kv,
          match valid_chapters kv.2 with
          | [] => None
          | cs =>
              if 15 <=? duration kv.2
              then Some (kv.1, Title (duration kv.2) cs (audio kv.2)
                                 (subtitles kv.2))
              else None
          end) ts.

(** What running the scanner gives on one attempt. *)
Inductive scan_run :=
| Completed (scan_output : string)
| TimedOut
| Failed (e : Py.exn).

(** The loop over the attempts, from attempt [attempt] with [remaining]
    attempts to go. [titles] lives across the attempts. *)
Fixpoint scan_attempts (engine : nat → scan_run) (max_retries : nat)
    (attempt remaining : nat) (ts : list (Z * title))
    : Py.exn + list (Z * title) :=
  match remaining with
  | O => inr []
  | S remaining' =>
      let retry := (S attempt <? max_retries)%nat in
      match engine attempt with
      | Completed scan_output =>
          let ts := parse_scan_output ts scan_output in
          match filter_valid_titles ts with
          | [] =>
              if retry
              then scan_attempts engine max_retries (S attempt) remaining'
                     ts
              else inl (Py.DVDError "Could not scan disc after all attempts")
          | filtered_titles => inr filtered_titles
          end
      | TimedOut =>
          if retry
          then scan_attempts engine max_retries (S attempt) remaining' ts
          else inl (Py.DVDError "Scan timed out after all attempts")
      | Failed e =>
          if retry
          then scan_attempts engine max_retries (S attempt) remaining' ts
          else inl (Py.DVDError "Could not scan disc after all attempts")
      end
  end.

(** [scan_disc(device, max_retries, timeout)] *)
Definition scan_disc (engine : nat → scan_run) (max_retries : nat)
    : Py.exn + list (Z * title) :=
  scan_attempts engine max_retries 0 max_retries [].

(** What every dictionary of the scan satisfies: unique title numbers, and
    a title numbered 0 that has no duration and no chapter. *)
Definition scan_inv (ts : list (Z * title)) : Prop :=
  Dict.wf ts ∧ ∀ i, (0, i) ∈ ts → duration i = 0 ∧ chapters i = [].

(** *** [rip_title] *)

(** What the loop over the output lines of the encoder meets. The last
    case is a line whose handling raises: reading or logging it fails, or
    the progress parser does, which catches [ValueError] only while
    [line.split('%')[0].split()[-1]] raises [IndexError] on a progress
    line with nothing before the percent sign. *)
Inductive line_event :=
| ReadError
| ProgressStalled
| OtherLine
| LineRaises (e : Py.exn).

(** One run of the encoder: whether opening the log and starting the
    process succeed, the lines the process prints, whether the wait after
    them times out, its exit code, the size of the output file if it
    exists two seconds later, and whether the output file can be removed
    before the next attempt. *)
Record rip_attempt := RipAttempt {
  started : Py.exn + unit;
  events : list line_event;
  wait_timed_out : bool;
  returncode : Z;
  output_size : option Z;
  removed : Py.exn + unit
}.

(** The loop over the lines: a read error always raises, a stall only
    when an attempt is left. *)
Fixpoint read_lines (can_retry : bool) (es : list line_event)
    : Py.exn + unit :=
  match es with
  | [] => inr ()
  | ReadError :: _ => inl (Py.DVDError "DVD read error")
  | ProgressStalled :: es' =>
      if can_retry then inl (Py.DVDError "Progress stalled (will retry)")
      else read_lines can_retry es'
  | OtherLine :: es' => read_lines can_retry es'
  | LineRaises e :: _ => inl e
  end.

(** The body of the [try] of one attempt. *)
Definition run_attempt (can_retry : bool) (a : rip_attempt)
    : Py.exn + bool :=
  _ ← started a;
  _ ← read_lines can_retry (events a);
  if wait_timed_out a then inl (Py.DVDError "Rip timed out")
  else if returncode a =? 0 then
    match output_size a with
    | Some file_size =>
        if 1000000 <? file_size then inr true
        else inl (Py.DVDError "Output file missing or too small")
    | None => inl (Py.DVDError "Output file missing or too small")
    end
  else inl (Py.DVDError "HandBrake failed").

Definition max_retries : nat := 3.

(** The loop over the attempts: only a [DVDError] is caught; while an
    attempt is left the output file is removed and the loop goes on,
    otherwise the error is raised again. *)
Fixpoint rip_attempts (engine : nat → rip_attempt)
    (attempt remaining : nat) : Py.exn + bool :=
  match remaining with
  | O => inr false
  | S remaining' =>
      let can_retry := (S attempt <? max_retries)%nat in
      match run_attempt can_retry (engine attempt) with
      | inr b => inr b
      | inl (Py.DVDError msg) =>
          if can_retry then
            _ ← removed (engine attempt);
            rip_attempts engine (S attempt) remaining'
          else inl (Py.DVDError msg)
      | inl e => inl e
      end
  end.

(** [rip_title(device, title_num, output_file)]: [prepared] is the
    creation of the output and the log directory, [gpu_probe] the run of
    [nvidia-smi] that chooses the encoder; only a [SubprocessError] of the
    probe is caught. *)
Definition rip_title (prepared gpu_probe : Py.exn + unit)
    (engine : nat → rip_attempt) : Py.exn + bool :=
  _ ← prepared;
  match gpu_probe with
  | inl Py.SubprocessError | inl Py.TimeoutExpired | inr _ =>
      rip_attempts engine 0 max_retries
  | inl e => inl e
  end.

(** An attempt that passes every check of [rip_title]: it starts, no line
    raises (a stall counts only while an attempt is left), no timeout,
    exit code 0, and an output file of more than a million bytes. *)
Definition attempt_ok (can_retry : bool) (a : rip_attempt) : Prop :=
  started a = inr () ∧
  read_lines can_retry (events a) = inr () ∧
  wait_timed_out a = false ∧ returncode a = 0 ∧
  ∃ file_size, output_size a = Some file_size ∧ 1000000 < file_size.

(** An attempt after which the loop goes on: it fails with a [DVDError]
    while an attempt is left, and the output file is removed. *)
Definition attempt_retried (a : rip_attempt) : Prop :=
  (∃ msg, run_attempt true a = inl (Py.DVDError msg)) ∧ removed a = inr ().

(** The failures of the GPU probe that [rip_title] catches. *)
Definition probe_caught (gpu_probe : Py.exn + unit) : Prop :=
  match gpu_probe with
  | inr _ | inl Py.SubprocessError | inl Py.TimeoutExpired => True
  | inl _ => False
  end.

(** [verify_ripped_file(file_path)]: only the exit code of the decoder. No
    function of the script calls it. *)
Definition verify_ripped_file (ffmpeg : Py.exn + Z) : bool :=
  match ffmpeg with
  | inr rc => rc =? 0
  | inl _ => false
  end.

(** *** [verify_handbrake_can_read] and [ensure_device_ready] *)

(** One scan attempt; [bool(titles)], and [False] for every exception. *)
Definition verify_handbrake_can_read (engine : nat → scan_run) : bool :=
  match scan_disc engine 1 with
  | inr (_ :: _) => true
  | inr [] => false
  | inl _ => false
  end.

(** What one round of [ensure_device_ready] meets: the access check, the
    scanner of the read test, whether the reset of the drive raises, and
    the access check after the reset. *)
Record ready_probe := ReadyProbe {
  access_before : bool;
  read_test : nat → scan_run;
  reset : Py.exn + unit;
  access_after : bool
}.

(** The loop over the attempts, from attempt [attempt] with [remaining]
    attempts to go. *)
Fixpoint ensure_device_ready_from (probes : nat → ready_probe)
    (attempt remaining : nat) : bool :=
  match remaining with
  | O => false
  | S remaining' =>
      let p := probes attempt in
      if access_before p && verify_handbrake_can_read (read_test p)
      then true
      else
        match reset p with
        | inr _ =>
            if access_after p then true
            else ensure_device_ready_from probes (S attempt) remaining'
        | inl _ => ensure_device_ready_from probes (S attempt) remaining'
        end
  end.

(** [ensure_device_ready(device, max_retries)] *)
Definition ensure_device_ready (probes : nat → ready_probe)
    (max_retries : nat) : bool :=
  ensure_device_ready_from probes 0 max_retries.

(** *** [get_show_info_from_path] and the prompts that follow it *)

(** [parent_exists] is [path.parent.exists()], which may raise; every
    exception gives [(None, None)]. A match of the season pattern has
    digits only, so [int] cannot fail on it. *)
Definition get_show_info_from_path (parent_exists : Py.exn + bool)
    (path : Py.path) : option string * option Z :=
  match parent_exists with
  | inl _ => (None, None)
  | inr parent_exists =>
      let season_num :=
        Re.search_season ["season"] (Py.lower (Py.name path))
          ≫= Py.int_of_digits in
      let show_name :=
        if parent_exists
        then Some (Py.strip (Re.dots_to_spaces
                               (Re.sub_year_to_end
                                  (Py.name (Py.parent path)))))
        else None in
      (show_name, season_num)
  end.

(** The first lines of [process_tv_show]: what the path does not give is
    asked for; [not show_name] and [not season_num] hold for [None], for
    the empty name and for season 0. *)
Definition show_and_season (info : option string * option Z)
    (asked_name asked_season : string) : Py.exn + (string * Z) :=
  let show_name :=
    match info.1 with
    | Some n => if String.eqb n EmptyString then asked_name else n
    | None => asked_name
    end in
  season_num ←
    match info.2 with
    | Some n => if n =? 0 then Py.int asked_season else inr n
    | None => Py.int asked_season
    end;
  inr (show_name, season_num).

(** *** [filter_compilations] *)

(** The chapters of a title whose duration lies in one of the ranges. *)
Definition episode_chapters (episode_ranges : list (string * (Q * Q)))
    (info : title) : list (Z * Z) :=
  filter (λ c, is_valid episode_ranges c.2 = true) (chapters info).

(** The first loop: the titles of more than 90 minutes with at least one
    such chapter, which become their chapters. [duration / 60 > 90] is
    [duration > 5400]: the division is correctly rounded, hence monotone,
    and 5400 / 60 is 90 exactly. Durations are those a float can hold
    (below [60 * (2^1024 - 2^970)] seconds, see
    [true_division_overflows]): the minutes computed for the log are not
    modelled. *)
Definition compilation_titles (titles : list (Z * title))
    (episode_ranges : list (string * (Q * Q))) : list (Z * title) :=
  omap (λ kv,
          if 5400 <? duration kv.2 then
            match episode_chapters episode_ranges kv.2 with
            | [] => None
            | cs => Some (kv.1, Title (duration kv.2) cs (audio kv.2)
                                  (subtitles kv.2))
            end
          else None) titles.

Section FilterCompilations.
(** [sample_title(device, num, duration, chapter=chapter_num)]: the sample
    file (or [None]) and its size in bytes ([0] when sampling failed). The
    function catches the failures of the engine; making the temporary
    directory and removing a sample file are taken to succeed. *)
Variable sample_chapter : Z → Z → Z → option string * Z.

(** The loop over the chapters of a chosen title: [samples] (sample size
    to title and chapter) and [unique_chapters]. *)
Definition chapter_step (num : Z)
    (st : gmap Z (Z * Z) * list (Z * Z)) (c : Z * Z)
    : gmap Z (Z * Z) * list (Z * Z) :=
  let '(sample_file, sample_size) := sample_chapter num c.2 c.1 in
  if 0 <? sample_size then
    match st.1 !! sample_size with
    | None => (<[sample_size := (num, c.1)]> st.1, st.2 ++ [c])
    | Some original => st
    end
  else st.

Definition unique_chapters (num : Z) (title_info : title) : list (Z * Z) :=
  (fold_left (chapter_step num) (chapters title_info) (∅, [])).2.

(** One title number of the answer: a title that is not a compilation
    title is skipped with a warning, a title without unique chapter is
    left out. *)
Definition choose_title (compilation : list (Z * title))
    (chosen_titles : list (Z * title)) (num : Z) : list (Z * title) :=
  match Dict.get compilation num with
  | Some title_info =>
      match unique_chapters num title_info with
      | [] => chosen_titles
      | cs =>
          Dict.set chosen_titles num
            (Title (duration title_info) cs (audio title_info)
               (subtitles title_info))
      end
  | None => chosen_titles
  end.

(** One part of the answer: a number, or a range [start-end]. *)
Definition choose_part (compilation : list (Z * title))
    (chosen_titles : list (Z * title)) (part : string)
    : Py.exn + list (Z * title) :=
  if Py.contains part "-" then
    '(start, stop) ← Py.int_pair "-" part;
    inr (fold_left (choose_title compilation) (Py.range start (stop + 1))
           chosen_titles)
  else
    num ← Py.int part;
    inr (choose_title compilation chosen_titles num).

Fixpoint choose_parts (compilation : list (Z * title))
    (chosen_titles : list (Z * title)) (parts : list string)
    : Py.exn + list (Z * title) :=
  match parts with
  | [] => inr chosen_titles
  | part :: parts' =>
      chosen_titles ← choose_part compilation chosen_titles part;
      choose_parts compilation chosen_titles parts'
  end.

(** The body of the [try] for one answer. *)
Definition choose (compilation : list (Z * title)) (choice : string)
    : Py.exn + list (Z * title) :=
  choose_parts compilation [] (Py.split "," (Py.remove_char " " choice)).

(** The prompt loop over the answers of the user: an answer with a
    [ValueError] or without a chosen title is asked again. [None]: every
    answer so far was turned down and the prompt is shown again. *)
Fixpoint ask_titles (compilation : list (Z * title))
    (answers : list string) : option (Py.exn + list (Z * title)) :=
  match answers with
  | [] => None
  | choice :: answers' =>
      match choose compilation choice with
      | inr [] => ask_titles compilation answers'
      | inr chosen_titles => Some (inr chosen_titles)
      | inl Py.ValueError => ask_titles compilation answers'
      | inl e => Some (inl e)
      end
  end.

(** [filter_compilations(titles, device, episode_ranges)]: without a
    compilation title nothing is asked and the result is empty. *)
Definition filter_compilations (titles : list (Z * title))
    (episode_ranges : list (string * (Q * Q))) (answers : list string)
    : option (Py.exn + list (Z * title)) :=
  match compilation_titles titles episode_ranges with
  | [] => Some (inr [])
  | compilation => ask_titles compilation answers
  end.

(** *** Vocabulary for the properties of the compilation filter *)

(** The fingerprint of a chapter of title [num]: the size of its sample. *)
Definition chapter_fingerprint (num : Z) (c : Z * Z) : Z :=
  (sample_chapter num c.2 c.1).2.

(** What the sampling loop of a chosen title has built after the chapters
    [l]: the chapters kept are a sublist with distinct positive
    fingerprints, [samples] holds exactly their fingerprints, every
    positive fingerprint met so far is among them, and the first chapter
    of each fingerprint is kept. *)
Definition chapters_inv (num : Z) (l : list (Z * Z))
    (st : gmap Z (Z * Z) * list (Z * Z)) : Prop :=
  st.2 `sublist_of` l ∧
  NoDup (chapter_fingerprint num <$> st.2) ∧
  (∀ c, c ∈ st.2 → 0 < chapter_fingerprint num c) ∧
  (∀ s, is_Some (st.1 !! s) ↔ s ∈ chapter_fingerprint num <$> st.2) ∧
  (∀ c, c ∈ l → 0 < chapter_fingerprint num c →
        chapter_fingerprint num c ∈ chapter_fingerprint num <$> st.2) ∧
  (∀ l1 c l2, l = l1 ++ c :: l2 → 0 < chapter_fingerprint num c →
     (∀ c', c' ∈ l1 →
        chapter_fingerprint num c' ≠ chapter_fingerprint num c) →
     c ∈ st.2).

(** Every chosen title is a compilation title with its unique chapters. *)
Definition chosen_inv (compilation chosen : list (Z * title)) : Prop :=
  Dict.wf chosen ∧
  ∀ k i, (k, i) ∈ chosen →
    ∃ i0, (k, i0) ∈ compilation ∧ unique_chapters k i0 ≠ [] ∧
      i = Title (duration i0) (unique_chapters k i0) (audio i0)
            (subtitles i0).
End FilterCompilations.
End Windows.

(** ** Example inputs *)

Module Examples.
Definition show : Py.path := Py.Path "/" ["media"; "Show"].
Definition season1 : Py.path := Py.joinpath show "Season 1".
Definition season2 : Py.path := Py.joinpath show "Season 2".

(** Season 1 holds episodes 1, 2 and 4. *)
(** A file whose name only contains the name of an episode, and a file
    named in lower case. *)
Definition fs_bonus : Py.filesystem :=
  [(season1, ["S01E-bonus-S01E01.mkv"])]%string.
Definition fs_lower_case : Py.filesystem :=
  [(season1, ["s01e01.mkv"])]%string.

Definition fs_gap : Py.filesystem :=
  [(show, ["Season 1"]);
   (season1, ["S01E01.mkv"; "S01E02.mkv"; "S01E04.mkv"])]%string.

(** Season 1 holds episodes 1 and 2; there is no directory for season 2. *)
Definition fs_full : Py.filesystem :=
  [(show, ["Season 1"]);
   (season1, ["S01E01.mkv"; "S01E02.mkv"])]%string.

(** Seasons 1 and 2 both hold episodes 1 and 2. *)
Definition fs_both_full : Py.filesystem :=
  [(show, ["Season 1"; "Season 2"]);
   (season1, ["S01E01.mkv"; "S01E02.mkv"]);
   (season2, ["S02E01.mkv"; "S02E02.mkv"])]%string.

(** A Blu-ray title with a number, a duration and a chapter count. *)
Definition title (n d c : Z) : Z * Bluray.title :=
  (n, Bluray.Title n d 0 c "" "").

(** The catalog of the specification: three titles of distinct durations. *)
Definition distinct_titles : list (Z * Bluray.title) :=
  [title 1 660 4; title 2 1300 8; title 3 630 4].

(** Two titles of 22 minutes, the second with more chapters. *)
Definition twin_titles : list (Z * Bluray.title) :=
  [title 1 1320 3; title 2 1320 7].

(** Three titles of 22 minutes with five, three and one chapters; the
    samples of the first and the third have the same size. *)
Definition triple_titles : list (Z * Bluray.title) :=
  [title 1 1320 5; title 2 1320 3; title 3 1320 1].
Definition triple_samples : string → Z → Z → option string * Z :=
  λ _ title_num _,
    (Some "sample.mkv"%string, if title_num =? 2 then 5000 else 4096).

(** The band of 10 to 24 minutes. *)
Definition band : list (string * (Q * Q)) :=
  [("episode"%string, (600 # 1, 1440 # 1))%Q].

(** A sampler whose samples all have 4096 bytes, and one whose sample
    sizes differ from title to title. *)
Definition same_samples : string → Z → Z → option string * Z :=
  λ _ _ _, (Some "sample.mkv"%string, 4096).
Definition distinct_samples : string → Z → Z → option string * Z :=
  λ _ title_num _, (Some "sample.mkv"%string, 4096 + title_num).

(** A metadata service that cannot be reached, and one that knows the show
    but has no runtime for its episodes. *)
Definition tvdb_down : Tvdb.service :=
  Tvdb.Service (inr "token"%string)
    (λ _, inl (Py.RequestException "connection refused"))
    (λ _ _, inl (Py.RequestException "connection refused")).
Definition tvdb_no_runtime : Tvdb.service :=
  Tvdb.Service (inr "token"%string)
    (λ _, inr [Tvdb.Show (Some 42) (Some "Show"%string)])
    (λ _ _, inr [Tvdb.Episode (Some 1) (Some 1) None;
                 Tvdb.Episode (Some 1) (Some 2) None]).

Definition newline : string := String "010" EmptyString.

(** A scan output of the DVD engine: one title of one minute with one
    chapter of one minute. *)
Definition short_title_scan : string :=
  "+ title 1:" +:+ newline +:+
  "  + duration: 00:01:00" +:+ newline +:+
  "  + chapters:" +:+ newline +:+
  "    + 1: duration 00:01:00" +:+ newline.

(** A robot-mode output of the Blu-ray engine: one title of ninety
    seconds. *)
Definition short_title_info : string :=
  "TCOUNT:1" +:+ newline +:+ "TINFO:0,9,0,0:01:30" +:+ newline.

(** A run of the Blu-ray engine that exits with an error and leaves an
    empty file behind. *)
Definition failed_run : Bluray.rip_run :=
  Bluray.RipRun true 1 [Bluray.FileStat "title_t00.mkv" 200 0] true.

(** Four margin-filter inputs: number and duration. *)
Definition durations : list (Z * Z) :=
  [(1, 1320); (2, 1500); (3, 4320); (4, 4321)].

(** A DVD with a compilation title of 100 minutes whose chapters 1, 2 and
    4 have episode length, a title of exactly 90 minutes and a long title
    without a chapter of episode length. *)
Definition compilation_disc : list (Z * Windows.title) :=
  [(1, Windows.Title 6000 [(1, 1300); (2, 1300); (3, 20); (4, 1400)] [] []);
   (2, Windows.Title 5400 [(1, 1300)] [] []);
   (3, Windows.Title 7000 [(1, 10)] [] [])].

(** A chapter sampler whose sample size is the duration of the chapter. *)
Definition chapter_samples : Z → Z → Z → option string * Z :=
  λ _ duration _, (Some "sample.mkv"%string, duration).

(** A robot-mode output of the Blu-ray engine: a title of thirty minutes
    and a title of ninety seconds. *)
Definition two_title_info : string :=
  "TCOUNT:2" +:+ newline +:+
  "TINFO:0,9,0,0:30:00" +:+ newline +:+
  "TINFO:1,9,0,0:01:30" +:+ newline.

(** A library with the folders of a show in three spellings, another
    show and a file. *)
Definition library : Py.path := Py.Path "/" ["media"].
Definition fs_library : Py.filesystem :=
  [(library, ["Show"; "show (2005)"; "SHOW"; "Other"; "notes.txt"]);
   (Py.joinpath library "Show", []);
   (Py.joinpath library "show (2005)", []);
   (Py.joinpath library "SHOW", []);
   (Py.joinpath library "Other", [])]%string.
End Examples.

(** * Properties of the duration classifier *)

Section DurationClassifierFacts.
Context {info : Type}.
Variable info_duration : info → Z.
Variable chapter_count : info → Z.
Variable sample_title : string → Z → Z → option string * Z.

Local Abbreviation groups_t := (list (Z * list (Z * info))).

Lemma filter_none {A} (P : A → Prop) `{∀ x, Decision (P x)} (l : list A) :
  (∀ x, x ∈ l → ¬ P x) → filter P l = [].
Proof.
  induction l as [|a l IH]; intros Hall; [done|].
  rewrite filter_cons_False by (apply Hall; left).
  apply IH. intros x Hx. apply Hall. by right.
Qed.

Lemma group_append_keys (groups : groups_t) d x :
  (group_append groups d x).*1 =
    if decide (d ∈ groups.*1) then groups.*1 else groups.*1 ++ [d].
Proof.
  induction groups as [|[d' g] rest IH]; csimpl; [done|].
  destruct (Z.eqb_spec d' d) as [->|Hne]; csimpl.
  - rewrite decide_True; [done|left].
  - rewrite IH. destruct (decide (d ∈ rest.*1)) as [Hin|Hnin].
    + rewrite decide_True; [done|by right].
    + rewrite decide_False; [done|].
      intros [?|?]%elem_of_cons; congruence.
Qed.

Lemma elem_of_group_append (groups : groups_t) d x d' g' :
  NoDup groups.*1 →
  (d', g') ∈ (group_append groups d x) →
  (d' ≠ d ∧ (d', g') ∈ groups) ∨
  (d' = d ∧ ((∃ g, (d, g) ∈ groups ∧ g' = g ++ [x]) ∨
             ((d ∉ groups.*1) ∧ g' = [x]))).
Proof.
  induction groups as [|[d0 g0] rest IH]; csimpl; intros Hnd.
  - intros H. apply list_elem_of_singleton in H. inversion H; subst.
    right. split; [done|]. right. split; [apply not_elem_of_nil|done].
  - apply NoDup_cons in Hnd as [Hd0 Hnd].
    destruct (Z.eqb_spec d0 d) as [->|Hne].
    + intros [H|H]%elem_of_cons.
      * inversion H; subst. right. split; [done|]. left.
        exists g0. split; [left|done].
      * left. split; [|by right].
        intros ->. apply Hd0. apply list_elem_of_fmap. by exists (d, g').
    + intros [H|H]%elem_of_cons.
      * inversion H; subst. left. split; [done|left].
      * destruct (IH Hnd H) as [[? ?]|[-> [(g & ? & ->)|[? ->]]]].
        -- left. split; [done|by right].
        -- right. split; [done|]. left. exists g. split; [by right|done].
        -- right. split; [done|]. right. split; [|done].
           rewrite not_elem_of_cons. done.
Qed.

Lemma duration_groups_snoc titles ranges x :
  duration_groups info_duration (titles ++ [x]) ranges =
  first_pass_step info_duration ranges
    (duration_groups info_duration titles ranges) x.
Proof. unfold duration_groups. by rewrite fold_left_app. Qed.

Lemma duration_groups_inv titles ranges :
  groups_inv info_duration ranges titles
    (duration_groups info_duration titles ranges).
Proof.
  induction titles as [|x titles IH] using rev_ind.
  - split; [constructor|]. split.
    + intros d g H. by apply elem_of_nil in H.
    + intros x H. by apply elem_of_nil in H.
  - rewrite duration_groups_snoc. unfold first_pass_step.
    destruct IH as (Hnd & Hgrp & Hall).
    destruct (is_valid ranges (info_duration x.2)) eqn:Hv.
    + split; [|split].
      * rewrite group_append_keys. case_decide; [done|].
        apply NoDup_app. split; [done|]. split; [|apply NoDup_singleton].
        intros y Hy ->%list_elem_of_singleton. done.
      * intros d g Hin.
        apply elem_of_group_append in Hin
          as [[Hne Hin]|[-> [(g0 & Hin & ->)|[Hnin ->]]]]; [| | |done].
        -- destruct (Hgrp _ _ Hin) as [Hne' ->]. split; [done|].
           rewrite filter_app, filter_cons_False, filter_nil, app_nil_r;
             [done|]. intros [_ ?]. done.
        -- destruct (Hgrp _ _ Hin) as [Hne' ->]. split.
           ++ intros [? ?]%app_eq_nil. done.
           ++ rewrite filter_app, filter_cons_True, filter_nil; done.
        -- split; [done|].
           rewrite filter_app, filter_cons_True, filter_nil by done.
           replace (filter (in_group info_duration ranges
                              (info_duration x.2)) titles)
             with (@nil (Z * info)); [done|].
           symmetry. apply filter_none.
           intros y Hy [Hvy Hdy]. apply Hnin. rewrite <- Hdy. by apply Hall.
      * intros y [Hy|Hy%list_elem_of_singleton]%elem_of_app Hvy;
          rewrite group_append_keys; case_decide; subst.
        -- by apply Hall.
        -- apply elem_of_app. left. by apply Hall.
        -- done.
        -- apply elem_of_app. right. left.
    + split; [done|]. split.
      * intros d g Hin. destruct (Hgrp _ _ Hin) as [Hne' ->]. split; [done|].
        rewrite filter_app, filter_cons_False, filter_nil, app_nil_r;
          [done|]. intros [? _]. congruence.
      * intros y [Hy|Hy%list_elem_of_singleton]%elem_of_app Hvy.
        -- by apply Hall.
        -- subst. congruence.
Qed.

Lemma NoDup_fst_agree {A B} (l : list (A * B)) k v v' :
  NoDup (l.*1) → (k, v) ∈ l → (k, v') ∈ l → v = v'.
Proof.
  induction l as [|[k0 v0] l IH]; csimpl; intros Hnd H1 H2.
  - by apply elem_of_nil in H1.
  - apply NoDup_cons in Hnd as [Hk0 Hnd].
    apply elem_of_cons in H1 as [H1|H1], H2 as [H2|H2].
    + congruence.
    + inversion H1; subst. exfalso. apply Hk0.
      apply list_elem_of_fmap. by exists (k0, v').
    + inversion H2; subst. exfalso. apply Hk0.
      apply list_elem_of_fmap. by exists (k0, v).
    + by apply IH.
Qed.

(** *** The two sorts *)

Lemma insert_group_perm (x : Z * list (Z * info)) l :
  insert_group x l ≡ₚ x :: l.
Proof.
  induction l as [|y l IH]; simpl; [done|].
  destruct (x.1 <=? y.1); [done|]. rewrite IH. apply perm_swap.
Qed.

Lemma sorted_groups_perm (groups : groups_t) :
  sorted_groups groups ≡ₚ groups.
Proof.
  induction groups as [|x l IH]; simpl; [done|].
  by rewrite insert_group_perm, IH.
Qed.

Lemma insert_title_perm x l : insert_title chapter_count x l ≡ₚ x :: l.
Proof.
  induction l as [|y l IH]; simpl; [done|].
  destruct (chapter_count y.2 <=? chapter_count x.2); [done|].
  rewrite IH. apply perm_swap.
Qed.

Lemma sorted_by_chapters_perm group :
  sorted_by_chapters chapter_count group ≡ₚ group.
Proof.
  induction group as [|x l IH]; simpl; [done|].
  by rewrite insert_title_perm, IH.
Qed.

Lemma insert_title_sorted x l :
  StronglySorted (chapters_ge chapter_count) l →
  StronglySorted (chapters_ge chapter_count) (insert_title chapter_count x l).
Proof.
  induction 1 as [|y l Hs IH Hall]; simpl.
  - repeat constructor.
  - destruct (Z.leb_spec (chapter_count y.2) (chapter_count x.2)).
    + constructor; [by constructor|]. constructor; [done|].
      eapply Forall_impl; [exact Hall|]. unfold chapters_ge. intros; lia.
    + constructor; [done|]. rewrite insert_title_perm.
      constructor; [|done]. unfold chapters_ge. lia.
Qed.

Lemma sorted_by_chapters_sorted group :
  StronglySorted (chapters_ge chapter_count)
    (sorted_by_chapters chapter_count group).
Proof.
  induction group as [|x l IH]; simpl; [constructor|].
  by apply insert_title_sorted.
Qed.

(** The sort is stable: titles with the same chapter count keep the order
    they have in the group. *)
Lemma insert_title_stable c x l :
  filter (λ y, chapter_count y.2 = c) (insert_title chapter_count x l) =
  filter (λ y, chapter_count y.2 = c) (x :: l).
Proof.
  induction l as [|y l IH]; simpl; [done|].
  destruct (Z.leb_spec (chapter_count y.2) (chapter_count x.2)); [done|].
  rewrite (filter_cons _ y), IH, !filter_cons.
  repeat case_decide; try done; lia.
Qed.

Lemma sorted_by_chapters_stable c group :
  filter (λ y, chapter_count y.2 = c)
    (sorted_by_chapters chapter_count group) =
  filter (λ y, chapter_count y.2 = c) group.
Proof.
  induction group as [|x l IH]; simpl; [done|].
  by rewrite insert_title_stable, !filter_cons, IH.
Qed.

(** *** The sampling loop of a group *)

Lemma first_with_fingerprint_snoc device d l (x z : Z * info) :
  first_with_fingerprint sample_title device d (l ++ [x]) z ↔
  first_with_fingerprint sample_title device d l z ∨
  (z = x ∧ 0 < fingerprint sample_title device d x ∧
   ∀ y, y ∈ l →
        fingerprint sample_title device d y
        ≠ fingerprint sample_title device d x).
Proof.
  split.
  - intros (l1 & l2 & Heq & Hpos & Hfirst).
    destruct l2 as [|w l2 _] using rev_ind.
    + apply app_inj_tail in Heq as [-> ->]. by right.
    + rewrite app_comm_cons, app_assoc in Heq.
      apply app_inj_tail in Heq as [-> ->]. left. by exists l1, l2.
  - intros [(l1 & l2 & -> & Hpos & Hfirst)|(-> & Hpos & Hfirst)].
    + exists l1, (l2 ++ [x]). by rewrite <- app_assoc.
    + by exists l, [].
Qed.

Lemma sample_step_spec device d st (x : Z * info) :
  let s := fingerprint sample_title device d x in
  sample_step sample_title device d st x =
    if decide (0 < s ∧ samples st !! s = None)
    then Sampling (<[s := x.1]> (samples st)) ({[x.1]} ∪ unique_titles st)
           (sampled st ++ [x.1])
    else Sampling (samples st) (unique_titles st) (sampled st ++ [x.1]).
Proof.
  unfold sample_step, fingerprint.
  destruct (sample_title device x.1 d) as [file size]; simpl.
  destruct (Z.ltb_spec 0 size).
  - destruct (samples st !! size) eqn:Hs.
    + rewrite decide_False; [done|]. intros [_ ?]. done.
    + by rewrite decide_True.
  - rewrite decide_False; [done|]. intros [? _]. lia.
Qed.

Lemma sample_loop_inv device d (l : list (Z * info)) :
  let st := fold_left (sample_step sample_title device d) l
              (Sampling ∅ ∅ []) in
  sampled st = l.*1 ∧
  (∀ s, samples st !! s = None ↔
        ¬ (0 < s ∧
           ∃ y, y ∈ l ∧ fingerprint sample_title device d y = s)) ∧
  (∀ k, k ∈ unique_titles st ↔
        ∃ x, x.1 = k ∧ first_with_fingerprint sample_title device d l x).
Proof.
  induction l as [|x l IH] using rev_ind; simpl.
  - split; [done|]. split.
    + intros s. rewrite lookup_empty. split; [|done].
      intros _ (_ & y & Hy & _). by apply elem_of_nil in Hy.
    + intros k. split; [by intros ?%not_elem_of_empty|].
      intros (x & _ & l1 & l2 & Heq & _). by destruct l1.
  - rewrite fold_left_app. simpl in *.
    destruct IH as (Hcalls & Hsamples & Huniq).
    rewrite sample_step_spec.
    set (st := fold_left _ l _) in *.
    set (s := fingerprint sample_title device d x).
    case_decide as Hnew; simpl.
    + destruct Hnew as [Hpos Hnone].
      split; [by rewrite fmap_app, Hcalls|]. split.
      * intros s'. rewrite lookup_insert_None, Hsamples. split.
        -- intros [Hn Hne] (Hpos' & y & Hy & Hfp).
           apply elem_of_app in Hy as [Hy|Hy%list_elem_of_singleton].
           ++ apply Hn. eauto.
           ++ subst y. done.
        -- intros Hn. split.
           ++ intros (Hpos' & y & Hy & Hfp). apply Hn. split; [done|].
              exists y. split; [|done]. apply elem_of_app. by left.
           ++ intros <-. apply Hn. split; [done|]. exists x.
              split; [|done]. apply elem_of_app. right. left.
      * intros k. rewrite elem_of_union, elem_of_singleton, Huniq.
        setoid_rewrite first_with_fingerprint_snoc. split.
        -- intros [->|(z & <- & Hz)].
           ++ exists x. split; [done|]. right. split; [done|].
              split; [done|]. intros y Hy Hfp.
              apply Hsamples in Hnone. apply Hnone. eauto.
           ++ exists z. split; [done|]. by left.
        -- intros (z & <- & [Hz|(-> & _)]); [right|by left].
           by exists z.
    + split; [by rewrite fmap_app, Hcalls|]. split.
      * intros s'. rewrite Hsamples. split.
        -- intros Hn (Hpos' & y & Hy & Hfp).
           apply elem_of_app in Hy as [Hy|Hy%list_elem_of_singleton].
           ++ apply Hn. eauto.
           ++ subst y. apply Hnew. split; [by rewrite <- Hfp in Hpos'|].
              apply Hsamples. by rewrite <- Hfp in Hn.
        -- intros Hn (Hpos' & y & Hy & Hfp). apply Hn. split; [done|].
           exists y. split; [|done]. apply elem_of_app. by left.
      * intros k. rewrite Huniq.
        setoid_rewrite first_with_fingerprint_snoc. split.
        -- intros (z & <- & Hz). exists z. split; [done|]. by left.
        -- intros (z & <- & [Hz|(-> & Hpos & Hfirst)]); [by exists z|].
           exfalso. apply Hnew. split; [done|]. apply Hsamples.
           intros (_ & y & Hy & Hfp). by apply (Hfirst y).
Qed.

Lemma sample_group_sampled device d group :
  sampled (sample_group chapter_count sample_title device d group) =
  (sorted_by_chapters chapter_count group).*1.
Proof. apply sample_loop_inv. Qed.

Lemma sample_group_unique device d group k :
  k ∈ unique_titles (sample_group chapter_count sample_title device d group)
  ↔ ∃ x, x.1 = k ∧
      first_with_fingerprint sample_title device d
        (sorted_by_chapters chapter_count group) x.
Proof. apply sample_loop_inv. Qed.

(** *** The second pass *)

Lemma find_key_elem (group : list (Z * info)) k y :
  find (λ y, y.1 =? k) group = Some y → y ∈ group ∧ y.1 = k.
Proof.
  intros [Hin Hk]%find_some. split; [by apply list_elem_of_In|lia].
Qed.

Lemma find_key_NoDup (group : list (Z * info)) k i :
  NoDup (group.*1) → (k, i) ∈ group →
  find (λ y, y.1 =? k) group = Some (k, i).
Proof.
  intros Hnd Hin. destruct (find _ group) as [[k' i']|] eqn:Hf.
  - apply find_key_elem in Hf as [Hin' Hk]. simpl in Hk. subst k'.
    by rewrite (NoDup_fst_agree _ _ _ _ Hnd Hin Hin').
  - apply list_elem_of_In in Hin.
    pose proof (find_none _ _ Hf _ Hin) as Hk. simpl in Hk. lia.
Qed.

Lemma foldr_add_unique_lookup group (m : gmap Z info) (l : list Z) k :
  foldr (add_unique group) m l !! k =
    match find (λ y, y.1 =? k) group with
    | Some y => if decide (k ∈ l) then Some y.2 else m !! k
    | None => m !! k
    end.
Proof.
  induction l as [|n l IH]; simpl.
  - by destruct (find _ group).
  - unfold add_unique at 1. destruct (decide (n = k)) as [->|Hne].
    + destruct (find _ group) as [y|] eqn:Hf.
      * rewrite lookup_insert_eq, decide_True; [done|left].
      * done.
    + assert (foldr (add_unique group) m l !! k =
              match find (λ y, y.1 =? n) group with
              | Some y => <[n:=y.2]> (foldr (add_unique group) m l)
              | None => foldr (add_unique group) m l
              end !! k) as <-.
      { destruct (find (λ y, y.1 =? n) group); [|done].
        by rewrite lookup_insert_ne. }
      rewrite IH. destruct (find _ group); [|done].
      destruct (decide (k ∈ l)).
      * rewrite decide_True; [done|by right].
      * rewrite decide_False; [done|].
        intros [?|?]%elem_of_cons; congruence.
Qed.

Lemma accepted_in_group device dg k :
  accepted chapter_count sample_title device dg k → k ∈ dg.2.*1.
Proof.
  unfold accepted. destruct (Nat.leb 2 (length dg.2)).
  - intros (x & <- & l1 & l2 & Heq & _)%sample_group_unique.
    apply list_elem_of_fmap. exists x. split; [done|].
    rewrite <- (sorted_by_chapters_perm dg.2), Heq.
    apply elem_of_app. right. left.
  - destruct dg.2 as [|y g]; intros Hhd; simplify_eq/=. left.
Qed.

Lemma accepted_multi device dg k :
  Nat.leb 2 (length dg.2) = true →
  accepted chapter_count sample_title device dg k ↔
  k ∈ unique_titles
        (sample_group chapter_count sample_title device dg.1 dg.2).
Proof. unfold accepted. by intros ->. Qed.

Lemma accepted_single device dg k :
  Nat.leb 2 (length dg.2) = false →
  accepted chapter_count sample_title device dg k ↔
  fst <$> head dg.2 = Some k.
Proof. unfold accepted. by intros ->. Qed.

Lemma second_pass_step_lookup device acc dg k :
  (second_pass_step chapter_count sample_title device acc dg).1 !! k =
    match find (λ y, y.1 =? k) dg.2 with
    | Some y =>
        if decide (accepted chapter_count sample_title device dg k)
        then Some y.2 else acc.1 !! k
    | None => acc.1 !! k
    end.
Proof.
  unfold second_pass_step.
  destruct (Nat.leb 2 (length dg.2)) eqn:Hlen; simpl.
  - unfold set_fold; simpl. rewrite foldr_add_unique_lookup.
    destruct (find _ dg.2); [|done].
    destruct (decide (k ∈ elements _)) as [Hin|Hnin].
    + rewrite decide_True; [done|].
      by apply accepted_multi, elem_of_elements.
    + rewrite decide_False; [done|].
      by rewrite accepted_multi, <- elem_of_elements.
  - pose proof (accepted_single device dg k Hlen) as Hacc.
    destruct dg.2 as [|x g]; simpl in *; [done|].
    destruct (Z.eqb_spec x.1 k) as [<-|Hne].
    + rewrite lookup_insert_eq, decide_True; [done|by apply Hacc].
    + rewrite lookup_insert_ne by done.
      destruct (find _ g); [|done].
      rewrite decide_False; [done|]. rewrite Hacc. intros [= ?]. done.
Qed.

Lemma second_pass_step_samples device acc dg :
  (second_pass_step chapter_count sample_title device acc dg).2 =
  acc.2 ++ group_samples chapter_count device dg.
Proof.
  unfold second_pass_step, group_samples.
  destruct (Nat.leb 2 (length dg.2)); simpl.
  - by rewrite sample_group_sampled.
  - rewrite app_nil_r. by destruct dg.2.
Qed.

Lemma second_pass_samples device (groups : groups_t) acc :
  (fold_left (second_pass_step chapter_count sample_title device)
     groups acc).2 =
  acc.2 ++ concat (group_samples chapter_count device <$> groups).
Proof.
  revert acc. induction groups as [|dg groups IH]; intros acc; simpl.
  - by rewrite app_nil_r.
  - by rewrite IH, second_pass_step_samples, <- app_assoc.
Qed.

(** Whatever the second pass returns was accepted in some group, or was
    there before. *)
Lemma second_pass_sound device (groups : groups_t) acc k i :
  (fold_left (second_pass_step chapter_count sample_title device)
     groups acc).1 !! k = Some i →
  acc.1 !! k = Some i ∨
  ∃ dg, dg ∈ groups ∧ accepted chapter_count sample_title device dg k ∧
        (k, i) ∈ dg.2.
Proof.
  revert acc. induction groups as [|dg groups IH]; intros acc; simpl.
  - by left.
  - intros [Hacc|(dg' & Hin & Hok & Hki)]%IH.
    + rewrite second_pass_step_lookup in Hacc.
      destruct (find _ dg.2) as [y|] eqn:Hf; [|by left].
      case_decide as Hok; [|by left].
      right. exists dg. split; [left|]. split; [done|].
      apply find_key_elem in Hf as [Hy Hk]. simplify_eq.
      by destruct y.
    + right. exists dg'. split; [by right|done].
Qed.

(** A title accepted in a group is in the result, provided every group
    that holds its number holds the same record. *)
Lemma second_pass_complete device (groups : groups_t) acc k i :
  (∀ dg i', dg ∈ groups → (k, i') ∈ dg.2 → i' = i) →
  acc.1 !! k = Some i ∨
    (∃ dg, dg ∈ groups ∧
           accepted chapter_count sample_title device dg k ∧
           (k, i) ∈ dg.2) →
  (fold_left (second_pass_step chapter_count sample_title device)
     groups acc).1 !! k = Some i.
Proof.
  revert acc. induction groups as [|dg groups IH]; intros acc Hagree; simpl.
  - intros [?|(dg & Hin & _)]; [done|]. by apply elem_of_nil in Hin.
  - intros Hcase. apply IH.
    { intros dg' i' Hin. apply Hagree. by right. }
    assert (∀ y, find (λ y, y.1 =? k) dg.2 = Some y → y.2 = i) as Hfind.
    { intros [k' i'] [Hy Hk]%find_key_elem. simpl in *. subst k'.
      apply (Hagree dg); [left|done]. }
    destruct Hcase as [Hacc|(dg' & [->|Hin]%elem_of_cons & Hok & Hki)].
    + left. rewrite second_pass_step_lookup.
      destruct (find _ dg.2) as [y|] eqn:Hf; [|done].
      case_decide; [|done]. by rewrite (Hfind y).
    + left. rewrite second_pass_step_lookup.
      destruct (find _ dg.2) as [y|] eqn:Hf.
      * rewrite decide_True by done. by rewrite (Hfind y).
      * apply list_elem_of_In in Hki.
        pose proof (find_none _ _ Hf _ Hki) as Hk. simpl in Hk. lia.
    + right. by exists dg'.
Qed.

(** *** The classifier as a whole *)

Lemma group_titles titles ranges d g x :
  (d, g) ∈ duration_groups info_duration titles ranges → x ∈ g →
  x ∈ titles ∧ is_valid ranges (info_duration x.2) = true ∧
  info_duration x.2 = d.
Proof.
  intros Hin Hx.
  destruct (duration_groups_inv titles ranges) as (_ & Hgrp & _).
  destruct (Hgrp _ _ Hin) as [_ Hg]. rewrite Hg in Hx.
  apply list_elem_of_filter in Hx as [[? ?] ?]. done.
Qed.

Lemma title_has_group titles ranges x :
  x ∈ titles → is_valid ranges (info_duration x.2) = true →
  ∃ g, (info_duration x.2, g) ∈
         duration_groups info_duration titles ranges ∧ x ∈ g.
Proof.
  intros Hx Hv.
  destruct (duration_groups_inv titles ranges) as (_ & Hgrp & Hall).
  pose proof (Hall x Hx Hv) as ([d g] & Hd & Hin)%list_elem_of_fmap.
  simpl in Hd. subst d.
  exists g. split; [exact Hin|]. destruct (Hgrp _ _ Hin) as [_ ->].
  apply list_elem_of_filter. by split.
Qed.

(** A title of a group is in the result exactly when its group accepts
    it, and then with the record it has in the catalog. *)
Lemma filter_episodes_accepted titles min_length max_length device ranges
    d g k i :
  Dict.wf titles →
  (d, g) ∈ duration_groups info_duration titles ranges → (k, i) ∈ g →
  (filter_episodes info_duration chapter_count sample_title titles
     min_length max_length device ranges).1 !! k =
  if decide (accepted chapter_count sample_title device (d, g) k)
  then Some i else None.
Proof.
  intros Hwf Hin Hki. unfold filter_episodes.
  set (groups := duration_groups info_duration titles ranges) in *.
  assert (∀ dg i', dg ∈ sorted_groups groups → (k, i') ∈ dg.2 →
                   i' = i ∧ dg = (d, g)) as Hagree.
  { intros [d' g'] i' Hdg Hki'. rewrite sorted_groups_perm in Hdg.
    destruct (group_titles _ _ _ _ _ Hin Hki) as (Ht & _ & Hd).
    destruct (group_titles _ _ _ _ _ Hdg Hki') as (Ht' & _ & Hd').
    simpl in *.
    pose proof (NoDup_fst_agree _ _ _ _ Hwf Ht Ht') as <-. split; [done|].
    subst d'. rewrite Hd in *. f_equal.
    destruct (duration_groups_inv titles ranges) as (Hnd & _ & _).
    by apply (NoDup_fst_agree _ _ _ _ Hnd Hdg Hin). }
  case_decide as Hok.
  - apply second_pass_complete.
    + intros dg i' Hdg Hki'. by apply (Hagree dg).
    + right. exists (d, g). by rewrite sorted_groups_perm.
  - apply eq_None_not_Some. intros [i' Hi'].
    apply second_pass_sound in Hi' as [Hemp|(dg & Hdg & Hok' & Hki')].
    + simpl in Hemp. by rewrite lookup_empty in Hemp.
    + destruct (Hagree _ _ Hdg Hki') as [_ ->]. done.
Qed.

(** Everything in the result is a title of the catalog, unchanged, that
    falls in some band. *)
Lemma filter_episodes_sound titles min_length max_length device ranges
    k i :
  (filter_episodes info_duration chapter_count sample_title titles
     min_length max_length device ranges).1 !! k = Some i →
  (k, i) ∈ titles ∧ is_valid ranges (info_duration i) = true.
Proof.
  intros [Hemp|([d g] & Hdg & _ & Hki)]%second_pass_sound.
  - simpl in Hemp. by rewrite lookup_empty in Hemp.
  - rewrite sorted_groups_perm in Hdg.
    by destruct (group_titles _ _ _ _ _ Hdg Hki) as (? & ? & _).
Qed.

Lemma is_valid_spec ranges d :
  is_valid ranges d = true ↔
  ∃ name lo hi, (name, (lo, hi)) ∈ ranges ∧
    (lo <= inject_Z d)%Q ∧ (inject_Z d <= hi)%Q.
Proof.
  unfold is_valid, in_range. rewrite existsb_exists. split.
  - intros ([name [lo hi]] & Hin & Hr). simpl in Hr.
    apply andb_true_iff in Hr as [?%Qle_bool_iff ?%Qle_bool_iff].
    exists name, lo, hi. by rewrite list_elem_of_In.
  - intros (name & lo & hi & Hin%list_elem_of_In & Hlo & Hhi).
    exists (name, (lo, hi)). split; [done|]. simpl.
    apply andb_true_iff. by rewrite !Qle_bool_iff.
Qed.

(** C8. Every title that [filter_episodes] accepts is a title of the
    catalog whose duration lies inside at least one of the bands: a title
    outside every band is never accepted. (The classifier has no
    force-include path.) *)
Theorem filter_episodes_within_band titles min_length max_length device
    ranges k i :
  (filter_episodes info_duration chapter_count sample_title titles
     min_length max_length device ranges).1 !! k = Some i →
  (k, i) ∈ titles ∧
  ∃ name lo hi, (name, (lo, hi)) ∈ ranges ∧
    (lo <= inject_Z (info_duration i))%Q ∧
    (inject_Z (info_duration i) <= hi)%Q.
Proof.
  intros [Hin Hv]%filter_episodes_sound. split; [done|].
  by apply is_valid_spec.
Qed.

Lemma group_wf titles ranges d g :
  Dict.wf titles →
  (d, g) ∈ duration_groups info_duration titles ranges → NoDup (g.*1).
Proof.
  intros Hwf Hin.
  destruct (duration_groups_inv titles ranges) as (_ & Hgrp & _).
  destruct (Hgrp _ _ Hin) as [_ ->].
  eapply sublist_NoDup; [exact Hwf|].
  apply fmap_sublist, sublist_filter.
Qed.

Lemma distinct_durations_single (ranges : list (string * (Q * Q)))
    (titles : list (Z * info)) d :
  NoDup ((λ x, info_duration x.2) <$>
         filter (λ x, is_valid ranges (info_duration x.2) = true) titles) →
  (length (filter (in_group info_duration ranges d) titles) ≤ 1)%nat.
Proof.
  induction titles as [|a l IH]; [simpl; lia|].
  rewrite (filter_cons (λ x, is_valid _ _ = true)).
  rewrite (filter_cons (in_group info_duration ranges d)). unfold in_group at 1.
  destruct (decide (is_valid ranges (info_duration a.2) = true)) as [Hv|Hv].
  - rewrite fmap_cons. intros [Hnin Hnd]%NoDup_cons.
    destruct (decide (_ ∧ info_duration a.2 = d)) as [[_ Hd]|Hnd'].
    + rewrite filter_none; [simpl; lia|].
      intros y Hy [Hvy Hdy]. apply Hnin. apply list_elem_of_fmap.
      exists y. split; [congruence|]. by apply list_elem_of_filter.
    + by apply IH.
  - intros Hnd. rewrite decide_False by (by intros [? _]). by apply IH.
Qed.

Lemma concat_all_nil {A B} (f : A → list B) (l : list A) :
  (∀ x, x ∈ l → f x = []) → concat (f <$> l) = [].
Proof.
  induction l as [|a l IH]; intros Hall; csimpl; [done|].
  rewrite (Hall a) by left. apply IH. intros x Hx. apply Hall. by right.
Qed.


(** C1 (as the code has it). In a duration group of two or more titles
    the sampler is called on the titles in descending order of chapter
    count, titles with equal counts in the order of the group; a title is
    accepted exactly when its sample succeeded (positive size) and no
    title processed before it has the same sample size. Hence of two
    titles with the same fingerprint the one with fewer chapters is
    rejected, and in a group of exactly two titles equal fingerprints
    keep only the title with more chapters while different fingerprints
    keep both. *)
Theorem filter_episodes_duplicates titles min_length max_length device
    ranges d g :
  Dict.wf titles →
  (d, g) ∈ duration_groups info_duration titles ranges →
  (2 ≤ length g)%nat →
  let order := sorted_by_chapters chapter_count g in
  let fp := fingerprint (info := info) sample_title device d in
  let result :=
    (filter_episodes info_duration chapter_count sample_title titles
       min_length max_length device ranges).1 in
  (order ≡ₚ g ∧ StronglySorted (chapters_ge chapter_count) order ∧
   (∀ c, filter (λ y, chapter_count y.2 = c) order
         = filter (λ y, chapter_count y.2 = c) g) ∧
   sampled (sample_group chapter_count sample_title device d g) =
     order.*1) ∧
  (∀ x, x ∈ g →
     (first_with_fingerprint sample_title device d order x →
      result !! x.1 = Some x.2) ∧
     (¬ first_with_fingerprint sample_title device d order x →
      result !! x.1 = None)) ∧
  (∀ x y, x ∈ g → y ∈ g → 0 < fp x → fp x = fp y →
     chapter_count y.2 < chapter_count x.2 → result !! y.1 = None) ∧
  (∀ x y, g ≡ₚ [x; y] → 0 < fp x → 0 < fp y →
     (fp x ≠ fp y →
        result !! x.1 = Some x.2 ∧ result !! y.1 = Some y.2) ∧
     (fp x = fp y → chapter_count y.2 < chapter_count x.2 →
        result !! x.1 = Some x.2 ∧ result !! y.1 = None)).
Proof.
  intros Hwf Hin Hlen order fp result.
  pose proof (sorted_by_chapters_perm g) as Hperm.
  pose proof (sorted_by_chapters_sorted g) as Hsorted.
  pose proof (group_wf _ _ _ _ Hwf Hin) as Hnd.
  fold order in Hperm, Hsorted.
  assert (∀ x, x ∈ g →
            accepted chapter_count sample_title device (d, g) x.1 ↔
            first_with_fingerprint sample_title device d order x) as Hacc.
  { intros x Hx. rewrite accepted_multi by (by apply Nat.leb_le).
    simpl. rewrite sample_group_unique. fold order. split.
    - intros (x' & Hk & Hfirst).
      assert (x' ∈ g) as Hx'.
      { destruct Hfirst as (l1 & l2 & Heq & _). rewrite <- Hperm, Heq.
        apply elem_of_app. right. left. }
      destruct x as [k i], x' as [k' i']. simpl in Hk. subst k'.
      by rewrite (NoDup_fst_agree _ _ _ _ Hnd Hx Hx').
    - intros Hfirst. by exists x. }
  assert (∀ x, x ∈ g →
     (first_with_fingerprint sample_title device d order x →
      result !! x.1 = Some x.2) ∧
     (¬ first_with_fingerprint sample_title device d order x →
      result !! x.1 = None))
    as Hres.
  { intros [k i] Hx. unfold result.
    rewrite (filter_episodes_accepted _ _ _ _ _ _ _ _ _ Hwf Hin Hx).
    pose proof (Hacc _ Hx) as Hiff. simpl in *.
    case_decide as Hok; split; try done.
    - intros Hn. destruct Hn. by apply Hiff.
    - intros Hf. destruct Hok. by apply Hiff. }
  assert (∀ x y, x ∈ g → y ∈ g → 0 < fp x → fp x = fp y →
     chapter_count y.2 < chapter_count x.2 → result !! y.1 = None)
    as Hdup.
  { intros x y Hx Hy Hpos Hfp Hch. apply (Hres y Hy).
    intros (l1 & l2 & Heq & _ & Hfirst).
    rewrite <- Hperm, Heq in Hx.
    apply elem_of_app in Hx as [Hx|[->|Hx]%elem_of_cons].
    - by apply (Hfirst x).
    - lia.
    - rewrite Heq in Hsorted.
      apply StronglySorted_app_1_r, StronglySorted_cons in Hsorted
        as [Hall _].
      rewrite Forall_forall in Hall. specialize (Hall x Hx).
      unfold chapters_ge in Hall. lia. }
  split; [|split; [exact Hres|split; [exact Hdup|]]].
  { split; [done|]. split; [done|]. split; [|apply sample_group_sampled].
    intros c. apply sorted_by_chapters_stable. }
  intros x y Hxy Hposx Hposy.
  assert (x ∈ g ∧ y ∈ g) as [Hx Hy].
  { rewrite Hxy. split; [left|right; left]. }
  assert (order = [x; y] ∨ order = [y; x]) as Horder.
  { apply Permutation_length_2_inv. by rewrite Hperm. }
  split.
  - intros Hne. split.
    + apply (Hres x Hx). destruct Horder as [->| ->].
      * exists [], [y]. split; [done|]. split; [done|].
        intros z Hz. by apply elem_of_nil in Hz.
      * exists [y], []. split; [done|]. split; [done|].
        intros z ->%list_elem_of_singleton. done.
    + apply (Hres y Hy). destruct Horder as [->| ->].
      * exists [x], []. split; [done|]. split; [done|].
        intros z ->%list_elem_of_singleton. done.
      * exists [], [x]. split; [done|]. split; [done|].
        intros z Hz. by apply elem_of_nil in Hz.
  - intros Hfp Hch. split; [|by apply (Hdup x y)].
    apply (Hres x Hx). destruct Horder as [Ho|Ho].
    + exists [], [y]. split; [done|]. split; [done|].
      intros z Hz. by apply elem_of_nil in Hz.
    + rewrite Ho in Hsorted.
      apply StronglySorted_cons in Hsorted as [Hall _].
      apply Forall_cons in Hall as [Hge _]. unfold chapters_ge in Hge. lia.
Qed.
End DurationClassifierFacts.

(** *** The classifier on the example catalogs *)


(** The second of the example titles is accepted, and lies in the band. *)
Lemma filter_episodes_within_band_example :
  Examples.title 2 1300 8 ∈ Examples.distinct_titles ∧
  ∃ name lo hi, (name, (lo, hi)) ∈ Examples.band ∧
    (lo <= inject_Z 1300)%Q ∧ (inject_Z 1300 <= hi)%Q.
Proof.
  apply (filter_episodes_within_band Bluray.duration Bluray.chapters
           Examples.same_samples Examples.distinct_titles 600 1440 "disc:0"
           Examples.band 2 (Examples.title 2 1300 8).2).
  vm_compute. reflexivity.
Defined.

(** The twin titles with equal samples: only the one with seven chapters
    is accepted. *)
Lemma filter_episodes_duplicates_example :
  let result :=
    (Bluray.filter_episodes Examples.same_samples Examples.twin_titles
       1320 1320 "disc:0" Examples.band).1 in
  result !! 2 = Some (Examples.title 2 1320 7).2 ∧ result !! 1 = None.
Proof.
  assert (Dict.wf Examples.twin_titles) as Hwf
    by (unfold Dict.wf; compute_done).
  assert ((1320, Examples.twin_titles) ∈
          duration_groups Bluray.duration Examples.twin_titles Examples.band)
    as Hin by (vm_compute; left).
  assert (2 ≤ length Examples.twin_titles)%nat as Hlen by (simpl; done).
  destruct (filter_episodes_duplicates Bluray.duration Bluray.chapters
              Examples.same_samples Examples.twin_titles 1320 1320 "disc:0"
              Examples.band 1320 Examples.twin_titles Hwf Hin Hlen)
    as (_ & _ & _ & Hpair).
  apply (Hpair (Examples.title 2 1320 7) (Examples.title 1 1320 3)).
  - apply perm_swap.
  - done.
  - done.
  - done.
  - done.
Defined.

(** In a group of three a title can be rejected although its fingerprint
    differs from that of another title of the group: the third title
    repeats the fingerprint of the first, so of the second and the third,
    whose fingerprints differ, only the second is accepted. *)
Lemma filter_episodes_third_title_rejected :
  let result :=
    (Bluray.filter_episodes Examples.triple_samples Examples.triple_titles
       1320 1320 "disc:0" Examples.band).1 in
  let fp := fingerprint Examples.triple_samples "disc:0" 1320 in
  duration_groups Bluray.duration Examples.triple_titles Examples.band
    = [(1320, Examples.triple_titles)] ∧
  0 < fp (Examples.title 2 1320 3) ∧ 0 < fp (Examples.title 3 1320 1) ∧
  fp (Examples.title 2 1320 3) ≠ fp (Examples.title 3 1320 1) ∧
  result !! 1 = Some (Examples.title 1 1320 5).2 ∧
  result !! 2 = Some (Examples.title 2 1320 3).2 ∧
  result !! 3 = None.
Proof. by vm_compute. Qed.

(** * Properties of the episode sequencer *)

Section EpisodeSequencerFacts.
Variable ignore_case : bool.

Lemma find_Some_first {A} (p : A → bool) (l : list A) x :
  find p l = Some x →
  ∃ l1 l2, l = l1 ++ x :: l2 ∧ p x = true ∧
    ∀ y, y ∈ l1 → p y = false.
Proof.
  induction l as [|a l IH]; simpl; [done|].
  destruct (p a) eqn:Hpa.
  - intros [= ->]. exists [], l. split; [done|]. split; [done|].
    intros y Hy. by apply elem_of_nil in Hy.
  - intros (l1 & l2 & -> & Hpx & Hfirst)%IH.
    exists (a :: l1), l2. split; [done|]. split; [done|].
    intros y [->|Hy]%elem_of_cons; [done|by apply Hfirst].
Qed.

Lemma seqZ_before m n l1 x l2 j :
  seqZ m n = l1 ++ x :: l2 → m ≤ j < x → j ∈ l1.
Proof.
  intros Heq Hj.
  assert (seqZ m n !! length l1 = Some x) as Hx.
  { rewrite Heq. apply list_lookup_middle. done. }
  apply lookup_seqZ in Hx as [-> Hlen].
  assert (seqZ m n !! Z.to_nat (j - m) = Some j) as Hlook.
  { rewrite lookup_seqZ. lia. }
  rewrite Heq, lookup_app_l in Hlook by lia.
  by apply list_elem_of_lookup_2 in Hlook.
Qed.

Lemma max_list_ge (l : list Z) x : x ∈ l → x ≤ max_list l.
Proof.
  destruct l as [|a l]; [by intros ?%elem_of_nil|]. simpl. revert x.
  induction l as [|b l IH]; simpl; intros x.
  - intros ->%list_elem_of_singleton. lia.
  - intros [Hx|[Hx|Hx]%elem_of_cons]%elem_of_cons.
    + assert (x ≤ foldr Z.max a l) by (apply IH; subst; left). lia.
    + lia.
    + assert (x ≤ foldr Z.max a l) by (apply IH; by right). lia.
Qed.

Lemma int_of_digits_nonneg ds x : Py.int_of_digits ds = Some x → 0 ≤ x.
Proof.
  unfold Py.int_of_digits. destruct (NilEmpty.uint_of_string ds); [|done].
  intros [= <-]. unfold Z.of_uint. lia.
Qed.

Lemma existing_episodes_nonneg fs output_dir season_num x :
  x ∈ existing_episodes ignore_case fs output_dir season_num → 0 ≤ x.
Proof.
  unfold existing_episodes.
  intros (name & _ & Hx)%list_elem_of_omap.
  destruct (re_search season_num name) as [ds|]; [|done].
  by apply (int_of_digits_nonneg ds).
Qed.

Lemma find_next_available_episode_spec fs output_dir season_num :
  least_missing_positive
    (existing_episodes ignore_case fs output_dir season_num)
    (find_next_available_episode ignore_case fs output_dir season_num).
Proof.
  unfold find_next_available_episode.
  pose proof (existing_episodes_nonneg fs output_dir season_num) as Hpos.
  set (existing := existing_episodes _ _ _ _) in *.
  destruct existing as [|e0 l0] eqn:He.
  { split; [lia|]. split; [apply not_elem_of_nil|]. intros; lia. }
  rewrite <- He in *. clear He e0 l0.
  destruct (find _ _) as [i|] eqn:Hfind.
  - apply find_Some_first in Hfind as (l1 & l2 & Heq & Hi & Hfirst).
    assert (i ∈ seqZ 1 (max_list existing + 1)) as Hin.
    { rewrite Heq. apply elem_of_app. right. left. }
    apply elem_of_seqZ in Hin.
    apply negb_true_iff, bool_decide_eq_false in Hi.
    split; [lia|]. split; [done|]. intros j Hj.
    pose proof (seqZ_before _ _ _ _ _ j Heq Hj) as Hj1.
    apply Hfirst, negb_false_iff, bool_decide_eq_true in Hj1. done.
  - exfalso.
    assert (max_list existing + 1 ∈ existing) as Hmax.
    { assert (∀ x, x ∈ existing → 0 ≤ max_list existing) as Hge.
      { intros x Hx. pose proof (max_list_ge _ _ Hx).
        pose proof (Hpos x Hx). lia. }
      assert (max_list existing + 1 ∈ seqZ 1 (max_list existing + 1))
        as Hin%list_elem_of_In.
      { apply elem_of_seqZ.
        destruct existing as [|x l]; [done|].
        specialize (Hge x (list_elem_of_here _ _)). lia. }
      pose proof (find_none _ _ Hfind _ Hin) as Hn.
      by apply negb_false_iff, bool_decide_eq_true in Hn. }
    apply max_list_ge in Hmax. lia.
Qed.

(** *** File names that follow the naming convention *)

Lemma append_cons x (a b : string) : String x a +:+ b = String x (a +:+ b).
Proof. done. Qed.

Lemma prefix_append p s : String.prefix p (p +:+ s) = true.
Proof.
  induction p as [|a p IH]; simpl; [by destruct s|].
  by destruct (ascii_dec a a).
Qed.

Lemma skip_append p s : Py.skip (String.length p) (p +:+ s) = s.
Proof. induction p as [|a p IH]; simpl; [by destruct s|done]. Qed.

Lemma length_append (a b : string) :
  String.length (a +:+ b) = (String.length a + String.length b)%nat.
Proof. induction a as [|c a IH]; simpl; [done|by rewrite IH]. Qed.

Lemma append_assoc (a b c : string) : (a +:+ b) +:+ c = a +:+ b +:+ c.
Proof.
  induction a as [|x a IH]; [done|]. rewrite !append_cons. by f_equal.
Qed.

Lemma append_inv_head (p a b : string) : p +:+ a = p +:+ b → a = b.
Proof.
  induction p as [|c p IH]; [done|]. rewrite !append_cons.
  intros [= ?]. by apply IH.
Qed.

Lemma lower_append a b : Py.lower (a +:+ b) = Py.lower a +:+ Py.lower b.
Proof. induction a as [|c a IH]; simpl; [done|by rewrite IH]. Qed.

Lemma endswith_append a suf : Py.endswith (a +:+ suf) suf = true.
Proof.
  unfold Py.endswith. rewrite length_append. apply andb_true_iff. split.
  - apply Nat.leb_le. lia.
  - replace (String.length a + String.length suf - String.length suf)%nat
      with (String.length a) by lia.
    rewrite skip_append. apply String.eqb_refl.
Qed.

Lemma take_digits_append ds rest :
  all_digits ds = true →
  match rest with
  | EmptyString => False
  | String c _ => Py.is_digit c = false
  end →
  Py.take_digits (ds +:+ rest) = (ds, rest).
Proof.
  intros Hds Hrest. induction ds as [|c ds IH]; simpl in *.
  - destruct rest as [|c rest]; [done|]. simpl. by rewrite Hrest.
  - apply andb_true_iff in Hds as [-> Hds]. by rewrite IH.
Qed.

Lemma all_digits_string_of_uint d :
  all_digits (NilEmpty.string_of_uint d) = true.
Proof. induction d; simpl; done. Qed.

Lemma str_digits n :
  0 ≤ n → all_digits (Py.str n) = true ∧ Py.str n ≠ EmptyString ∧
  Py.int_of_digits (Py.str n) = Some n ∧
  Py.int_of_digits ("0" +:+ Py.str n) = Some n.
Proof.
  intros Hn. unfold Py.str, Py.int_of_digits.
  pose proof (DecimalZ.of_to n) as Hof.
  destruct (Z.to_int n) as [d|d] eqn:Hd.
  - simpl in *. destruct d; simpl in *;
      rewrite ?all_digits_string_of_uint, ?NilEmpty.usu; simpl;
      by rewrite <- ?Hof.
  - by destruct n.
Qed.

Lemma format_02d_digits n :
  0 ≤ n → all_digits (Py.format_02d n) = true ∧
  Py.format_02d n ≠ EmptyString ∧
  Py.int_of_digits (Py.format_02d n) = Some n.
Proof.
  intros Hn. destruct (str_digits n Hn) as (Hall & Hne & Hint & Hint0).
  unfold Py.format_02d. destruct ((0 <=? n) && (n <? 10)); [|done].
  split; [|done]. simpl. done.
Qed.

Lemma search_unfold p s :
  Re.search p s =
    match Re.match_here p s with
    | Some groups => Some groups
    | None =>
        match s with
        | EmptyString => None
        | String _ s' => Re.search p s'
        end
    end.
Proof. by destruct s. Qed.

(** A file whose whole name is the prefix, digits and [.mkv] puts the
    number the digits spell in the list of existing episodes. *)
Lemma numbered_file_existing fs output_dir season_num names ds n :
  Py.listdir fs output_dir = Some names →
  all_digits ds = true → ds ≠ EmptyString → Py.int_of_digits ds = Some n →
  episode_prefix season_num +:+ ds +:+ ".mkv" ∈ names →
  n ∈ existing_episodes ignore_case fs output_dir season_num.
Proof.
  intros Hdir Hall Hne Hint Hin. unfold existing_episodes.
  apply list_elem_of_omap.
  exists (episode_prefix season_num +:+ ds +:+ ".mkv"). split.
  - unfold glob. rewrite Hdir. simpl. apply list_elem_of_filter.
    split; [|done]. unfold glob_match.
    apply andb_true_iff; split; [apply andb_true_iff; split|].
    + unfold Py.startswith. destruct ignore_case.
      * rewrite lower_append. apply prefix_append.
      * apply prefix_append.
    + rewrite <- append_assoc. destruct ignore_case.
      * rewrite lower_append. apply endswith_append.
      * apply endswith_append.
    + apply Nat.leb_le. rewrite !length_append. simpl. lia.
  - unfold re_search. rewrite search_unfold. cbn [Re.match_here].
    unfold Py.startswith at 1. rewrite prefix_append, skip_append.
    rewrite take_digits_append by done.
    destruct ds; [done|]. simpl. done.
Qed.

(** In particular the file with the conventional name of episode [n]. *)
Lemma episode_file_existing fs output_dir season_num names n :
  Py.listdir fs output_dir = Some names → 0 ≤ n →
  episode_file season_num n ∈ names →
  n ∈ existing_episodes ignore_case fs output_dir season_num.
Proof.
  intros Hdir Hn Hin.
  destruct (format_02d_digits n Hn) as (Hall & Hne & Hint).
  by eapply numbered_file_existing.
Qed.

(** *** What the scan reads *)

Lemma prefix_inv p s :
  String.prefix p s = true → s = p +:+ Py.skip (String.length p) s.
Proof.
  revert s. induction p as [|a p IH]; intros [|b s]; simpl; try done.
  destruct (ascii_dec a b) as [->|]; [|done].
  intros Hp. rewrite append_cons. f_equal. by apply IH.
Qed.

Lemma skip_add p j s :
  Py.skip (String.length p + j) (p +:+ s) = Py.skip j s.
Proof. induction p as [|a p IH]; simpl; [by destruct j, s|done]. Qed.

(** A string is what comes before position [j] and what follows it. *)
Lemma skip_split j s :
  (j ≤ String.length s)%nat →
  ∃ front, s = front +:+ Py.skip j s ∧ String.length front = j.
Proof.
  revert s. induction j as [|j IH]; intros s Hj.
  { exists EmptyString. by destruct s. }
  destruct s as [|c s]; simpl in *; [lia|].
  destruct (IH s) as (front & Hs & Hlen); [lia|].
  exists (String c front). rewrite append_cons. simpl.
  split; [by f_equal|by rewrite Hlen].
Qed.

Lemma length_lower s : String.length (Py.lower s) = String.length s.
Proof. induction s as [|c s IH]; simpl; [done|by rewrite IH]. Qed.

(** The glob pattern accepts the names of the shape [S<ss>E...mkv]. *)
Lemma glob_match_like season_num name :
  glob_match ignore_case season_num name = true ↔
  episode_like ignore_case season_num name.
Proof.
  unfold glob_match, episode_like.
  set (fold := if ignore_case then Py.lower else id).
  assert (fold ".mkv"%string = ".mkv"%string) as Hext
    by (unfold fold; by destruct ignore_case).
  assert (∀ x, String.length (fold x) = String.length x) as Hlen.
  { intros x. unfold fold. destruct ignore_case; [apply length_lower|done]. }
  rewrite Hext. cbv zeta. rewrite !andb_true_iff, Nat.leb_le. split.
  - intros [[Hpre Hsuf] Hlong].
    apply prefix_inv in Hpre.
    apply andb_true_iff in Hsuf as [_ Hsuf%String.eqb_eq].
    set (rest := Py.skip (String.length (fold (episode_prefix season_num)))
                   (fold name)) in *.
    assert (String.length (fold name)
            = (String.length (episode_prefix season_num)
               + String.length rest)%nat) as Htotal.
    { rewrite Hpre at 1. by rewrite length_append, Hlen. }
    rewrite Hlen in Htotal.
    destruct (skip_split (String.length rest - 4) rest)
      as (middle & Hrest & Hmid); [lia|].
    exists middle. rewrite Hpre. f_equal. rewrite Hrest at 1. f_equal.
    rewrite <- Hsuf. rewrite Hpre at 2.
    replace (String.length (fold name) - String.length ".mkv")%nat
      with (String.length (fold (episode_prefix season_num))
            + (String.length rest - 4))%nat.
    + by rewrite skip_add.
    + rewrite !Hlen. change (String.length ".mkv") with 4%nat. lia.
  - intros [middle Hname]. rewrite Hname. split; [split|].
    + apply prefix_append.
    + rewrite <- append_assoc. apply endswith_append.
    + rewrite <- (Hlen name), Hname, !length_append, Hlen.
      change (String.length ".mkv") with 4%nat. lia.
Qed.

Lemma take_digits_spec s ds rest :
  Py.take_digits s = (ds, rest) → s = ds +:+ rest ∧ all_digits ds = true.
Proof.
  revert ds rest. induction s as [|c s IH]; intros ds rest; simpl.
  { by intros [= <- <-]. }
  destruct (Py.is_digit c) eqn:Hc; [|by intros [= <- <-]].
  destruct (Py.take_digits s) as [ds' rest'].
  intros [= <- <-]. destruct (IH ds' rest') as [-> Hds]; [done|].
  split; [done|]. simpl. by rewrite Hc.
Qed.

(** The pattern at the start of a name: an occurrence without text
    before it. *)
Lemma match_here_occurrence season_num s groups :
  Re.match_here
    [Re.Lit (episode_prefix season_num); Re.Digits; Re.Lit ".mkv"] s
  = Some groups ↔
  ∃ ds, groups = [ds] ∧ episode_occurrence season_num s EmptyString ds.
Proof.
  cbn [Re.match_here]. split.
  - destruct (Py.startswith _ _) eqn:Hpre; [|done].
    apply prefix_inv in Hpre.
    destruct (Py.take_digits _) as [ds rest] eqn:Htake.
    apply take_digits_spec in Htake as [Hrest Hds].
    destruct (String.eqb_spec ds EmptyString) as [|Hne]; [done|].
    destruct (Py.startswith rest ".mkv") eqn:Hext; [|done].
    apply prefix_inv in Hext. simpl. intros [= <-].
    exists ds. split; [done|]. split; [done|]. split; [done|].
    exists (Py.skip 4 rest).
    rewrite Hpre at 1. rewrite Hrest at 1. by rewrite Hext at 1.
  - intros (ds & -> & Hne & Hds & after & ->).
    replace (EmptyString +:+ episode_prefix season_num +:+ ds +:+ ".mkv"
             +:+ after)
      with (episode_prefix season_num +:+ ds +:+ ".mkv" +:+ after) by done.
    unfold Py.startswith at 1. rewrite prefix_append, skip_append.
    rewrite take_digits_append by done.
    destruct (String.eqb_spec ds EmptyString) as [|_]; [done|].
    unfold Py.startswith. rewrite prefix_append. done.
Qed.

(** Two occurrences at one place have the same digits. *)
Lemma episode_occurrence_digits season_num name before ds1 ds2 :
  episode_occurrence season_num name before ds1 →
  episode_occurrence season_num name before ds2 → ds1 = ds2.
Proof.
  intros (_ & Hds1 & after1 & ->) (_ & Hds2 & after2 & Heq).
  apply append_inv_head in Heq. apply append_inv_head in Heq.
  assert (Py.take_digits (ds1 +:+ ".mkv" +:+ after1) = (ds1, ".mkv" +:+ after1))
    as H1 by (by apply take_digits_append).
  rewrite Heq, take_digits_append in H1 by done. by injection H1.
Qed.

Lemma episode_occurrence_cons season_num c name before ds :
  episode_occurrence season_num (String c name) before ds ↔
  before = EmptyString ∧
  episode_occurrence season_num (String c name) EmptyString ds ∨
  ∃ before', before = String c before' ∧
    episode_occurrence season_num name before' ds.
Proof.
  split.
  - intros (Hne & Hds & after & Heq). destruct before as [|c' before].
    { left. split; [done|]. split; [done|]. split; [done|]. by exists after. }
    right. rewrite append_cons in Heq. injection Heq as <- ->.
    exists before. split; [done|]. split; [done|]. split; [done|].
    by exists after.
  - intros [[-> ?]|(before' & -> & Hne & Hds & after & ->)]; [done|].
    split; [done|]. split; [done|]. by exists after.
Qed.

(** [re.search] returns the digits of the leftmost occurrence. *)
Lemma re_search_leftmost season_num name ds :
  re_search season_num name = Some ds ↔
  ∃ before, episode_occurrence season_num name before ds ∧
    ∀ before' ds', episode_occurrence season_num name before' ds' →
      (String.length before ≤ String.length before')%nat.
Proof.
  unfold re_search. revert ds. induction name as [|c name IH]; intros ds.
  - rewrite search_unfold.
    destruct (Re.match_here _ EmptyString) as [groups|] eqn:Hhere.
    { apply match_here_occurrence in Hhere
        as (ds0 & -> & _ & _ & after & Heq).
      apply (f_equal String.length) in Heq.
      rewrite !length_append in Heq.
      unfold episode_prefix in Heq. rewrite !length_append in Heq.
      simpl in Heq. lia. }
    split; [done|]. intros (before & (_ & _ & after & Heq) & _).
    apply (f_equal String.length) in Heq.
    rewrite !length_append in Heq.
    unfold episode_prefix in Heq. rewrite !length_append in Heq.
    simpl in Heq. lia.
  - rewrite search_unfold.
    destruct (Re.match_here _ (String c name)) as [groups|] eqn:Hhere.
    + apply match_here_occurrence in Hhere as (ds0 & -> & Hocc). simpl.
      split.
      * intros [= <-]. exists EmptyString. split; [done|].
        intros; simpl; lia.
      * intros (before & Hb & Hleft).
        specialize (Hleft _ _ Hocc). simpl in Hleft.
        destruct before; [|simpl in Hleft; lia].
        f_equal. by eapply episode_occurrence_digits.
    + assert (∀ ds', ¬ episode_occurrence season_num (String c name)
                         EmptyString ds') as Hnone.
      { intros ds' Hocc.
        assert (Re.match_here
                  [Re.Lit (episode_prefix season_num); Re.Digits;
                   Re.Lit ".mkv"] (String c name) = Some [ds']) as Hsome
          by (apply match_here_occurrence; by eauto).
        congruence. }
      rewrite IH. split.
      * intros (before & Hocc & Hleft). exists (String c before). split.
        { apply episode_occurrence_cons. right. by eauto. }
        intros before' ds' [[_ Hocc']|(b & -> & Hocc')]%episode_occurrence_cons.
        { by destruct (Hnone ds'). }
        simpl. specialize (Hleft _ _ Hocc'). lia.
      * intros (before & [[_ Hocc]|(b & -> & Hocc)]%episode_occurrence_cons
                & Hleft).
        { by destruct (Hnone ds). }
        exists b. split; [done|]. intros before' ds' Hocc'.
        assert (episode_occurrence season_num (String c name)
                  (String c before') ds') as Hocc2.
        { apply episode_occurrence_cons. right. by eauto. }
        specialize (Hleft _ _ Hocc2). simpl in Hleft. lia.
Qed.

(** The list of existing episodes holds the numbers the scan reads. *)
Lemma existing_scanned fs output_dir season_num n :
  n ∈ existing_episodes ignore_case fs output_dir season_num ↔
  scanned ignore_case (default [] (Py.listdir fs output_dir)) season_num n.
Proof.
  unfold existing_episodes, scanned, glob. rewrite list_elem_of_omap.
  split.
  - intros (name & [Hglob Hin]%list_elem_of_filter & Hn).
    destruct (re_search season_num name) as [ds|] eqn:Hre; [|done].
    exists name, ds. by rewrite <- glob_match_like.
  - intros (name & ds & Hin & Hlike%glob_match_like & Hre & Hn).
    exists name. rewrite list_elem_of_filter, Hre. done.
Qed.


(** The maximum plus one would be 5 for episodes 1, 2 and 4. *)
Example find_next_available_episode_not_max_plus_one :
  existing_episodes ignore_case Examples.fs_gap Examples.season1 1
    = [1; 2; 4] ∧
  find_next_available_episode ignore_case Examples.fs_gap
    Examples.season1 1 ≠ 5.
Proof. by destruct ignore_case; vm_compute. Qed.

(** *** Season roll-over *)

(** The documented example: season 1 is full with two episodes, and the
    next slot is episode 1 of season 2, whose directory is created. *)
Example get_next_season_episode_rollover :
  get_next_season_episode ignore_case Examples.fs_full Examples.season1 1 2
  = inr ([(Examples.show, ["Season 1"; "Season 2"]);
          (Examples.season1, ["S01E01.mkv"; "S01E02.mkv"]);
          (Examples.season2, [])]%string,
         (2, 1, Py.joinpath Examples.season2 "S02E01.mkv")).
Proof. by destruct ignore_case; vm_compute. Qed.

(** When the season has room the slot is the first free episode of that
    season and the file system is left as it is. *)
Lemma get_next_season_episode_same_season fs output_dir season_num
    max_episodes :
  find_next_available_episode ignore_case fs output_dir season_num
    ≤ max_episodes →
  get_next_season_episode ignore_case fs output_dir season_num max_episodes
  = inr (fs, (season_num,
              find_next_available_episode ignore_case fs output_dir
                season_num,
              Py.joinpath output_dir
                (episode_file season_num
                   (find_next_available_episode ignore_case fs output_dir
                      season_num)))).
Proof.
  intros Hle. unfold get_next_season_episode.
  destruct (Z.ltb_spec max_episodes
              (find_next_available_episode ignore_case fs output_dir
                 season_num)); [lia|done].
Qed.

(** When the season is full the code moves on by exactly one season: the
    slot is the first free episode of the next season, whatever the
    limit. *)
Lemma get_next_season_episode_next_season fs output_dir season_num
    max_episodes fs' :
  max_episodes <
    find_next_available_episode ignore_case fs output_dir season_num →
  let next_dir :=
    Py.joinpath (Py.parent output_dir)
      ("Season " +:+ Py.str (season_num + 1)) in
  Py.mkdir_exist_ok fs next_dir = inr fs' →
  get_next_season_episode ignore_case fs output_dir season_num max_episodes
  = inr (fs', (season_num + 1,
               find_next_available_episode ignore_case fs' next_dir
                 (season_num + 1),
               Py.joinpath next_dir
                 (episode_file (season_num + 1)
                    (find_next_available_episode ignore_case fs' next_dir
                       (season_num + 1))))).
Proof.
  intros Hlt next_dir Hmk. unfold get_next_season_episode.
  destruct (Z.ltb_spec max_episodes
              (find_next_available_episode ignore_case fs output_dir
                 season_num)); [|lia].
  fold next_dir. by rewrite Hmk.
Qed.

(** C4 (the code departs from the specification). With seasons 1 and 2
    both full at a limit of two episodes, [get_next_season_episode] rolls
    over once and returns episode 3 of season 2, above the limit: the loop
    body returns before the scan can repeat for season 3. *)
Theorem get_next_season_episode_exceeds_limit :
  let max_episodes := 2 in
  let slot :=
    get_next_season_episode ignore_case Examples.fs_both_full
      Examples.season1 1 max_episodes in
  slot = inr (Examples.fs_both_full,
              (2, 3, Py.joinpath Examples.season2 "S02E03.mkv")) ∧
  ¬ (∀ fs' season episode file,
       slot = inr (fs', (season, episode, file)) →
       episode ≤ max_episodes).
Proof.
  intros max_episodes slot.
  assert (slot = inr (Examples.fs_both_full,
                      (2, 3, Py.joinpath Examples.season2 "S02E03.mkv")))
    as Hslot by (by destruct ignore_case; vm_compute).
  split; [done|]. intros Hle. specialize (Hle _ _ _ _ Hslot).
  unfold max_episodes in Hle. lia.
Qed.
End EpisodeSequencerFacts.


(** * Properties of the margin filter *)

Section DictFacts.
Context {V : Type}.

Lemma dict_set_fresh (d : list (Z * V)) k v :
  k ∉ Dict.keys d → Dict.set d k v = d ++ [(k, v)].
Proof.
  unfold Dict.keys. induction d as [|[k' v'] d IH]; csimpl; [done|].
  intros [Hne Hnin]%not_elem_of_cons.
  destruct (Z.eqb_spec k' k); [congruence|]. by rewrite IH.
Qed.

Lemma dict_get_elem (d : list (Z * V)) k v :
  Dict.wf d → Dict.get d k = Some v ↔ (k, v) ∈ d.
Proof.
  unfold Dict.wf, Dict.keys.
  induction d as [|[k' v'] d IH]; csimpl; intros Hnd.
  - split; [done|by intros ?%elem_of_nil].
  - apply NoDup_cons in Hnd as [Hk' Hnd].
    destruct (Z.eqb_spec k' k) as [->|Hne].
    + split.
      * intros [= ->]. left.
      * intros [[= ->]|Hin]%elem_of_cons; [done|].
        destruct Hk'. apply list_elem_of_fmap. by exists (k, v).
    + rewrite IH by done. split; [by right|].
      intros [[= -> ->]|Hin]%elem_of_cons; done.
Qed.
End DictFacts.

Section MarginFilterFacts.
Context `{PyFloat F} {info : Type}.
Variable info_duration : info → Z.

Lemma filter_titles_by_duration_filter title_info
    (min_runtime max_runtime margin_percent : F) :
  Dict.wf title_info →
  let inside (x : Z * info) :=
    within_margin min_runtime max_runtime margin_percent
      (info_duration x.2) = true in
  filter_titles_by_duration info_duration title_info
    min_runtime max_runtime margin_percent
  = (filter inside title_info, filter (λ x, ¬ inside x) title_info).
Proof.
  intros Hwf inside. unfold filter_titles_by_duration.
  induction title_info as [|[k i] l IH] using rev_ind; [done|].
  unfold Dict.wf, Dict.keys in Hwf. rewrite fmap_app in Hwf.
  apply NoDup_app in Hwf as (Hwf & Hfresh & _).
  assert (k ∉ l.*1) as Hk.
  { intros Hin. apply (Hfresh k Hin). left. }
  rewrite fold_left_app, IH by done. simpl.
  assert (∀ P `{∀ x, Decision (P x)}, k ∉ Dict.keys (filter P l))
    as Hkf.
  { intros P ? Hin. apply Hk.
    apply list_elem_of_fmap in Hin as (x & -> & [_ Hx]%list_elem_of_filter).
    apply list_elem_of_fmap. by exists x. }
  rewrite !filter_app.
  destruct (within_margin _ _ _ _) eqn:Hin.
  - rewrite dict_set_fresh by apply Hkf.
    rewrite filter_cons_True, filter_cons_False, !filter_nil, app_nil_r;
      [done|by intros Hn; apply Hn|done].
  - rewrite dict_set_fresh by apply Hkf.
    rewrite filter_cons_False, filter_cons_True, !filter_nil, app_nil_r;
      [done| |]; unfold inside; simpl; congruence.
Qed.

(** C10. [filter_titles_by_duration] splits the titles in two: every
    title is in exactly one of the two dictionaries with its record
    unchanged, no number is in both, and a title is in the matching one
    exactly when [min_runtime * (1 - margin/100) <= duration <=
    max_runtime * (1 + margin/100)], the products and the comparison being
    those of the script's arithmetic. *)
Theorem filter_titles_by_duration_partition title_info
    (min_runtime max_runtime margin_percent : F) :
  Dict.wf title_info →
  let margin := fdiv margin_percent (of_int 100) in
  let inside (d : Z) : Prop :=
    float_le_int (fmul min_runtime (fsub (of_int 1) margin)) d = true ∧
    int_le_float d (fmul max_runtime (fadd (of_int 1) margin)) = true in
  let result :=
    filter_titles_by_duration info_duration title_info
      min_runtime max_runtime margin_percent in
  (∀ k i, (k, i) ∈ title_info ↔
          (k, i) ∈ result.1 ∨ (k, i) ∈ result.2) ∧
  (∀ k, ¬ (k ∈ Dict.keys result.1 ∧ k ∈ Dict.keys result.2)) ∧
  (∀ k i, Dict.get title_info k = Some i →
     if decide (inside (info_duration i))
     then Dict.get result.1 k = Some i ∧ Dict.get result.2 k = None
     else Dict.get result.1 k = None ∧ Dict.get result.2 k = Some i) ∧
  (∀ k i, (k, i) ∈ result.1 ↔
          (k, i) ∈ title_info ∧ inside (info_duration i)) ∧
  Dict.wf result.1 ∧ Dict.wf result.2 ∧
  title_info ≡ₚ result.1 ++ result.2.
Proof.
  intros Hwf margin inside result.
  pose proof (filter_titles_by_duration_filter title_info min_runtime
                max_runtime margin_percent Hwf) as Hres.
  simpl in Hres. fold result in Hres.
  set (P := λ x : Z * info,
         within_margin min_runtime max_runtime margin_percent
           (info_duration x.2) = true) in *.
  assert (∀ x, P x ↔ inside (info_duration x.2)) as HP.
  { intros x. unfold P, within_margin, inside, min_with_margin,
      max_with_margin. fold margin. apply andb_true_iff. }
  rewrite Hres. cbn [fst snd].
  assert (∀ Q `{∀ x, Decision (Q x)}, Dict.wf (filter Q title_info))
    as Hwff.
  { intros Q ?. eapply sublist_NoDup; [exact Hwf|].
    apply fmap_sublist, sublist_filter. }
  assert (∀ k, ¬ (k ∈ Dict.keys (filter P title_info) ∧
                  k ∈ Dict.keys (filter (λ x, ¬ P x) title_info)))
    as Hdisj.
  { intros k [Hin1 Hin2].
    apply list_elem_of_fmap in Hin1
      as ([k1 i1] & -> & [HP1 Hx1]%list_elem_of_filter).
    apply list_elem_of_fmap in Hin2
      as ([k2 i2] & Hk & [HP2 Hx2]%list_elem_of_filter).
    simpl in Hk. subst k2.
    pose proof (NoDup_fst_agree _ _ _ _ Hwf Hx1 Hx2) as ->. done. }
  split; [|split; [exact Hdisj|split; [|split; [|split; [|split]]]]].
  - intros k i. rewrite !list_elem_of_filter. split.
    + intros Hin. destruct (decide (P (k, i))); [left|right]; done.
    + intros [[_ ?]|[_ ?]]; done.
  - intros k i Hget. apply dict_get_elem in Hget; [|done].
    destruct (decide (inside (info_duration i))) as [Hin|Hout].
    + assert ((k, i) ∈ filter P title_info) as Hmem.
      { apply list_elem_of_filter. split; [by apply HP|done]. }
      split; [by apply dict_get_elem|].
      destruct (Dict.get (filter (λ x, ¬ P x) title_info) k) as [i'|]
        eqn:Hget'; [|done].
      apply dict_get_elem in Hget'; [|by apply Hwff].
      destruct (Hdisj k). split; apply list_elem_of_fmap.
      * by exists (k, i).
      * by exists (k, i').
    + assert ((k, i) ∈ filter (λ x, ¬ P x) title_info) as Hmem.
      { apply list_elem_of_filter. split; [|done].
        intros HPx. by apply Hout, (HP (k, i)). }
      split; [|by apply dict_get_elem].
      destruct (Dict.get (filter P title_info) k) as [i'|] eqn:Hget';
        [|done].
      apply dict_get_elem in Hget'; [|by apply Hwff].
      destruct (Hdisj k). split; apply list_elem_of_fmap.
      * by exists (k, i').
      * by exists (k, i).
  - intros k i. rewrite list_elem_of_filter, (HP (k, i)). simpl.
    split; intros [? ?]; done.
  - by apply Hwff.
  - by apply Hwff.
  - symmetry. apply filter_app_complement.
Qed.
End MarginFilterFacts.

(** The example durations against 30 to 60 minutes with a margin of 20
    percent, in exact arithmetic: every title is on one side. *)
Lemma filter_titles_by_duration_partition_example :
  let result :=
    filter_titles_by_duration (F := Q) id Examples.durations
      (1800 # 1)%Q (3600 # 1)%Q (20 # 1)%Q in
  (∀ k i, (k, i) ∈ Examples.durations ↔
          (k, i) ∈ result.1 ∨ (k, i) ∈ result.2) ∧
  (∀ k, ¬ (k ∈ Dict.keys result.1 ∧ k ∈ Dict.keys result.2)).
Proof.
  intros result.
  destruct (filter_titles_by_duration_partition (F := Q) id
              Examples.durations (1800 # 1)%Q (3600 # 1)%Q (20 # 1)%Q)
    as (Hunion & Hdisjoint & _).
  - unfold Dict.wf. compute_done.
  - split; [exact Hunion|exact Hdisjoint].
Defined.

Example filter_titles_by_duration_example :
  filter_titles_by_duration (F := Q) id Examples.durations
    (1800 # 1)%Q (3600 # 1)%Q (20 # 1)%Q
  = ([(2, 1500); (3, 4320)], [(1, 1320); (4, 4321)]).
Proof. reflexivity. Qed.

(** * Properties of the runtime-range resolvers *)

Section ResolverFacts.
Variable api : Tvdb.service.
Variable show_name : string.
Variable season_num : Z.

(** The Blu-ray resolver returns a range whatever the service does. *)
Lemma get_tvdb_episode_info_total :
  ∃ lo hi, Bluray.get_tvdb_episode_info api show_name season_num
           = inr (lo, hi).
Proof.
  unfold Bluray.get_tvdb_episode_info, Py.try_except.
  destruct (_ ≫= _) as [e|[lo hi]]; [|by eauto].
  destruct e; by eauto.
Qed.

(** Whenever the body of its [try] raises, the range is the default. *)
Lemma get_tvdb_episode_info_search_error e :
  Tvdb.search api show_name = inl e →
  Bluray.get_tvdb_episode_info api show_name season_num = inr (1800, 3600).
Proof.
  intros He. unfold Bluray.get_tvdb_episode_info. rewrite He. simpl.
  by destruct e.
Qed.

Lemma get_tvdb_episode_info_episodes_error s shows show_id e :
  Tvdb.search api show_name = inr (s :: shows) →
  Tvdb.id s = Some show_id →
  Tvdb.episodes_official api show_id None = inl e →
  Bluray.get_tvdb_episode_info api show_name season_num = inr (1800, 3600).
Proof.
  intros Hs Hid He. unfold Bluray.get_tvdb_episode_info.
  rewrite Hs. simpl. rewrite Hid. simpl. rewrite He. simpl. by destruct e.
Qed.

Lemma get_tvdb_episode_info_no_runtime s shows show_id episodes :
  Tvdb.search api show_name = inr (s :: shows) →
  Tvdb.id s = Some show_id →
  Tvdb.episodes_official api show_id None = inr episodes →
  Bluray.season_runtimes season_num episodes = [] →
  Bluray.get_tvdb_episode_info api show_name season_num = inr (1800, 3600).
Proof.
  intros Hs Hid He Hr. unfold Bluray.get_tvdb_episode_info.
  rewrite Hs. simpl. rewrite Hid. simpl. rewrite He. simpl. by rewrite Hr.
Qed.

(** The DVD resolver raises a [DVDError] when a request fails. *)
Lemma get_tvdb_info_search_error token e :
  Tvdb.login api = inr token →
  Tvdb.search api show_name = inl e →
  ∃ msg, Windows.get_tvdb_info api show_name season_num
         = inl (Py.DVDError msg).
Proof.
  intros Ht He. unfold Windows.get_tvdb_info, Windows.get_tvdb_token.
  rewrite Ht, He. simpl. destruct e; by eauto.
Qed.

Lemma get_tvdb_info_login_error e :
  Tvdb.login api = inl e →
  Windows.get_tvdb_info api show_name season_num
  = inl (Py.DVDError "Failed to get TVDB token").
Proof.
  intros He. unfold Windows.get_tvdb_info, Windows.get_tvdb_token.
  by rewrite He.
Qed.

(** Without runtime data the DVD resolver falls back to 30 minutes for
    both bounds. *)
Lemma get_tvdb_info_no_runtime token s shows show_id ep episodes :
  Tvdb.login api = inr token →
  Tvdb.search api show_name = inr (s :: shows) →
  Tvdb.id s = Some show_id →
  Tvdb.episodes_official api show_id (Some season_num)
    = inr (ep :: episodes) →
  Windows.runtimes_of (ep :: episodes) = [] →
  ∃ info, Windows.get_tvdb_info api show_name season_num = inr info ∧
    Windows.min_length info = 30 ∧ Windows.max_length info = 30.
Proof.
  intros Ht Hs Hid He Hr.
  unfold Windows.get_tvdb_info, Windows.get_tvdb_token.
  rewrite Ht. simpl. rewrite Hs. simpl. rewrite Hid. simpl. rewrite He.
  cbn [mbind Py.exn_bind Py.try_except]. rewrite Hr. by eexists.
Qed.

Lemma get_tvdb_info_episodes_error token s shows show_id e :
  Tvdb.login api = inr token →
  Tvdb.search api show_name = inr (s :: shows) →
  Tvdb.id s = Some show_id →
  Tvdb.episodes_official api show_id (Some season_num) = inl e →
  ∃ msg, Windows.get_tvdb_info api show_name season_num
         = inl (Py.DVDError msg).
Proof.
  intros Ht Hs Hid He. unfold Windows.get_tvdb_info, Windows.get_tvdb_token.
  rewrite Ht. simpl. rewrite Hs. simpl. rewrite Hid. simpl. rewrite He.
  simpl. destruct e; by eauto.
Qed.

(** Whatever fails, the caller of the DVD resolver sees a [DVDError]. *)
Lemma get_tvdb_info_raises_DVDError e :
  Windows.get_tvdb_info api show_name season_num = inl e →
  ∃ msg, e = Py.DVDError msg.
Proof.
  unfold Windows.get_tvdb_info, Windows.get_tvdb_token, Py.try_except.
  destruct (Tvdb.login api) as [e0|token]; simpl; [intros [= <-]; by eauto|].
  destruct (_ ≫= _) as [e0|info]; [|done].
  destruct e0; intros [= <-]; by eauto.
Qed.

Lemma max_of_ge x l n : n ∈ x :: l → n ≤ Tvdb.max_of x l.
Proof.
  unfold Tvdb.max_of. induction l as [|y l IH]; simpl.
  - intros ->%list_elem_of_singleton. lia.
  - intros [->|[->|Hn]%elem_of_cons]%elem_of_cons.
    + assert (x ≤ foldr Z.max x l) by (apply IH; left). lia.
    + lia.
    + assert (n ≤ foldr Z.max x l) by (apply IH; by right). lia.
Qed.

Lemma max_of_elem x l : Tvdb.max_of x l ∈ x :: l.
Proof.
  unfold Tvdb.max_of. induction l as [|y l IH]; simpl; [left|].
  destruct (Z.max_spec y (foldr Z.max x l)) as [[_ ->]|[_ ->]].
  - apply elem_of_cons in IH as [->|IH]; [left|right; by right].
  - right. left.
Qed.

(** The episode count of the DVD resolver: the largest episode number, 0
    without one. *)
Lemma get_tvdb_info_episode_count info :
  Windows.get_tvdb_info api show_name season_num = inr info →
  ∃ token s shows show_id episodes,
    Tvdb.login api = inr token ∧
    Tvdb.search api show_name = inr (s :: shows) ∧
    Tvdb.id s = Some show_id ∧
    Tvdb.episodes_official api show_id (Some season_num) = inr episodes ∧
    let numbers := Windows.episode_numbers_of episodes in
    (numbers = [] → Windows.episode_count info = 0) ∧
    (numbers ≠ [] → Windows.episode_count info ∈ numbers) ∧
    (∀ n, n ∈ numbers → n ≤ Windows.episode_count info).
Proof.
  unfold Windows.get_tvdb_info, Windows.get_tvdb_token.
  destruct (Tvdb.login api) as [e|token]; simpl; [done|].
  destruct (Tvdb.search api show_name) as [e|[|s shows]]; simpl;
    [by destruct e|done|].
  destruct (Tvdb.id s) as [show_id|] eqn:Hid; simpl; [|done].
  destruct (Tvdb.episodes_official api show_id (Some season_num))
    as [e|episodes] eqn:He; [simpl; by destruct e|].
  cbn [mbind Py.exn_bind Py.try_except].
  destruct episodes as [|ep episodes]; [done|]. intros Hinfo.
  exists token, s, shows, show_id, (ep :: episodes).
  split; [done|]. split; [done|]. split; [done|]. split; [done|].
  cbn zeta. revert Hinfo.
  generalize (Windows.episode_numbers_of (ep :: episodes)).
  intros numbers [= <-]. cbn [Windows.episode_count].
  destruct numbers as [|n ns].
  - split; [done|]. split; [done|]. by intros n ?%elem_of_nil.
  - split; [done|]. split; [intros _; apply max_of_elem|apply max_of_ge].
Qed.
End ResolverFacts.



Example get_tvdb_episode_info_down :
  Bluray.get_tvdb_episode_info Examples.tvdb_down "Show" 1
  = inr (1800, 3600).
Proof. reflexivity. Qed.

Example get_tvdb_info_no_runtime_example :
  Windows.get_tvdb_info Examples.tvdb_no_runtime "Show" 1
  = inr (Windows.ShowInfo "Show" 1 2 30 30).
Proof. reflexivity. Qed.

(** * Properties of the catalog parsers *)

Section ParseTitlesFacts.
Variable gigabytes : string → Py.exn + Z.

Lemma parse_titles_filter output titles :
  Bluray.parse_titles gigabytes output = inr titles →
  ∃ parsed,
    Bluray.parse_lines gigabytes [] (Py.splitlines output) = inr parsed ∧
    titles = filter (λ kv, 120 ≤ Bluray.duration kv.2) parsed.
Proof.
  unfold Bluray.parse_titles.
  destruct (Bluray.parse_lines _ _ _) as [e|parsed]; simpl; [done|].
  intros [= <-]. by exists parsed.
Qed.

Lemma parse_titles_min_duration output titles k i :
  Bluray.parse_titles gigabytes output = inr titles →
  (k, i) ∈ titles → 120 ≤ Bluray.duration i.
Proof.
  intros (parsed & _ & ->)%parse_titles_filter.
  by intros [? _]%list_elem_of_filter.
Qed.

(** No title of two minutes or more: the parser returns the empty
    dictionary, it does not raise. *)
Lemma parse_titles_no_title output parsed :
  Bluray.parse_lines gigabytes [] (Py.splitlines output) = inr parsed →
  (∀ k i, (k, i) ∈ parsed → Bluray.duration i < 120) →
  Bluray.parse_titles gigabytes output = inr [].
Proof.
  intros Hparsed Hshort. unfold Bluray.parse_titles. rewrite Hparsed. simpl.
  f_equal. apply filter_none. intros [k i] Hin. simpl.
  specialize (Hshort k i Hin). lia.
Qed.

Lemma parse_titles_empty_output :
  Bluray.parse_titles gigabytes "" = inr [].
Proof. reflexivity. Qed.

Lemma main_parse_titles_empty stdout :
  Bluray.parse_titles gigabytes stdout = inr [] →
  Bluray.main_parse_titles gigabytes stdout
  = inl (Py.BluRayError "No valid titles found on disc").
Proof. unfold Bluray.main_parse_titles. by intros ->. Qed.

Lemma main_parse_titles_nonempty stdout titles :
  Bluray.main_parse_titles gigabytes stdout = inr titles →
  titles ≠ [] ∧ Bluray.parse_titles gigabytes stdout = inr titles.
Proof.
  unfold Bluray.main_parse_titles.
  destruct (Bluray.parse_titles _ _) as [e|[|t ts]]; simpl; [done..|].
  by intros [= <-].
Qed.
End ParseTitlesFacts.

Section ScanDiscFacts.
Lemma filter_valid_titles_spec ts k i :
  (k, i) ∈ Windows.filter_valid_titles ts →
  15 ≤ Windows.duration i ∧ Windows.chapters i ≠ [] ∧
  ∀ c, c ∈ Windows.chapters i → 15 < c.2.
Proof.
  unfold Windows.filter_valid_titles.
  intros (kv & Hkv & Hsome)%list_elem_of_omap.
  destruct (Windows.valid_chapters kv.2) as [|c cs] eqn:Hvalid; [done|].
  destruct (Z.leb_spec 15 (Windows.duration kv.2)); [|done].
  injection Hsome as <- <-. simpl. split; [done|]. split; [done|].
  intros c' Hc'. rewrite <- Hvalid in Hc'.
  by apply list_elem_of_filter in Hc' as [? _].
Qed.

Lemma scan_attempts_result engine max_retries attempt remaining ts titles :
  Windows.scan_attempts engine max_retries attempt remaining ts
    = inr titles →
  titles = [] ∨ ∃ ts', titles = Windows.filter_valid_titles ts'.
Proof.
  revert attempt ts.
  induction remaining as [|remaining IH]; intros attempt ts; simpl.
  - intros [= <-]. by left.
  - destruct (engine attempt) as [scan_output| |e].
    + destruct (Windows.filter_valid_titles _) as [|t filtered] eqn:Hf.
      * destruct (S attempt <? max_retries)%nat; [apply IH|done].
      * intros [= <-]. right. eauto.
    + destruct (S attempt <? max_retries)%nat; [apply IH|done].
    + destruct (S attempt <? max_retries)%nat; [apply IH|done].
  Qed.

Lemma scan_disc_min_duration engine max_retries titles k i :
  Windows.scan_disc engine max_retries = inr titles → (k, i) ∈ titles →
  15 ≤ Windows.duration i ∧ Windows.chapters i ≠ [] ∧
  ∀ c, c ∈ Windows.chapters i → 15 < c.2.
Proof.
  intros [->|[ts' ->]]%scan_attempts_result Hin.
  - by apply elem_of_nil in Hin.
  - by eapply filter_valid_titles_spec.
Qed.
End ScanDiscFacts.

(** C6 (as the code has it). Every title [parse_titles] returns from the
    output of the Blu-ray engine has a duration of at least 120 seconds.
    The DVD script's [scan_disc] has another fixed filter: every title it
    returns has a duration of at least 15 seconds and at least one chapter,
    and all its chapters are longer than 15 seconds. *)
Theorem catalog_minimum_duration :
  (∀ gigabytes output titles k i,
     Bluray.parse_titles gigabytes output = inr titles →
     (k, i) ∈ titles → 120 ≤ Bluray.duration i) ∧
  (∀ engine max_retries titles k i,
     Windows.scan_disc engine max_retries = inr titles →
     (k, i) ∈ titles →
     15 ≤ Windows.duration i ∧ Windows.chapters i ≠ [] ∧
     ∀ c, c ∈ Windows.chapters i → 15 < c.2).
Proof.
  split.
  - apply parse_titles_min_duration.
  - apply scan_disc_min_duration.
Qed.

(** The DVD scan of one title of one minute returns that title. *)
Lemma scan_disc_short_title :
  Windows.scan_disc (λ _, Windows.Completed Examples.short_title_scan) 3
    = inr [(1, Windows.Title 60 [(1, 60)] [] [])] ∧
  ¬ (∀ engine max_retries titles k i,
       Windows.scan_disc engine max_retries = inr titles →
       (k, i) ∈ titles → 120 ≤ Windows.duration i).
Proof.
  assert (Windows.scan_disc
            (λ _, Windows.Completed Examples.short_title_scan) 3
          = inr [(1, Windows.Title 60 [(1, 60)] [] [])]) as Hscan
    by (vm_compute; reflexivity).
  split; [done|]. intros Hmin.
  specialize (Hmin _ _ _ 1 (Windows.Title 60 [(1, 60)] [] []) Hscan).
  simpl in Hmin. assert (120 ≤ 60) by (apply Hmin; left). lia.
Qed.

Example parse_titles_short_title :
  Bluray.parse_titles (λ _, inl Py.ValueError) Examples.short_title_info
  = inr [].
Proof. vm_compute. reflexivity. Qed.

(** C7 (as the code has it). [parse_titles] does not raise when the
    output is empty or no title reaches two minutes: it returns the empty
    dictionary. The caller [main] turns an empty dictionary into the error
    [No valid titles found on disc], and goes on only with titles. *)
Theorem parse_titles_empty_result :
  (∀ gigabytes, Bluray.parse_titles gigabytes "" = inr []) ∧
  (∀ gigabytes output parsed,
     Bluray.parse_lines gigabytes [] (Py.splitlines output) = inr parsed →
     (∀ k i, (k, i) ∈ parsed → Bluray.duration i < 120) →
     Bluray.parse_titles gigabytes output = inr []) ∧
  (∀ gigabytes stdout,
     Bluray.parse_titles gigabytes stdout = inr [] →
     Bluray.main_parse_titles gigabytes stdout
     = inl (Py.BluRayError "No valid titles found on disc")) ∧
  (∀ gigabytes stdout titles,
     Bluray.main_parse_titles gigabytes stdout = inr titles →
     titles ≠ [] ∧ Bluray.parse_titles gigabytes stdout = inr titles).
Proof.
  split; [|split; [|split]].
  - apply parse_titles_empty_output.
  - apply parse_titles_no_title.
  - apply main_parse_titles_empty.
  - apply main_parse_titles_nonempty.
Qed.

(** On the empty output, and on an output with one title of ninety
    seconds, the parser returns the empty dictionary instead of an
    error. *)
Lemma parse_titles_returns_empty :
  Bluray.parse_titles (λ _, inl Py.ValueError) "" = inr [] ∧
  Bluray.parse_titles (λ _, inl Py.ValueError) Examples.short_title_info
    = inr [] ∧
  ¬ (∃ e, Bluray.parse_titles (λ _, inl Py.ValueError) "" = inl e).
Proof.
  split; [done|]. split; [by vm_compute|]. by intros [e He].
Qed.

(** * Properties of the rip verification *)

Section RipFacts.
(** The DVD script: an attempt succeeds only with exit code 0 and an
    output file of more than a million bytes. *)
Lemma run_attempt_verified can_retry a b :
  Windows.run_attempt can_retry a = inr b →
  b = true ∧ Windows.returncode a = 0 ∧
  ∃ file_size, Windows.output_size a = Some file_size ∧
    1000000 < file_size.
Proof.
  unfold Windows.run_attempt.
  destruct (Windows.started a) as [e|[]]; simpl; [done|].
  destruct (Windows.read_lines _ _) as [e|[]]; simpl; [done|].
  destruct (Windows.wait_timed_out a); [done|].
  destruct (Z.eqb_spec (Windows.returncode a) 0) as [Hrc|]; [|done].
  destruct (Windows.output_size a) as [file_size|]; [|done].
  destruct (Z.ltb_spec 1000000 file_size); [|done].
  intros [= <-]. eauto.
Qed.

Lemma rip_title_verified prepared gpu_probe engine b :
  Windows.rip_title prepared gpu_probe engine = inr b →
  b = true ∧
  ∃ attempt file_size, (attempt < Windows.max_retries)%nat ∧
    Windows.returncode (engine attempt) = 0 ∧
    Windows.output_size (engine attempt) = Some file_size ∧
    1000000 < file_size.
Proof.
  assert (∀ attempt c, (attempt < 3)%nat →
            Windows.run_attempt c (engine attempt) = inr b →
            b = true ∧
            ∃ attempt file_size, (attempt < Windows.max_retries)%nat ∧
              Windows.returncode (engine attempt) = 0 ∧
              Windows.output_size (engine attempt) = Some file_size ∧
              1000000 < file_size) as Hrun.
  { intros attempt c Hlt (-> & Hrc & size & Hsize & Hbig)%run_attempt_verified.
    split; [done|]. by exists attempt, size. }
  assert (Windows.rip_attempts engine 0 Windows.max_retries = inr b →
          b = true ∧
          ∃ attempt file_size, (attempt < Windows.max_retries)%nat ∧
            Windows.returncode (engine attempt) = 0 ∧
            Windows.output_size (engine attempt) = Some file_size ∧
            1000000 < file_size) as Hloop.
  { unfold Windows.max_retries. simpl. unfold Windows.max_retries. simpl.
    destruct (Windows.run_attempt _ (engine 0%nat)) as [e0|b0] eqn:H0.
    2: { intros [= Hb]. rewrite Hb in H0. eapply (Hrun 0%nat); [lia|done]. }
    destruct e0; try done.
    destruct (Windows.removed (engine 0%nat)) as [?|[]]; simpl; [done|].
    destruct (Windows.run_attempt _ (engine 1%nat)) as [e1|b1] eqn:H1.
    2: { intros [= Hb]. rewrite Hb in H1. eapply (Hrun 1%nat); [lia|done]. }
    destruct e1; try done.
    destruct (Windows.removed (engine 1%nat)) as [?|[]]; simpl; [done|].
    destruct (Windows.run_attempt _ (engine 2%nat)) as [e2|b2] eqn:H2.
    2: { intros [= Hb]. rewrite Hb in H2. eapply (Hrun 2%nat); [lia|done]. }
    by destruct e2. }
  unfold Windows.rip_title. destruct prepared as [e|[]]; simpl; [done|].
  destruct gpu_probe as [e|[]]; [|done].
  destruct e; done.
Qed.

(** The Blu-ray script: the message depends only on whether the engine
    started, a recent [.mkv] file is there, and the rename succeeds. *)
Lemma rip_episode_success start_time run new_file :
  Bluray.started run = true → Bluray.rename_ok run = true →
  Bluray.find_latest_mkv (Bluray.directory_after run) start_time
    = Some new_file →
  Bluray.rip_episode start_time run = Bluray.SuccessfullyRipped.
Proof. unfold Bluray.rip_episode. by intros -> -> ->. Qed.
End RipFacts.

(** C9 (the code departs from the specification). The Blu-ray script
    reports an episode as successfully ripped although the engine exited
    with code 1 and the file it left is empty: the loop in
    [process_tv_show] checks neither the exit code nor the size, and
    [verify_ripped_file], which would reject the file, is never called. *)
Theorem rip_episode_reports_unverified_success :
  Bluray.rip_episode 100 Examples.failed_run = Bluray.SuccessfullyRipped ∧
  Bluray.returncode Examples.failed_run = 1 ∧
  Bluray.st_size <$> Bluray.directory_after Examples.failed_run = [0] ∧
  Bluray.verify_ripped_file (inr 0) (inr 0) = false.
Proof. by vm_compute. Qed.

(** * Further properties of the two scripts

    The properties below cover functions around those of the sections
    above: the scan and the rip of the DVD script, its compilation filter,
    the numbering and the selection of [process_tv_show] in the Blu-ray
    script, and the folders of a show. *)

(** ** Dictionaries *)

Section DictInvariants.
Context {V : Type}.

Lemma dict_set_keys (d : list (Z * V)) k v :
  Dict.keys (Dict.set d k v)
  = if bool_decide (k ∈ Dict.keys d) then Dict.keys d else Dict.keys d ++ [k].
Proof.
  unfold Dict.keys. induction d as [|[k' v'] d IH]; csimpl; [done|].
  destruct (Z.eqb_spec k' k) as [->|Hne]; csimpl.
  - rewrite bool_decide_eq_true_2 by left. done.
  - rewrite IH. destruct (decide (k ∈ d.*1)) as [Hin|Hnin].
    + rewrite !bool_decide_eq_true_2; [done|by right|done].
    + rewrite !bool_decide_eq_false_2; [done| |done].
      intros [?|?]%elem_of_cons; congruence.
Qed.

Lemma dict_set_wf (d : list (Z * V)) k v : Dict.wf d → Dict.wf (Dict.set d k v).
Proof.
  unfold Dict.wf. rewrite dict_set_keys. intros Hnd.
  case_bool_decide as Hin; [done|].
  apply NoDup_app. split; [done|]. split; [|apply NoDup_singleton].
  intros x Hx ->%list_elem_of_singleton. done.
Qed.

Lemma elem_of_dict_set (d : list (Z * V)) k v k' v' :
  (k', v') ∈ Dict.set d k v → (k' = k ∧ v' = v) ∨ (k', v') ∈ d.
Proof.
  induction d as [|[k0 v0] d IH]; simpl.
  - intros [= -> ->]%list_elem_of_singleton. by left.
  - destruct (Z.eqb_spec k0 k) as [->|Hne].
    + intros [[= -> ->]|Hin]%elem_of_cons; [by left|]. right. by right.
    + intros [[= -> ->]|Hin]%elem_of_cons; [right; left|].
      destruct (IH Hin) as [?|?]; [by left|]. right. by right.
Qed.

Lemma dict_get_Some_elem (d : list (Z * V)) k v :
  Dict.get d k = Some v → (k, v) ∈ d.
Proof.
  induction d as [|[k0 v0] d IH]; simpl; [done|].
  destruct (Z.eqb_spec k0 k) as [->|Hne].
  - intros [= ->]. left.
  - intros ?. right. by apply IH.
Qed.

Lemma elem_of_dict_set_new (d : list (Z * V)) k v : (k, v) ∈ Dict.set d k v.
Proof.
  induction d as [|[k0 v0] d IH]; simpl; [apply list_elem_of_here|].
  destruct (Z.eqb_spec k0 k) as [->|Hne];
    [apply list_elem_of_here|by apply list_elem_of_further].
Qed.

Lemma elem_of_dict_set_ne (d : list (Z * V)) k v k' v' :
  k' ≠ k → (k', v') ∈ d → (k', v') ∈ Dict.set d k v.
Proof.
  intros Hne. induction d as [|[k0 v0] d IH]; simpl;
    [by intros ?%elem_of_nil|].
  destruct (Z.eqb_spec k0 k) as [->|Hne0].
  - intros [[= ? ?]|Hin]%elem_of_cons; [congruence|by right].
  - intros [Heq|Hin]%elem_of_cons; [rewrite Heq; left|right; by apply IH].
Qed.

Lemma filter_wf (P : Z * V → Prop) `{∀ x, Decision (P x)} (d : list (Z * V)) :
  Dict.wf d → Dict.wf (filter P d).
Proof.
  unfold Dict.wf, Dict.keys. intros Hnd.
  eapply sublist_NoDup; [exact Hnd|]. apply fmap_sublist, sublist_filter.
Qed.
End DictInvariants.

(** ** The scan of the DVD script *)

Section ScanDiscInvariants.
Lemma update_title_inv ts t f :
  t ≠ 0 → Windows.scan_inv ts → Windows.scan_inv (Windows.update_title ts t f).
Proof.
  intros Ht [Hwf H0]. unfold Windows.update_title.
  destruct (Dict.get ts t) as [info|]; [|done]. split.
  - by apply dict_set_wf.
  - intros i [[? _]|Hin]%elem_of_dict_set; [congruence|by apply H0].
Qed.

Lemma scan_line_inv st raw :
  Windows.scan_inv (Windows.titles st) →
  Windows.scan_inv (Windows.titles (Windows.scan_line st raw)).
Proof.
  intros Hinv. unfold Windows.scan_line.
  set (header := if Py.startswith _ _ then _ else _).
  assert (Windows.scan_inv (Windows.titles
            match Windows.current_title st with
            | Some t => if t =? 0 then st
                        else Windows.scan_line_in_title st t (Py.strip raw)
            | None => st
            end)) as Hrest.
  { destruct (Windows.current_title st) as [t|]; [|done].
    destruct (Z.eqb_spec t 0) as [|Ht]; [done|].
    unfold Windows.scan_line_in_title.
    repeat (match goal with
            | |- context [if ?b then _ else _] => destruct b
            | |- context [match ?x with _ => _ end] => destruct x
            end; simpl; try done; try by apply update_title_inv). }
  destruct header as [[|n [|? ?]]|]; try done.
  simpl. destruct Hinv as [Hwf H0]. split.
  - by apply dict_set_wf.
  - intros i [[_ ->]|Hin]%elem_of_dict_set; [done|by apply H0].
Qed.

Lemma parse_scan_output_inv ts scan_output :
  Windows.scan_inv ts →
  Windows.scan_inv (Windows.parse_scan_output ts scan_output).
Proof.
  intros Hinv. unfold Windows.parse_scan_output.
  assert (∀ lines st, Windows.scan_inv (Windows.titles st) →
            Windows.scan_inv
              (Windows.titles (fold_left Windows.scan_line lines st)))
    as Hfold.
  { induction lines as [|l lines IH]; intros st Hst; simpl; [done|].
    by apply IH, scan_line_inv. }
  by apply Hfold.
Qed.

Lemma filter_valid_titles_keys ts :
  Dict.keys (Windows.filter_valid_titles ts) `sublist_of` Dict.keys ts.
Proof.
  unfold Dict.keys, Windows.filter_valid_titles.
  induction ts as [|[k i] ts IH]; csimpl; [done|].
  destruct (Windows.valid_chapters i) as [|c cs]; csimpl.
  - by apply sublist_cons.
  - destruct (15 <=? Windows.duration i); csimpl.
    + by apply sublist_skip.
    + by apply sublist_cons.
Qed.

Lemma filter_valid_titles_inv ts :
  Windows.scan_inv ts →
  Dict.wf (Windows.filter_valid_titles ts) ∧
  0 ∉ Dict.keys (Windows.filter_valid_titles ts).
Proof.
  intros [Hwf H0]. split.
  - eapply sublist_NoDup; [exact Hwf|apply filter_valid_titles_keys].
  - unfold Dict.keys. intros ([k i] & Hk & Hin)%list_elem_of_fmap.
    simpl in Hk. subst k.
    unfold Windows.filter_valid_titles in Hin.
    apply list_elem_of_omap in Hin as ([k0 i0] & Hin0 & Hsome). simpl in Hsome.
    destruct (Windows.valid_chapters i0) as [|c cs] eqn:Hvalid; [done|].
    destruct (Z.leb_spec 15 (Windows.duration i0)); [|done].
    injection Hsome as -> _. apply H0 in Hin0 as [Hd _]. lia.
Qed.

Lemma scan_attempts_inv engine max_retries attempt remaining ts titles :
  Windows.scan_inv ts →
  Windows.scan_attempts engine max_retries attempt remaining ts = inr titles →
  Dict.wf titles ∧ 0 ∉ Dict.keys titles.
Proof.
  revert attempt ts.
  induction remaining as [|remaining IH]; intros attempt ts Hinv; simpl.
  - intros [= <-]. split; [apply NoDup_nil_2|apply not_elem_of_nil].
  - destruct (engine attempt) as [scan_output| |e].
    + pose proof (parse_scan_output_inv ts scan_output Hinv) as Hinv'.
      destruct (Windows.filter_valid_titles _) as [|t filtered] eqn:Hf.
      * destruct (S attempt <? max_retries)%nat; [by apply IH|done].
      * intros [= <-]. rewrite <- Hf. by apply filter_valid_titles_inv.
    + destruct (S attempt <? max_retries)%nat; [by apply IH|done].
    + destruct (S attempt <? max_retries)%nat; [by apply IH|done].
Qed.

Lemma scan_attempts_outcome engine max_retries attempt remaining ts :
  (attempt + remaining = max_retries)%nat → (0 < remaining)%nat →
  (∃ t titles,
     Windows.scan_attempts engine max_retries attempt remaining ts
     = inr (t :: titles)) ∨
  (∃ msg,
     Windows.scan_attempts engine max_retries attempt remaining ts
     = inl (Py.DVDError msg)).
Proof.
  revert attempt ts.
  induction remaining as [|remaining IH]; intros attempt ts Hsum Hpos; [lia|].
  simpl.
  destruct (Nat.ltb_spec (S attempt) max_retries) as [Hlt|Hge].
  - assert (∀ ts',
      (∃ t titles,
         Windows.scan_attempts engine max_retries (S attempt) remaining ts'
         = inr (t :: titles)) ∨
      (∃ msg,
         Windows.scan_attempts engine max_retries (S attempt) remaining ts'
         = inl (Py.DVDError msg))) as Hnext by (intros; apply IH; lia).
    destruct (engine attempt) as [scan_output| |e]; [|done..].
    destruct (Windows.filter_valid_titles _) as [|t filtered]; [done|].
    left. eauto.
  - destruct (engine attempt) as [scan_output| |e]; [|right; eauto..].
    destruct (Windows.filter_valid_titles _) as [|t filtered];
      [right|left]; eauto.
Qed.
End ScanDiscInvariants.

(** X1. [scan_disc] returns the empty dictionary only when it is given no
    attempt; with at least one attempt it returns a dictionary that is not
    empty or raises a [DVDError]. Hence [verify_handbrake_can_read], which
    makes one attempt, answers [True] exactly when that attempt completes
    and its output holds a valid title. *)
Theorem scan_disc_outcome :
  (∀ engine, Windows.scan_disc engine 0 = inr []) ∧
  (∀ engine max_retries, (0 < max_retries)%nat →
     (∃ t titles, Windows.scan_disc engine max_retries = inr (t :: titles)) ∨
     (∃ msg, Windows.scan_disc engine max_retries = inl (Py.DVDError msg))) ∧
  (∀ engine,
     Windows.verify_handbrake_can_read engine = true ↔
     ∃ scan_output, engine 0%nat = Windows.Completed scan_output ∧
       Windows.filter_valid_titles
         (Windows.parse_scan_output [] scan_output) ≠ []).
Proof.
  split; [done|]. split.
  - intros engine n Hn. apply scan_attempts_outcome; lia.
  - intros engine. unfold Windows.verify_handbrake_can_read, Windows.scan_disc.
    simpl. destruct (engine 0%nat) as [scan_output| |e].
    + destruct (Windows.filter_valid_titles _) as [|t filtered] eqn:Hf.
      * split; [done|]. intros (out & [= <-] & Hne). congruence.
      * split; [|done]. intros _. exists scan_output. split; [done|].
        by rewrite Hf.
    + split; [done|]. by intros (out & ? & _).
    + split; [done|]. by intros (out & ? & _).
Qed.

(** X2. The dictionary [scan_disc] returns has every title number once
    and never holds title 0: the loop takes a current title of 0 for no
    title at all, so title 0 keeps a duration of 0 and is filtered out. *)
Theorem scan_disc_titles_wf engine max_retries titles :
  Windows.scan_disc engine max_retries = inr titles →
  Dict.wf titles ∧ 0 ∉ Dict.keys titles.
Proof.
  apply scan_attempts_inv. split; [apply NoDup_nil_2|].
  by intros i ?%elem_of_nil.
Qed.

(** The scan of the one-minute title. *)
Lemma scan_disc_titles_wf_example :
  Dict.wf [(1, Windows.Title 60 [(1, 60)] [] [])] ∧
  0 ∉ Dict.keys [(1, Windows.Title 60 [(1, 60)] [] [])].
Proof.
  apply (scan_disc_titles_wf
           (λ _, Windows.Completed Examples.short_title_scan) 3).
  vm_compute. reflexivity.
Defined.

(** ** The rip of the DVD script *)

Section RipTitleFacts.
Lemma run_attempt_true can_retry a :
  Windows.run_attempt can_retry a = inr true ↔ Windows.attempt_ok can_retry a.
Proof.
  unfold Windows.run_attempt, Windows.attempt_ok.
  destruct (Windows.started a) as [e|[]]; simpl.
  { split; [done|]. by intros [? _]. }
  destruct (Windows.read_lines _ _) as [e|[]]; simpl.
  { split; [done|]. by intros (_ & ? & _). }
  destruct (Windows.wait_timed_out a).
  { split; [done|]. by intros (_ & _ & ? & _). }
  destruct (Z.eqb_spec (Windows.returncode a) 0) as [Hrc|Hrc].
  2: { split; [done|]. by intros (_ & _ & _ & ? & _). }
  destruct (Windows.output_size a) as [file_size|].
  2: { split; [done|]. by intros (_ & _ & _ & _ & ? & ? & _). }
  destruct (Z.ltb_spec 1000000 file_size).
  - split; [|done]. intros _. by eauto 10.
  - split; [done|]. intros (_ & _ & _ & _ & ? & [= <-] & ?). lia.
Qed.

Lemma run_attempt_not_false can_retry a :
  Windows.run_attempt can_retry a ≠ inr false.
Proof. by intros [? _]%run_attempt_verified. Qed.

(** The attempts from [attempt] on, when the loop has three rounds. *)
Lemma rip_attempts_true engine attempt remaining :
  (attempt + remaining = Windows.max_retries)%nat →
  Windows.rip_attempts engine attempt remaining = inr true ↔
  ∃ k, (attempt ≤ k < Windows.max_retries)%nat ∧
    Windows.attempt_ok (S k <? Windows.max_retries)%nat (engine k) ∧
    ∀ j, (attempt ≤ j < k)%nat → Windows.attempt_retried (engine j).
Proof.
  revert attempt.
  induction remaining as [|remaining IH]; intros attempt Hsum.
  { simpl. split; [done|]. intros (k & ? & _). lia. }
  cbn [Windows.rip_attempts].
  set (can_retry := (S attempt <? Windows.max_retries)%nat).
  assert (∀ k, (attempt < k < Windows.max_retries)%nat →
               can_retry = true) as Hlater.
  { intros k Hk. apply Nat.ltb_lt. lia. }
  assert (∀ k, (attempt ≤ k < Windows.max_retries)%nat →
            Windows.attempt_ok (S k <? Windows.max_retries)%nat (engine k) →
            (∀ j, (attempt ≤ j < k)%nat →
                  Windows.attempt_retried (engine j)) →
            Windows.run_attempt can_retry (engine attempt) = inr true ∨
            k ≠ attempt ∧ can_retry = true ∧
            Windows.removed (engine attempt) = inr () ∧
            ∃ msg, Windows.run_attempt can_retry (engine attempt)
                   = inl (Py.DVDError msg)) as Hcases.
  { intros k Hk Hok Hearlier.
    destruct (decide (k = attempt)) as [->|Hne].
    - left. by apply run_attempt_true.
    - right. split; [done|].
      assert (can_retry = true) as Hc by (apply (Hlater k); lia).
      destruct (Hearlier attempt) as [[msg Hrun] Hrm]; [lia|].
      rewrite Hc. by eauto. }
  assert (Windows.rip_attempts engine (S attempt) remaining = inr true ↔
          ∃ k, (attempt ≤ k < Windows.max_retries)%nat ∧ k ≠ attempt ∧
            Windows.attempt_ok (S k <? Windows.max_retries)%nat (engine k) ∧
            ∀ j, (S attempt ≤ j < k)%nat →
                 Windows.attempt_retried (engine j)) as Hrest.
  { rewrite IH by lia. split.
    - intros (k & ? & ? & ?). exists k. split; [lia|]. split; [lia|done].
    - intros (k & ? & ? & ? & ?). exists k. split; [lia|done]. }
  destruct (Windows.run_attempt can_retry (engine attempt))
    as [e|b] eqn:Hrun.
  2: { split.
       - intros [= ->]. exists attempt. split; [lia|].
         split; [by apply run_attempt_true|]. intros; lia.
       - intros (k & Hk & Hok & Hearlier).
         by destruct (Hcases k Hk Hok Hearlier)
           as [?|(_ & _ & _ & msg & ?)]. }
  assert (∀ r : Py.exn + bool,
            (∀ msg, e ≠ Py.DVDError msg) ∨ can_retry = false ∨
            (∃ e', Windows.removed (engine attempt) = inl e') →
            (∀ b, r ≠ inr b) →
            r = inr true ↔
            ∃ k, (attempt ≤ k < Windows.max_retries)%nat ∧
              Windows.attempt_ok (S k <? Windows.max_retries)%nat
                (engine k) ∧
              ∀ j, (attempt ≤ j < k)%nat →
                   Windows.attempt_retried (engine j)) as Hstop.
  { intros r Hwhy Hr. split; [by intros ?%Hr|].
    intros (k & Hk & Hok & Hearlier).
    destruct (Hcases k Hk Hok Hearlier)
      as [?|(_ & Hc & Hrm & msg & [= ->])]; [done|].
    destruct Hwhy as [Hno|[Hno|[e' He']]];
      [by destruct (Hno msg)|congruence|congruence]. }
  destruct e; try (apply Hstop; [by left|done]).
  destruct can_retry eqn:Hc; [|apply Hstop; [by right; left|done]].
  destruct (Windows.removed (engine attempt)) as [e'|[]] eqn:Hrm; simpl.
  { apply Hstop; [right; right; by eauto|done]. }
  rewrite Hrest. split.
  - intros (k & Hk & Hne & Hok & Hearlier). exists k.
    split; [done|]. split; [done|]. intros j Hj.
    destruct (decide (j = attempt)) as [->|?]; [|apply Hearlier; lia].
    split; [by eauto|done].
  - intros (k & Hk & Hok & Hearlier).
    destruct (Hcases k Hk Hok Hearlier) as [?|(Hne & _)]; [done|].
    exists k. split; [done|]. split; [done|]. split; [done|].
    intros j Hj. apply Hearlier. lia.
Qed.

Lemma rip_attempts_not_false engine attempt remaining :
  (attempt + remaining = Windows.max_retries)%nat → (0 < remaining)%nat →
  Windows.rip_attempts engine attempt remaining ≠ inr false.
Proof.
  revert attempt.
  induction remaining as [|remaining IH]; intros attempt Hsum Hpos; [lia|].
  cbn [Windows.rip_attempts].
  destruct (Windows.run_attempt _ (engine attempt)) as [e|b] eqn:Hrun.
  2: { intros [= ->]. by apply run_attempt_not_false in Hrun. }
  destruct e; try done.
  destruct (Nat.ltb_spec (S attempt) Windows.max_retries); [|done].
  destruct (Windows.removed (engine attempt)) as [e'|[]]; simpl; [done|].
  apply IH; lia.
Qed.

(** An exception that is no [DVDError] ends the loop at once. *)
Lemma rip_attempts_propagates engine attempt remaining k e :
  (attempt + remaining = Windows.max_retries)%nat →
  (attempt ≤ k < Windows.max_retries)%nat →
  (∀ j, (attempt ≤ j < k)%nat → Windows.attempt_retried (engine j)) →
  Windows.run_attempt (S k <? Windows.max_retries)%nat (engine k) = inl e →
  (∀ msg, e ≠ Py.DVDError msg) →
  Windows.rip_attempts engine attempt remaining = inl e.
Proof.
  revert attempt.
  induction remaining as [|remaining IH];
    intros attempt Hsum Hk Hearlier Hrun Hno; [lia|].
  cbn [Windows.rip_attempts].
  destruct (decide (k = attempt)) as [->|Hne].
  { rewrite Hrun. destruct e; try done. by destruct (Hno msg). }
  destruct (Hearlier attempt) as [[msg Hfail] Hrm]; [lia|].
  assert ((S attempt <? Windows.max_retries)%nat = true) as ->
    by (apply Nat.ltb_lt; lia).
  rewrite Hfail, Hrm. simpl. apply IH; [lia|lia| |done|done].
  intros j Hj. apply Hearlier. lia.
Qed.
End RipTitleFacts.

(** X3. [rip_title] returns [True] exactly when its preparation succeeds,
    the GPU probe succeeds or fails in a way the function catches, and one
    of the three attempts passes every check (the encoder starts, no line
    raises, no stall while an attempt is left, no timeout, exit code 0, an
    output file of more than a million bytes) after each attempt before it
    has failed with a [DVDError] and its output file has been removed. It
    never returns [False]. An exception other than [DVDError] that an
    attempt raises (the [IndexError] of the progress parser, the error of
    an encoder that does not start) leaves [rip_title] as it is, without
    another attempt. *)
Theorem rip_title_outcome prepared gpu_probe engine :
  (Windows.rip_title prepared gpu_probe engine = inr true ↔
   prepared = inr () ∧ Windows.probe_caught gpu_probe ∧
   ∃ attempt, (attempt < Windows.max_retries)%nat ∧
     Windows.attempt_ok (S attempt <? Windows.max_retries)%nat
       (engine attempt) ∧
     ∀ earlier, (earlier < attempt)%nat →
       Windows.attempt_retried (engine earlier)) ∧
  Windows.rip_title prepared gpu_probe engine ≠ inr false ∧
  (∀ attempt e, (attempt < Windows.max_retries)%nat →
     prepared = inr () → Windows.probe_caught gpu_probe →
     (∀ earlier, (earlier < attempt)%nat →
        Windows.attempt_retried (engine earlier)) →
     Windows.run_attempt (S attempt <? Windows.max_retries)%nat
       (engine attempt) = inl e →
     (∀ msg, e ≠ Py.DVDError msg) →
     Windows.rip_title prepared gpu_probe engine = inl e).
Proof.
  assert (Windows.probe_caught gpu_probe →
          Windows.rip_title (inr ()) gpu_probe engine
          = Windows.rip_attempts engine 0 Windows.max_retries) as Hcaught.
  { unfold Windows.rip_title. simpl. by destruct gpu_probe as [[]|[]]. }
  assert (¬ Windows.probe_caught gpu_probe →
          ∃ e, Windows.rip_title (inr ()) gpu_probe engine = inl e)
    as Hprobe.
  { unfold Windows.rip_title. simpl.
    destruct gpu_probe as [[]|[]]; simpl; intros Hn; by eauto. }
  assert (Windows.probe_caught gpu_probe ∨
          ¬ Windows.probe_caught gpu_probe) as Hdec.
  { destruct gpu_probe as [[]|[]]; simpl; by auto. }
  split; [|split].
  - destruct prepared as [e|[]]; [split; [done|by intros [? _]]|].
    destruct Hdec as [Hc|Hn].
    + rewrite Hcaught, rip_attempts_true by done. split.
      * intros (k & Hk & Hok & Hearlier). split; [done|]. split; [done|].
        exists k. split; [lia|]. split; [done|].
        intros j Hj. apply Hearlier. lia.
      * intros (_ & _ & k & Hk & Hok & Hearlier). exists k.
        split; [lia|]. split; [done|]. intros j Hj. apply Hearlier. lia.
    + destruct (Hprobe Hn) as [e ->]. split; [done|]. by intros (_ & ? & _).
  - destruct prepared as [e|[]]; [done|].
    destruct Hdec as [Hc|Hn].
    + rewrite Hcaught by done. apply rip_attempts_not_false; [done|].
      unfold Windows.max_retries. lia.
    + by destruct (Hprobe Hn) as [e ->].
  - intros attempt e Hlt -> Hc Hearlier Hrun Hno. rewrite Hcaught by done.
    apply (rip_attempts_propagates engine 0 Windows.max_retries attempt);
      [done|lia| |done|done].
    intros j Hj. apply Hearlier. lia.
Qed.

(** ** The readiness check of the DVD script *)

Section EnsureDeviceReadyFacts.
Lemma ensure_device_ready_from_true probes attempt remaining :
  Windows.ensure_device_ready_from probes attempt remaining = true ↔
  ∃ round, (attempt ≤ round < attempt + remaining)%nat ∧
    (Windows.access_before (probes round) = true ∧
     Windows.verify_handbrake_can_read
       (Windows.read_test (probes round)) = true ∨
     (∃ u, Windows.reset (probes round) = inr u) ∧
     Windows.access_after (probes round) = true).
Proof.
  revert attempt. induction remaining as [|remaining IH]; intros attempt;
    simpl.
  { split; [done|]. intros (round & ? & _). lia. }
  destruct (Windows.access_before (probes attempt) &&
            Windows.verify_handbrake_can_read
              (Windows.read_test (probes attempt))) eqn:Hfirst.
  { split; [|done]. intros _. exists attempt. split; [lia|].
    left. by apply andb_true_iff. }
  assert (∀ b : bool,
            (b = true ↔
             ∃ round, (S attempt ≤ round < S attempt + remaining)%nat ∧
               (Windows.access_before (probes round) = true ∧
                Windows.verify_handbrake_can_read
                  (Windows.read_test (probes round)) = true ∨
                (∃ u, Windows.reset (probes round) = inr u) ∧
                Windows.access_after (probes round) = true)) →
            ¬ ((∃ u, Windows.reset (probes attempt) = inr u) ∧
               Windows.access_after (probes attempt) = true) →
            (b = true ↔
             ∃ round, (attempt ≤ round < attempt + S remaining)%nat ∧
               (Windows.access_before (probes round) = true ∧
                Windows.verify_handbrake_can_read
                  (Windows.read_test (probes round)) = true ∨
                (∃ u, Windows.reset (probes round) = inr u) ∧
                Windows.access_after (probes round) = true))) as Hnext.
  { intros b Hb Hno. rewrite Hb. split.
    - intros (round & ? & ?). exists round. split; [lia|done].
    - intros (round & Hround & Hok).
      destruct (decide (round = attempt)) as [->|Hne].
      + destruct Hok as [[H1 H2]|Hok]; [|done].
        rewrite H1, H2 in Hfirst. done.
      + exists round. split; [lia|done]. }
  destruct (Windows.reset (probes attempt)) as [e|u] eqn:Hreset.
  { apply Hnext; [apply IH|]. by intros [[u ?] _]. }
  destruct (Windows.access_after (probes attempt)) eqn:Hafter.
  - split; [|done]. intros _. exists attempt. split; [lia|].
    right. eauto.
  - apply Hnext; [apply IH|]. by intros [_ ?].
Qed.
End EnsureDeviceReadyFacts.

(** X4. [ensure_device_ready] answers [True] exactly when, in one of its
    rounds, the access check and the read test both succeed, or the reset
    of the drive does not raise and the access check after it succeeds;
    the read test is not repeated after a reset. *)
Theorem ensure_device_ready_spec probes max_retries :
  Windows.ensure_device_ready probes max_retries = true ↔
  ∃ round, (round < max_retries)%nat ∧
    (Windows.access_before (probes round) = true ∧
     Windows.verify_handbrake_can_read
       (Windows.read_test (probes round)) = true ∨
     (∃ u, Windows.reset (probes round) = inr u) ∧
     Windows.access_after (probes round) = true).
Proof.
  unfold Windows.ensure_device_ready.
  rewrite ensure_device_ready_from_true. split.
  - intros (round & ? & ?). exists round. split; [lia|done].
  - intros (round & ? & ?). exists round. split; [lia|done].
Qed.

(** ** The compilation filter of the DVD script *)

Section PyIntFacts.
Lemma int_error s e : Py.int s = inl e → e = Py.ValueError.
Proof.
  unfold Py.int.
  destruct (match Py.strip_with Py.is_int_space s with
            | String "-" r => (true, r)
            | String "+" r => (false, r)
            | _ => (false, Py.strip_with Py.is_int_space s)
            end) as [negative body].
  destruct (_ ≫= _); [done|]. by intros [= <-].
Qed.

Lemma int_pair_error sep s e : Py.int_pair sep s = inl e → e = Py.ValueError.
Proof.
  unfold Py.int_pair.
  destruct (Py.split sep s) as [|a [|b [|c l]]]; try by intros [= <-].
  destruct (Py.int a) as [ea|x] eqn:Ha; simpl.
  { intros [= <-]. by eapply int_error. }
  destruct (Py.int b) as [eb|y] eqn:Hb; simpl; [|done].
  intros [= <-]. by eapply int_error.
Qed.
End PyIntFacts.

Section FilterCompilationsFacts.
Variable sample_chapter : Z → Z → Z → option string * Z.

Local Abbreviation chapter_fingerprint :=
  (Windows.chapter_fingerprint sample_chapter).
Local Abbreviation chapters_inv := (Windows.chapters_inv sample_chapter).
Local Abbreviation chosen_inv := (Windows.chosen_inv sample_chapter).

Lemma compilation_titles_elem titles ranges k i :
  (k, i) ∈ Windows.compilation_titles titles ranges ↔
  ∃ i0, (k, i0) ∈ titles ∧ 5400 < Windows.duration i0 ∧
    Windows.episode_chapters ranges i0 ≠ [] ∧
    i = Windows.Title (Windows.duration i0)
          (Windows.episode_chapters ranges i0)
          (Windows.audio i0) (Windows.subtitles i0).
Proof.
  unfold Windows.compilation_titles. rewrite list_elem_of_omap. split.
  - intros ([k0 i0] & Hin & Hsome). simpl in Hsome.
    destruct (Z.ltb_spec 5400 (Windows.duration i0)); [|done].
    destruct (Windows.episode_chapters ranges i0) as [|c cs] eqn:Hcs;
      [done|].
    injection Hsome as -> <-. exists i0. by rewrite Hcs.
  - intros (i0 & Hin & Hlong & Hne & ->). exists (k, i0). split; [done|].
    simpl. destruct (Z.ltb_spec 5400 (Windows.duration i0)); [|lia].
    by destruct (Windows.episode_chapters ranges i0).
Qed.

Lemma compilation_titles_keys titles ranges :
  Dict.keys (Windows.compilation_titles titles ranges)
    `sublist_of` Dict.keys titles.
Proof.
  unfold Dict.keys, Windows.compilation_titles.
  induction titles as [|[k i] ts IH]; csimpl; [done|].
  destruct (5400 <? Windows.duration i); csimpl;
    [|by apply sublist_cons].
  destruct (Windows.episode_chapters ranges i); csimpl.
  - by apply sublist_cons.
  - by apply sublist_skip.
Qed.

Lemma chapter_step_inv num l st c :
  chapters_inv num l st →
  chapters_inv num (l ++ [c]) (Windows.chapter_step sample_chapter num st c).
Proof.
  intros (Hsub & Hnd & Hpos & Hdom & Hcover & Hfirst).
  assert (∀ st', st'.2 = st.2 → st'.1 = st.1 →
            (0 < chapter_fingerprint num c →
             chapter_fingerprint num c ∈ chapter_fingerprint num <$> st.2) →
            chapters_inv num (l ++ [c]) st') as Hsame.
  { intros st' H2 H1 Hc. unfold chapters_inv. rewrite H2, H1.
    split; [by apply sublist_inserts_r|]. split; [done|]. split; [done|].
    split; [done|]. split.
    - intros c' [Hin| ->%list_elem_of_singleton]%elem_of_app;
        [by apply Hcover|done].
    - intros l1 c' l2 Heq Hc' Hbefore.
      destruct l2 as [|x l2 _] using rev_ind.
      + apply app_inj_tail in Heq as [-> ->].
        apply Hc in Hc'.
        apply list_elem_of_fmap in Hc' as (c0 & Heq0 & Hin0).
        destruct (Hbefore c0); [|done].
        by eapply elem_of_sublist.
      + rewrite app_comm_cons, app_assoc in Heq.
        apply app_inj_tail in Heq as [-> ->]. by eapply Hfirst. }
  unfold Windows.chapter_step.
  unfold chapter_fingerprint in Hsame at 1 2.
  destruct (sample_chapter num c.2 c.1) as [sample_file sample_size] eqn:Hs.
  simpl in Hsame.
  destruct (Z.ltb_spec 0 sample_size) as [Hgt|Hle].
  2: { apply Hsame; [done..|lia]. }
  assert (chapter_fingerprint num c = sample_size) as Hfp.
  { unfold chapter_fingerprint. by rewrite Hs. }
  destruct (st.1 !! sample_size) as [original|] eqn:Hlook.
  { apply Hsame; [done..|]. intros _. apply Hdom. by rewrite Hlook. }
  assert (sample_size ∉ chapter_fingerprint num <$> st.2) as Hnew.
  { intros Hin%Hdom. rewrite Hlook in Hin. by destruct Hin. }
  unfold chapters_inv. simpl. split; [by apply sublist_app|]. split.
  { rewrite fmap_app. apply NoDup_app. split; [done|]. split.
    - intros x Hx ->%list_elem_of_singleton. simpl in Hx. congruence.
    - apply NoDup_singleton. }
  split.
  { intros c' [Hin| ->%list_elem_of_singleton]%elem_of_app;
      [by apply Hpos|lia]. }
  split.
  { intros s. rewrite fmap_app, elem_of_app. simpl.
    rewrite list_elem_of_singleton, Hfp.
    destruct (decide (s = sample_size)) as [->|Hne].
    - rewrite lookup_insert_eq. split; [by right|by eauto].
    - rewrite lookup_insert_ne by done. rewrite Hdom.
      split; [by left|by intros [?|?]]. }
  split.
  { intros c' Hc' Hpos'. rewrite fmap_app. apply elem_of_app.
    apply elem_of_app in Hc' as [Hin| ->%list_elem_of_singleton].
    - left. by apply Hcover.
    - right. left. }
  intros l1 c' l2 Heq Hc' Hbefore. apply elem_of_app.
  destruct l2 as [|x l2 _] using rev_ind.
  - apply app_inj_tail in Heq as [-> ->]. right. left.
  - rewrite app_comm_cons, app_assoc in Heq.
    apply app_inj_tail in Heq as [-> ->]. left. by eapply Hfirst.
Qed.

Lemma unique_chapters_inv num info :
  chapters_inv num (Windows.chapters info)
    (fold_left (Windows.chapter_step sample_chapter num)
       (Windows.chapters info) (∅, [])).
Proof.
  generalize (Windows.chapters info). intros l.
  induction l as [|c l IH] using rev_ind.
  - unfold chapters_inv. simpl. split; [done|]. split; [apply NoDup_nil_2|].
    split; [by intros c ?%elem_of_nil|]. split.
    + intros s. rewrite lookup_empty.
      split; [by intros []|by intros ?%elem_of_nil].
    + split; [by intros c ?%elem_of_nil|].
      intros l1 c l2 Heq. by destruct l1.
  - rewrite fold_left_app. simpl. by apply chapter_step_inv.
Qed.

Lemma choose_title_inv compilation chosen num :
  chosen_inv compilation chosen →
  chosen_inv compilation
    (Windows.choose_title sample_chapter compilation chosen num).
Proof.
  intros [Hwf Hin]. unfold Windows.choose_title.
  destruct (Dict.get compilation num) as [i0|] eqn:Hget; [|done].
  destruct (Windows.unique_chapters sample_chapter num i0) as [|c cs] eqn:Hu;
    [done|].
  split; [by apply dict_set_wf|].
  intros k i [[-> ->]|Hold]%elem_of_dict_set; [|by apply Hin].
  exists i0. split; [by apply dict_get_Some_elem|]. by rewrite Hu.
Qed.

Lemma choose_part_inv compilation chosen part :
  chosen_inv compilation chosen →
  match Windows.choose_part sample_chapter compilation chosen part with
  | inr chosen' => chosen_inv compilation chosen'
  | inl e => e = Py.ValueError
  end.
Proof.
  intros Hinv. unfold Windows.choose_part.
  destruct (Py.contains part "-").
  - destruct (Py.int_pair "-" part) as [e|[start stop]] eqn:Hpair; simpl.
    { by eapply int_pair_error. }
    generalize (Py.range start (stop + 1)). intros l. revert chosen Hinv.
    induction l as [|n l IH]; intros chosen Hinv; simpl; [done|].
    by apply IH, choose_title_inv.
  - destruct (Py.int part) as [e|n] eqn:Hint; simpl.
    { by eapply int_error. }
    by apply choose_title_inv.
Qed.

Lemma choose_parts_inv compilation chosen parts :
  chosen_inv compilation chosen →
  match Windows.choose_parts sample_chapter compilation chosen parts with
  | inr chosen' => chosen_inv compilation chosen'
  | inl e => e = Py.ValueError
  end.
Proof.
  revert chosen. induction parts as [|part parts IH]; intros chosen Hinv;
    simpl; [done|].
  pose proof (choose_part_inv compilation chosen part Hinv) as Hpart.
  destruct (Windows.choose_part _ _ _ _) as [e|chosen']; simpl; [done|].
  by apply IH.
Qed.

Lemma ask_titles_inv compilation answers r :
  Windows.ask_titles sample_chapter compilation answers = Some r →
  ∃ chosen, r = inr chosen ∧ chosen ≠ [] ∧ chosen_inv compilation chosen.
Proof.
  induction answers as [|choice answers IH]; simpl; [done|].
  assert (chosen_inv compilation []) as Hnil.
  { split; [apply NoDup_nil_2|]. by intros k i ?%elem_of_nil. }
  pose proof (choose_parts_inv compilation []
                (Py.split "," (Py.remove_char " " choice)) Hnil) as Hparts.
  unfold Windows.choose.
  destruct (Windows.choose_parts _ _ _ _) as [e|[|t chosen]].
  - subst e. apply IH.
  - apply IH.
  - intros [= <-]. eauto.
Qed.
End FilterCompilationsFacts.

(** X5. The compilation titles are the titles of more than 90 minutes
    with at least one chapter whose duration lies in an episode range;
    each keeps exactly those chapters, in order. Without such a title
    [filter_compilations] returns the empty dictionary and asks nothing. *)
Theorem compilation_titles_spec titles ranges :
  let in_band (d : Z) :=
    ∃ name lo hi, (name, (lo, hi)) ∈ ranges ∧
      (lo <= inject_Z d)%Q ∧ (inject_Z d <= hi)%Q in
  (∀ k i, (k, i) ∈ Windows.compilation_titles titles ranges →
     ∃ i0, (k, i0) ∈ titles ∧ 5400 < Windows.duration i0 ∧
       Windows.duration i = Windows.duration i0 ∧
       Windows.chapters i ≠ [] ∧
       Windows.chapters i `sublist_of` Windows.chapters i0 ∧
       ∀ c, c ∈ Windows.chapters i ↔
            c ∈ Windows.chapters i0 ∧ in_band c.2) ∧
  (∀ k i0 c, (k, i0) ∈ titles → 5400 < Windows.duration i0 →
     c ∈ Windows.chapters i0 → in_band c.2 →
     k ∈ Dict.keys (Windows.compilation_titles titles ranges)) ∧
  (Dict.wf titles → Dict.wf (Windows.compilation_titles titles ranges)) ∧
  (∀ sample_chapter answers,
     Windows.compilation_titles titles ranges = [] →
     Windows.filter_compilations sample_chapter titles ranges answers
     = Some (inr [])).
Proof.
  intros in_band.
  assert (∀ i0 c, c ∈ Windows.episode_chapters ranges i0 ↔
                  c ∈ Windows.chapters i0 ∧ in_band c.2) as Hchap.
  { intros i0 c. unfold Windows.episode_chapters.
    rewrite list_elem_of_filter, is_valid_spec. by intuition. }
  split; [|split; [|split]].
  - intros k i (i0 & Hin & Hlong & Hne & ->)%compilation_titles_elem.
    exists i0. simpl. split; [done|]. split; [done|]. split; [done|].
    split; [done|]. split; [apply sublist_filter|apply Hchap].
  - intros k i0 c Hin Hlong Hc Hband.
    apply list_elem_of_fmap.
    exists (k, Windows.Title (Windows.duration i0)
                 (Windows.episode_chapters ranges i0)
                 (Windows.audio i0) (Windows.subtitles i0)).
    split; [done|]. apply compilation_titles_elem. exists i0.
    split; [done|]. split; [done|]. split; [|done].
    intros Hnil. assert (c ∈ Windows.episode_chapters ranges i0) as Hcin
      by (by apply Hchap).
    rewrite Hnil in Hcin. by apply elem_of_nil in Hcin.
  - intros Hwf. eapply sublist_NoDup; [exact Hwf|].
    apply compilation_titles_keys.
  - intros sample_chapter answers Hnil.
    unfold Windows.filter_compilations. by rewrite Hnil.
Qed.

(** X6. When the prompt of [filter_compilations] ends, the function
    returns a dictionary (a [ValueError] of an answer is caught and the
    prompt shown again), empty only when there is no compilation title;
    every chosen title is a compilation title, and its chapters are those
    of that title whose sample is the first of its size: a sublist with
    distinct positive sample sizes that covers every positive sample size
    of the title. *)
Theorem filter_compilations_chosen sample_chapter titles ranges answers r :
  Windows.filter_compilations sample_chapter titles ranges answers
    = Some r →
  ∃ chosen, r = inr chosen ∧ Dict.wf chosen ∧
    (chosen = [] ↔ Windows.compilation_titles titles ranges = []) ∧
    ∀ k i, (k, i) ∈ chosen →
      ∃ i0, (k, i0) ∈ Windows.compilation_titles titles ranges ∧
        Windows.duration i = Windows.duration i0 ∧
        let fp := Windows.chapter_fingerprint sample_chapter k in
        Windows.chapters i ≠ [] ∧
        Windows.chapters i `sublist_of` Windows.chapters i0 ∧
        NoDup (fp <$> Windows.chapters i) ∧
        (∀ c, c ∈ Windows.chapters i → 0 < fp c) ∧
        (∀ c, c ∈ Windows.chapters i0 → 0 < fp c →
              fp c ∈ fp <$> Windows.chapters i) ∧
        (∀ l1 c l2, Windows.chapters i0 = l1 ++ c :: l2 → 0 < fp c →
           (∀ c', c' ∈ l1 → fp c' ≠ fp c) → c ∈ Windows.chapters i).
Proof.
  unfold Windows.filter_compilations.
  destruct (Windows.compilation_titles titles ranges) as [|t compilation]
    eqn:Hcomp.
  { intros [= <-]. exists []. split; [done|]. split; [apply NoDup_nil_2|].
    split; [done|]. by intros k i ?%elem_of_nil. }
  intros (chosen & -> & Hne & Hwf & Hin)%ask_titles_inv.
  exists chosen. split; [done|]. split; [done|]. split; [done|].
  intros k i (i0 & Hi0 & Hu & ->)%Hin. exists i0. split; [done|].
  split; [done|]. cbn zeta. simpl.
  destruct (unique_chapters_inv sample_chapter k i0)
    as (Hsub & Hnd & Hpos & _ & Hcover & Hfirst).
  done.
Qed.

(** The answers [one] (not a number) and [2] (not a compilation title)
    are turned down; the answer [1-3] chooses title 1, whose second chapter
    repeats the sample size of the first. *)
Lemma filter_compilations_chosen_example :
  let fp := Windows.chapter_fingerprint Examples.chapter_samples 1 in
  ∃ chosen,
    inr [(1, Windows.Title 6000 [(1, 1300); (4, 1400)] [] [])]
      = inr (A := Py.exn) chosen ∧
    ∀ k i, (k, i) ∈ chosen →
      ∃ i0, (k, i0) ∈ Windows.compilation_titles Examples.compilation_disc
                        Examples.band ∧
        Windows.chapters i `sublist_of` Windows.chapters i0.
Proof.
  intros fp.
  destruct (filter_compilations_chosen Examples.chapter_samples
              Examples.compilation_disc Examples.band
              ["one"; "2"; "1-3"]%string
              (inr [(1, Windows.Title 6000 [(1, 1300); (4, 1400)] [] [])]))
    as (chosen & Heq & _ & _ & Hchosen).
  - vm_compute. reflexivity.
  - exists chosen. split; [exact Heq|].
    intros k i Hin. destruct (Hchosen k i Hin) as (i0 & Hi0 & _ & _ & Hsub & _).
    exists i0. split; [exact Hi0|exact Hsub].
Defined.

(** ** The slots of the episode sequencer *)

Section StringOccurs.
Lemma contains_char c s :
  Py.contains s (String c EmptyString) = true ↔ Py.occurs c s.
Proof.
  induction s as [|x s IH]; simpl; [done|].
  rewrite orb_true_iff, IH.
  destruct (ascii_dec c x) as [->|Hne].
  - split; [by left|]. intros _. left. by destruct s.
  - split; [intros [?|?]; [done|by right]|].
    intros [?|?]; [congruence|by right].
Qed.

Lemma occurs_append c a b :
  Py.occurs c (a +:+ b) ↔ Py.occurs c a ∨ Py.occurs c b.
Proof.
  induction a as [|x a IH]; [simpl; by intuition|].
  rewrite append_cons. simpl. rewrite IH. by intuition.
Qed.

Lemma occurs_lstrip_with drop c s :
  Py.occurs c (Py.lstrip_with drop s) → Py.occurs c s.
Proof.
  induction s as [|x s IH]; simpl; [done|].
  destruct (drop x); [by right; apply IH|done].
Qed.

Lemma occurs_rev_app c s acc :
  Py.occurs c (String.rev_app s acc) ↔ Py.occurs c s ∨ Py.occurs c acc.
Proof.
  revert acc. induction s as [|x s IH]; intros acc; simpl; [by intuition|].
  rewrite IH. simpl. by intuition.
Qed.

Lemma occurs_strip_with drop c s :
  Py.occurs c (Py.strip_with drop s) → Py.occurs c s.
Proof.
  unfold Py.strip_with, String.rev.
  intros [H|[]]%occurs_rev_app.
  apply occurs_lstrip_with in H.
  apply occurs_rev_app in H as [H|[]].
  by apply occurs_lstrip_with in H.
Qed.

Lemma split_go_occurs sep cur s piece :
  ¬ Py.occurs sep cur → piece ∈ Py.split_go sep cur s → ¬ Py.occurs sep piece.
Proof.
  revert cur. induction s as [|x s IH]; intros cur Hcur; simpl.
  - intros Hin. apply list_elem_of_singleton in Hin. by subst.
  - destruct (Ascii.eqb_spec x sep) as [->|Hne].
    + intros [->|Hin]%elem_of_cons; [done|].
      apply (IH EmptyString); [intros []|done].
    + apply IH. rewrite occurs_append. simpl. by intuition.
Qed.

Lemma split_occurs sep s piece :
  piece ∈ Py.split sep s → ¬ Py.occurs sep piece.
Proof.
  intros Hin. eapply split_go_occurs; [|exact Hin]. intros [].
Qed.

(** Without a minus sign in the text, [int] gives no negative number. *)
Lemma int_nonneg s n : ¬ Py.occurs "-" s → Py.int s = inr n → 0 ≤ n.
Proof.
  intros Hs. unfold Py.int.
  assert (¬ Py.occurs "-" (Py.strip_with Py.is_int_space s)) as Hstrip.
  { intros ?%occurs_strip_with. done. }
  destruct (Py.strip_with Py.is_int_space s) as [|c body] eqn:Hbody.
  { simpl. done. }
  assert (c ≠ "-"%char) as Hc by (intros ->; apply Hstrip; by left).
  assert (∀ t, match Py.literal_digits false t ≫= Py.int_of_digits with
               | Some n0 => inr (if false then - n0 else n0)
               | None => inl Py.ValueError
               end = inr n → 0 ≤ n) as Hpos.
  { intros t. destruct (_ ≫= _) as [n0|] eqn:Hn0; [|done].
    intros [= <-].
    destruct (Py.literal_digits false t) as [ds|]; [|done]. simpl in Hn0.
    by eapply int_of_digits_nonneg. }
  destruct c as [[] [] [] [] [] [] [] []];
    first [done | intros Hint; by apply (Hpos _ Hint)].
Qed.

Lemma int_pair_nonneg s start stop :
  Py.int_pair "-" s = inr (start, stop) → 0 ≤ start ∧ 0 ≤ stop.
Proof.
  unfold Py.int_pair.
  destruct (Py.split "-" s) as [|a [|b [|c l]]] eqn:Hsplit; try done.
  assert (¬ Py.occurs "-" a ∧ ¬ Py.occurs "-" b) as [Ha Hb].
  { split; apply (split_occurs "-" s); rewrite Hsplit; [left|right; left]. }
  destruct (Py.int a) as [e|x] eqn:Hx; simpl; [done|].
  destruct (Py.int b) as [e|y] eqn:Hy; simpl; [done|].
  intros [= <- <-].
  split; [apply (int_nonneg a)|apply (int_nonneg b)]; done.
Qed.
End StringOccurs.

Section PathFacts.
Lemma split_go_plain sep cur s :
  ¬ Py.occurs sep s → Py.split_go sep cur s = [cur +:+ s].
Proof.
  revert cur. induction s as [|x s IH]; intros cur Hs; simpl.
  - f_equal. induction cur as [|c cur IHc]; [done|].
    rewrite append_cons. by f_equal.
  - destruct (Ascii.eqb_spec x sep) as [->|Hne].
    { exfalso. apply Hs. by left. }
    rewrite IH by (intros ?; apply Hs; by right).
    by rewrite append_assoc.
Qed.

Lemma occurs_string_of_uint c d :
  Py.occurs c (NilEmpty.string_of_uint d) → Py.is_digit c = true.
Proof. induction d; simpl; [intros []|..]; intros [<-|?]; auto. Qed.

Lemma occurs_str c n :
  Py.occurs c (Py.str n) → Py.is_digit c = true ∨ c = "-"%char.
Proof.
  unfold Py.str. destruct (Z.to_int n) as [d|d]; simpl.
  - destruct d; simpl; intros [<-|?]; try (by left); try done;
      left; by eapply occurs_string_of_uint.
  - intros [<-|H]; [by right|]. revert H.
    destruct d; simpl; intros [<-|?]; try (by left); try done;
      left; by eapply occurs_string_of_uint.
Qed.

Lemma occurs_format_02d c n :
  Py.occurs c (Py.format_02d n) → Py.is_digit c = true ∨ c = "-"%char.
Proof.
  unfold Py.format_02d. destruct (_ && _); [|apply occurs_str].
  intros [[<-|[]]|?]%occurs_append; [by left|by apply (occurs_str c n)].
Qed.

(** The names the scripts build are path components. *)
Lemma plain_season n : Py.plain_name ("Season " +:+ Py.str n).
Proof.
  split; [done|]. split; [done|].
  intros [H|H]%occurs_append.
  - simpl in H. by intuition.
  - by apply occurs_str in H as [?| ?].
Qed.

Lemma plain_episode_file season_num episode :
  Py.plain_name (episode_file season_num episode).
Proof.
  unfold episode_file, episode_prefix.
  split; [done|]. split; [done|].
  rewrite !occurs_append. simpl.
  intros [[[?|[]]|[H|[?|[]]]]|[H|?]]; try done.
  - by apply occurs_format_02d in H as [?| ?].
  - by apply occurs_format_02d in H as [?| ?].
  - by intuition.
Qed.

Lemma path_parts_plain name :
  Py.plain_name name → Py.path_parts name = [name].
Proof.
  intros (Hne & Hdot & Hslash). unfold Py.path_parts, Py.split.
  rewrite split_go_plain by done.
  replace (EmptyString +:+ name) with name by done.
  rewrite filter_cons_True; [done|].
  apply andb_true_iff. split; apply negb_true_iff, String.eqb_neq; done.
Qed.

Lemma joinpath_plain p name :
  Py.plain_name name →
  Py.joinpath p name = Py.Path (Py.anchor p) (Py.parts p ++ [name]).
Proof.
  intros Hplain. pose proof (path_parts_plain name Hplain) as Hparts.
  destruct Hplain as (Hne & _ & Hslash).
  destruct name as [|c name]; [done|].
  assert (c ≠ "/"%char) as Hc by (intros ->; apply Hslash; by left).
  unfold Py.joinpath. rewrite Hparts.
  destruct c as [[] [] [] [] [] [] [] []]; done.
Qed.

Lemma parent_joinpath p name :
  Py.plain_name name → Py.parent (Py.joinpath p name) = p.
Proof.
  intros Hplain. rewrite joinpath_plain by done.
  destruct p as [a ps]. unfold Py.parent. simpl.
  by rewrite removelast_last.
Qed.

Lemma name_joinpath p name :
  Py.plain_name name → Py.name (Py.joinpath p name) = name.
Proof.
  intros Hplain. rewrite joinpath_plain by done.
  unfold Py.name. simpl. by rewrite last_snoc.
Qed.

Lemma joinpath_inj p name1 name2 :
  Py.plain_name name1 → Py.plain_name name2 →
  Py.joinpath p name1 = Py.joinpath p name2 → name1 = name2.
Proof.
  intros H1 H2. rewrite !joinpath_plain by done.
  intros [= Heq]. by apply app_inj_tail in Heq as [_ ?].
Qed.

Lemma parent_ne p : Py.parts p ≠ [] → Py.parent p ≠ p.
Proof.
  destruct p as [a ps]. unfold Py.parent. simpl. intros Hne [= Heq].
  destruct ps as [|x ps _] using rev_ind; [done|].
  rewrite removelast_last in Heq.
  apply (f_equal length) in Heq. rewrite length_app in Heq. simpl in Heq. lia.
Qed.

Lemma listdir_add_entry_ne fs p name q :
  q ≠ p → Py.listdir (Py.add_entry fs p name) q = Py.listdir fs q.
Proof.
  intros Hne. unfold Py.listdir.
  induction fs as [|[r entries] fs IH]; simpl; [done|].
  case_bool_decide as Hrp; simpl.
  - subst r. rewrite !bool_decide_eq_false_2 by done. done.
  - case_bool_decide; [done|]. apply IH.
Qed.

Lemma listdir_snoc fs p entries q :
  Py.listdir (fs ++ [(p, entries)]) q =
  match Py.listdir fs q with
  | Some es => Some es
  | None => if bool_decide (p = q) then Some entries else None
  end.
Proof.
  unfold Py.listdir. induction fs as [|[r es] fs IH]; simpl.
  - by destruct (bool_decide (p = q)).
  - destruct (bool_decide (r = q)); [done|]. apply IH.
Qed.

Lemma listdir_add_entry_None fs p name q :
  Py.listdir fs q = None → Py.listdir (Py.add_entry fs p name) q = None.
Proof.
  unfold Py.listdir. induction fs as [|[r es] fs IH]; simpl; [done|].
  case_bool_decide as Hrq; simpl; [done|]. intros Hnone.
  case_bool_decide as Hrp; simpl.
  - by rewrite bool_decide_eq_false_2.
  - rewrite bool_decide_eq_false_2 by done. by apply IH.
Qed.

(** What [mkdir(exist_ok=True)] changes: a directory that is there is
    listed as before, a new directory is empty, and only its parent gets a
    new entry. *)
Lemma mkdir_exist_ok_listdir fs p fs' :
  Py.mkdir_exist_ok fs p = inr fs' →
  (∀ es, Py.listdir fs p = Some es → Py.listdir fs' p = Some es) ∧
  (Py.listdir fs p = None → Py.listdir fs' p = Some []) ∧
  (∀ q, q ≠ p → q ≠ Py.parent p → Py.listdir fs' q = Py.listdir fs q).
Proof.
  unfold Py.mkdir_exist_ok.
  destruct (Py.listdir fs p) as [es|] eqn:Hp.
  { intros [= <-]. split; [by intros ? [= <-]|]. split; [done|done]. }
  destruct (Py.listdir fs (Py.parent p)) as [entries|] eqn:Hpar; [|done].
  destruct (last (Py.parts p)) as [name|]; [|done].
  case_bool_decide; [done|]. intros [= <-]. split; [done|]. split.
  - intros _. rewrite listdir_snoc.
    rewrite listdir_add_entry_None by done.
    by rewrite bool_decide_eq_true_2.
  - intros q Hq Hqp. rewrite listdir_snoc.
    rewrite listdir_add_entry_ne by done.
    destruct (Py.listdir fs q); [done|].
    by rewrite bool_decide_eq_false_2.
Qed.
End PathFacts.

(** From here on [p / name] is used through the lemmas above. *)
Opaque Py.joinpath.

(** The text of a file name is read as [episode_file]. *)
Ltac fold_episode_file :=
  repeat match goal with
  | |- context [episode_prefix ?s +:+ Py.format_02d ?e +:+ ".mkv"] =>
      change (episode_prefix s +:+ Py.format_02d e +:+ ".mkv")
        with (episode_file s e)
  end.

Section SlotFacts.
Variable ignore_case : bool.

Lemma find_next_available_episode_free fs output_dir season_num names :
  Py.listdir fs output_dir = Some names →
  episode_file season_num
    (find_next_available_episode ignore_case fs output_dir season_num)
    ∉ names.
Proof.
  intros Hdir Hin.
  destruct (find_next_available_episode_spec ignore_case fs output_dir
              season_num) as (Hpos & Hnin & _).
  apply Hnin. apply (episode_file_existing _ _ _ _ names); [done|lia|done].
Qed.

Lemma max_list_elem (l : list Z) : l ≠ [] → max_list l ∈ l.
Proof.
  destruct l as [|a l]; [done|]. intros _. simpl.
  induction l as [|b l IH]; simpl; [left|].
  destruct (Z.max_spec b (foldr Z.max a l)) as [[_ ->]|[_ ->]].
  - apply elem_of_cons in IH as [->|IH]; [left|right; by right].
  - right. left.
Qed.
Lemma glob_listdir fs fs' output_dir season_num :
  Py.listdir fs' output_dir = Py.listdir fs output_dir →
  glob ignore_case fs' output_dir season_num
  = glob ignore_case fs output_dir season_num.
Proof. unfold glob. by intros ->. Qed.

Lemma find_next_available_episode_no_file fs output_dir season_num :
  glob ignore_case fs output_dir season_num = [] →
  find_next_available_episode ignore_case fs output_dir season_num = 1.
Proof.
  intros Hglob. unfold find_next_available_episode, existing_episodes.
  by rewrite Hglob.
Qed.

(** The slot [get_next_season_episode] returns: its episode number, its
    name, its directory and the state of that directory. *)
Lemma get_next_season_episode_slot fs output_dir
    season_num max_episodes fs' season episode file :
  get_next_season_episode ignore_case fs output_dir season_num max_episodes
    = inr (fs', (season, episode, file)) →
  1 ≤ episode ∧
  Py.name file = episode_file season episode ∧
  (season = season_num ∧ Py.parent file = output_dir ∧ fs' = fs ∨
   season = season_num + 1 ∧
   Py.parent file =
     Py.joinpath (Py.parent output_dir) ("Season " +:+ Py.str season) ∧
   Py.is_dir fs' (Py.parent file) = true) ∧
  ∀ names, Py.listdir fs' (Py.parent file) = Some names →
    Py.name file ∉ names.
Proof.
  unfold get_next_season_episode.
  destruct (Z.ltb_spec max_episodes
              (find_next_available_episode ignore_case fs output_dir
                 season_num)) as [Hfull|Hroom].
  - destruct (Py.mkdir_exist_ok fs _) as [e|fs1] eqn:Hmk; [done|].
    intros [= <- <- <- <-]. fold_episode_file.
    rewrite (parent_joinpath _ _ (plain_episode_file _ _)).
    rewrite (name_joinpath _ _ (plain_episode_file _ _)).
    destruct (find_next_available_episode_spec ignore_case fs1
                (Py.joinpath (Py.parent output_dir)
                   ("Season " +:+ Py.str (season_num + 1)))
                (season_num + 1)) as (Hpos & _).
    split; [done|]. split; [done|]. split.
    + right. split; [done|]. split; [done|].
      apply mkdir_exist_ok_listdir in Hmk as (Hold & Hnew & _).
      unfold Py.is_dir. apply bool_decide_eq_true.
      destruct (Py.listdir fs _) as [es|] eqn:Hl.
      * rewrite (Hold es); [done|done].
      * by rewrite Hnew.
    + intros names Hdir. by apply find_next_available_episode_free.
  - intros [= <- <- <- <-]. fold_episode_file.
    rewrite (parent_joinpath _ _ (plain_episode_file _ _)).
    rewrite (name_joinpath _ _ (plain_episode_file _ _)).
    destruct (find_next_available_episode_spec ignore_case fs output_dir
                season_num) as (Hpos & _).
    split; [done|]. split; [done|]. split; [by left|].
    intros names Hdir. by apply find_next_available_episode_free.
Qed.
End SlotFacts.

(** X7. The slot [get_next_season_episode] returns: the episode number
    is at least 1, the file has the conventional name, it lies in the
    given directory (which is left as it is) or in the folder
    [Season <n+1>] beside it (which then exists), and no entry of that
    directory has its name. Where names are case-sensitive the file of
    the slot therefore does not exist. Where they are not (Windows) an
    entry can still be the same file, spelled in another case, since the
    scan reads upper-case names only: with [s01e01.mkv] present the slot
    is [S01E01.mkv]. *)
Theorem get_next_season_episode_free_slot :
  (∀ ignore_case fs output_dir season_num max_episodes fs' season episode
     file,
     get_next_season_episode ignore_case fs output_dir season_num
       max_episodes = inr (fs', (season, episode, file)) →
     1 ≤ episode ∧
     Py.name file = episode_file season episode ∧
     (season = season_num ∧ Py.parent file = output_dir ∧ fs' = fs ∨
      season = season_num + 1 ∧
      Py.parent file =
        Py.joinpath (Py.parent output_dir) ("Season " +:+ Py.str season) ∧
      Py.is_dir fs' (Py.parent file) = true) ∧
     ∀ names, Py.listdir fs' (Py.parent file) = Some names →
       (Py.name file ∉ names) ∧
       ∀ name, name ∈ names →
         same_entry ignore_case name (Py.name file) →
         ignore_case = true ∧ name ≠ Py.name file) ∧
  (∃ fs output_dir season_num max_episodes season episode file names name,
     get_next_season_episode true fs output_dir season_num max_episodes
       = inr (fs, (season, episode, file)) ∧
     Py.listdir fs (Py.parent file) = Some names ∧
     name ∈ names ∧ same_entry true name (Py.name file)).
Proof.
  split.
  - intros ignore_case fs output_dir season_num max_episodes fs' season
      episode file Hslot.
    apply get_next_season_episode_slot in Hslot
      as (Hpos & Hname & Hdir & Hfree).
    split; [done|]. split; [done|]. split; [done|].
    intros names Hnames. specialize (Hfree names Hnames).
    split; [done|]. intros name Hin Hsame.
    destruct ignore_case; simpl in Hsame.
    + split; [done|]. by intros ->.
    + by subst name.
  - exists Examples.fs_lower_case, Examples.season1, 1, 5, 1, 1,
      (Py.joinpath Examples.season1 "S01E01.mkv"),
      ["s01e01.mkv"%string], "s01e01.mkv"%string.
    split; [by vm_compute|]. split; [by vm_compute|].
    split; [left|by vm_compute].
Qed.

(** The documented roll-over: the slot is [S02E01.mkv] in the new folder
    of season 2. *)
Lemma get_next_season_episode_free_slot_example :
  let fs' :=
    [(Examples.show, ["Season 1"; "Season 2"]);
     (Examples.season1, ["S01E01.mkv"; "S01E02.mkv"]);
     (Examples.season2, [])]%string in
  let file := Py.joinpath Examples.season2 "S02E01.mkv" in
  Py.name file = episode_file 2 1 ∧
  Py.listdir fs' (Py.parent file) = Some [] ∧
  Py.name file ∉ ([] : list string).
Proof.
  intros fs' file.
  destruct get_next_season_episode_free_slot as [Hslot _].
  destruct (Hslot false Examples.fs_full Examples.season1 1 2 fs' 2 1 file)
    as (_ & Hname & _ & Hfree).
  - vm_compute. reflexivity.
  - assert (Py.listdir fs' (Py.parent file) = Some []) as Hdir
      by (vm_compute; reflexivity).
    split; [exact Hname|]. split; [exact Hdir|].
    exact (proj1 (Hfree [] Hdir)).
Defined.

(** X8. After a roll-over the next call, which [process_tv_show] makes
    with the directory it started from and the new season number, does not
    look at the folder of the new season: when the old directory holds no
    file of the new season, the slot is episode 1 of the new season inside
    the old directory, whatever has been written to the new folder. *)
Theorem get_next_season_episode_after_rollover ignore_case fs output_dir
    season_num max_episodes fs1 episode file max_episodes' :
  Py.parts output_dir ≠ [] →
  Py.name output_dir ≠ "Season " +:+ Py.str (season_num + 1) →
  glob ignore_case fs output_dir (season_num + 1) = [] →
  get_next_season_episode ignore_case fs output_dir season_num max_episodes
    = inr (fs1, (season_num + 1, episode, file)) →
  1 ≤ max_episodes' →
  let fs2 := Py.add_entry fs1 (Py.parent file) (Py.name file) in
  Py.parent file ≠ output_dir ∧
  get_next_season_episode ignore_case fs2 output_dir (season_num + 1)
    max_episodes'
  = inr (fs2, (season_num + 1, 1,
               Py.joinpath output_dir (episode_file (season_num + 1) 1))).
Proof.
  intros Hparts Hname Hglob Hcall Hmax fs2.
  unfold get_next_season_episode in Hcall.
  destruct (Z.ltb_spec max_episodes
              (find_next_available_episode ignore_case fs output_dir
                 season_num)) as [Hfull|Hroom].
  2: { injection Hcall as _ ? _ _. lia. }
  set (next_dir := Py.joinpath (Py.parent output_dir)
                     ("Season " +:+ Py.str (season_num + 1))) in *.
  destruct (Py.mkdir_exist_ok fs next_dir) as [e|fs1'] eqn:Hmk; [done|].
  injection Hcall as Hfs _ Hfile. subst fs1'.
  assert (next_dir ≠ output_dir) as Hne.
  { intros Heq. apply Hname. rewrite <- Heq. unfold next_dir.
    by rewrite (name_joinpath _ _ (plain_season _)). }
  assert (Py.parent file = next_dir) as Hparent.
  { rewrite <- Hfile. exact (parent_joinpath _ _ (plain_episode_file _ _)). }
  subst fs2. rewrite Hparent in *. split; [done|].
  assert (Py.listdir (Py.add_entry fs1 next_dir (Py.name file)) output_dir
          = Py.listdir fs output_dir) as Hsame.
  { rewrite listdir_add_entry_ne by done.
    apply mkdir_exist_ok_listdir in Hmk as (_ & _ & Hother).
    apply Hother; [done|]. unfold next_dir.
    rewrite (parent_joinpath _ _ (plain_season _)).
    intros Heq. by apply (parent_ne output_dir). }
  assert (find_next_available_episode ignore_case
            (Py.add_entry fs1 next_dir (Py.name file)) output_dir
            (season_num + 1) = 1) as Hnext.
  { apply find_next_available_episode_no_file.
    by rewrite (glob_listdir ignore_case fs _ output_dir _ Hsame). }
  rewrite get_next_season_episode_same_season; rewrite Hnext; [done|lia].
Qed.

(** Season 1 is full with two episodes: the first slot is
    [Season 2/S02E01.mkv]; once that file is written, the second slot is
    [Season 1/S02E01.mkv]. *)
Lemma get_next_season_episode_after_rollover_example :
  let fs1 :=
    [(Examples.show, ["Season 1"; "Season 2"]);
     (Examples.season1, ["S01E01.mkv"; "S01E02.mkv"]);
     (Examples.season2, [])]%string in
  let file := Py.joinpath Examples.season2 "S02E01.mkv" in
  let fs2 := Py.add_entry fs1 (Py.parent file) (Py.name file) in
  Py.parent file ≠ Examples.season1 ∧
  get_next_season_episode false fs2 Examples.season1 (1 + 1) 2
  = inr (fs2, (1 + 1, 1,
               Py.joinpath Examples.season1 (episode_file (1 + 1) 1))).
Proof.
  intros fs1 file.
  apply (get_next_season_episode_after_rollover false Examples.fs_full
           Examples.season1 1 2 fs1 1 file 2).
  - compute_done.
  - compute_done.
  - vm_compute. reflexivity.
  - vm_compute. reflexivity.
  - compute_done.
Defined.

(** ** Season folders *)

Section SeasonFolderFacts.
Lemma lower_digits ds : all_digits ds = true → Py.lower ds = ds.
Proof.
  induction ds as [|c ds IH]; simpl; [done|].
  intros [Hc Hds]%andb_true_iff. rewrite IH by done. f_equal.
  unfold Py.lower_ascii, Py.is_digit in *.
  apply andb_true_iff in Hc as [_ Hle%Nat.leb_le]. cbv zeta.
  destruct (Nat.leb_spec 65 (nat_of_ascii c)); [lia|].
  destruct (Nat.leb_spec 192 (nat_of_ascii c)); [lia|done].
Qed.

Lemma take_digits_all ds :
  all_digits ds = true → Py.take_digits ds = (ds, EmptyString).
Proof.
  induction ds as [|c ds IH]; simpl; [done|].
  intros [-> Hds]%andb_true_iff. by rewrite IH.
Qed.

(** The name [Season <n>] matches the season pattern of both scripts, and
    its digits spell [n]. *)
Lemma search_season_folder (words : list string) n :
  0 ≤ n →
  Re.search_season ("season"%string :: words)
    (Py.lower ("Season " +:+ Py.str n)) ≫= Py.int_of_digits = Some n.
Proof.
  intros Hn. destruct (str_digits n Hn) as (Hall & Hne & Hint & _).
  rewrite lower_append, (lower_digits _ Hall).
  change (Py.lower "Season ") with ("season" +:+ (" " +:+ ""))%string.
  rewrite append_assoc.
  assert (∀ s, Re.search_season ("season"%string :: words) s =
               match Re.season_here ("season"%string :: words) s with
               | Some ds => Some ds
               | None =>
                   match s with
                   | EmptyString => None
                   | String _ s' =>
                       Re.search_season ("season"%string :: words) s'
                   end
               end) as -> by (by intros []).
  cbn [Re.season_here]. unfold Py.startswith.
  rewrite prefix_append, skip_append, append_assoc, append_cons.
  replace ("" +:+ Py.str n) with (Py.str n) by done.
  unfold Re.separator_digits_here.
  change (Ascii.eqb " " "_" || Ascii.eqb " " " ") with true. cbv iota.
  unfold Re.digits_here. rewrite take_digits_all by done.
  destruct (Py.str n); [done|]. simpl. done.
Qed.

Lemma name_season_folder p n (words : list string) :
  0 ≤ n → Py.name p = "Season " +:+ Py.str n →
  Re.search_season ("season"%string :: words) (Py.lower (Py.name p))
    ≫= Py.int_of_digits = Some n.
Proof. intros Hn ->. by apply search_season_folder. Qed.
End SeasonFolderFacts.

(** X9. The DVD script's [get_show_info_from_path] reads the season
    number back from a folder named [Season <n>], for every [n] that is
    not negative; in particular from the folder a roll-over of
    [get_next_season_episode] has created. [process_tv_show] then takes
    the number as it is, except for season 0, which it asks for as if no
    number had been found. *)
Theorem season_folder_recognised :
  (∀ parent_exists p n, 0 ≤ n → Py.name p = "Season " +:+ Py.str n →
     (Windows.get_show_info_from_path (inr parent_exists) p).2 = Some n) ∧
  (∀ ignore_case fs output_dir season_num max_episodes fs' season episode
     file parent_exists,
     get_next_season_episode ignore_case fs output_dir season_num
       max_episodes = inr (fs', (season, episode, file)) →
     season ≠ season_num → 0 ≤ season →
     (Windows.get_show_info_from_path (inr parent_exists)
        (Py.parent file)).2 = Some season) ∧
  (∀ show_name season_num asked_name asked_season,
     Windows.show_and_season (show_name, Some season_num) asked_name
       asked_season
     = if season_num =? 0
       then Windows.show_and_season (show_name, None) asked_name asked_season
       else inr (match show_name with
                 | Some n => if String.eqb n "" then asked_name else n
                 | None => asked_name
                 end, season_num)).
Proof.
  split; [|split].
  - intros parent_exists p n Hn Hname. simpl.
    by apply name_season_folder.
  - intros ignore_case fs output_dir season_num max_episodes fs' season
      episode file parent_exists Hslot Hne Hpos.
    apply get_next_season_episode_slot in Hslot
      as (_ & _ & [[? _]|(-> & Hparent & _)] & _); [done|].
    simpl. apply name_season_folder; [done|].
    by rewrite Hparent, (name_joinpath _ _ (plain_season _)).
  - intros show_name season_num asked_name asked_season.
    unfold Windows.show_and_season. simpl.
    by destruct (season_num =? 0).
Qed.

(** ** The numbering of [process_tv_show] in the Blu-ray script *)

Section EpisodeNumberFacts.
Variable ignore_case : bool.

Lemma get_next_episode_number_None fs output_dir season_num :
  Bluray.get_next_episode_number ignore_case fs output_dir season_num = None
  ↔ existing_episodes ignore_case fs output_dir season_num = [].
Proof.
  unfold Bluray.get_next_episode_number.
  destruct (glob ignore_case fs output_dir season_num) eqn:Hglob.
  - split; [|done]. intros _. unfold existing_episodes. by rewrite Hglob.
  - by destruct (existing_episodes _ _ _ _).
Qed.

Lemma get_next_episode_number_Some fs output_dir season_num n :
  Bluray.get_next_episode_number ignore_case fs output_dir season_num
    = Some n →
  existing_episodes ignore_case fs output_dir season_num ≠ [] ∧
  n = max_list (existing_episodes ignore_case fs output_dir season_num) + 1.
Proof.
  unfold Bluray.get_next_episode_number.
  destruct (glob ignore_case fs output_dir season_num); [done|].
  destruct (existing_episodes _ _ _ _); [done|]. by intros [= <-].
Qed.

Lemma get_next_episode_number_bounds fs output_dir season_num :
  let existing := existing_episodes ignore_case fs output_dir season_num in
  let next :=
    find_next_available_episode ignore_case fs output_dir season_num in
  match
    Bluray.get_next_episode_number ignore_case fs output_dir season_num
  with
  | None => existing = [] ∧ next = 1
  | Some n =>
      n - 1 ∈ existing ∧ (∀ e, e ∈ existing → e < n) ∧
      1 ≤ next ≤ n ∧ (next = n ↔ ∀ j, 1 ≤ j < n → j ∈ existing)
  end.
Proof.
  intros existing next.
  destruct (Bluray.get_next_episode_number _ _ _ _) as [n|] eqn:Hnum.
  - apply get_next_episode_number_Some in Hnum as [Hne ->].
    fold existing in Hne |- *.
    pose proof (max_list_elem existing Hne) as Hmax.
    assert (∀ e, e ∈ existing → e < max_list existing + 1) as Hlt.
    { intros e He. apply max_list_ge in He. lia. }
    destruct (find_next_available_episode_spec ignore_case fs output_dir
                season_num) as (Hpos & Hnin & Hbelow).
    fold existing next in Hpos, Hnin, Hbelow.
    replace (max_list existing + 1 - 1) with (max_list existing) by lia.
    split; [done|]. split; [done|].
    assert (next ≤ max_list existing + 1) as Hle.
    { destruct (decide (next ≤ max_list existing + 1)); [done|].
      pose proof (existing_episodes_nonneg ignore_case fs output_dir
                    season_num _ Hmax).
      assert (max_list existing + 1 ∈ existing) as Hin by (apply Hbelow; lia).
      apply Hlt in Hin. lia. }
    split; [lia|]. split.
    + intros <-. done.
    + intros Hall. destruct (decide (next = max_list existing + 1)); [done|].
      destruct Hnin. apply Hall. lia.
  - apply get_next_episode_number_None in Hnum. fold existing in Hnum.
    split; [done|]. unfold next, find_next_available_episode.
    fold existing. by rewrite Hnum.
Qed.
End EpisodeNumberFacts.

(** X10. [get_next_episode_number] is [None] exactly when the scan finds
    no episode number; otherwise it is the highest number plus one, which
    is above every episode found and never below the first free number of
    [find_next_available_episode]; the two agree exactly when the episodes
    have no gap. *)
Theorem get_next_episode_number_spec ignore_case fs output_dir season_num :
  let existing := existing_episodes ignore_case fs output_dir season_num in
  let next :=
    find_next_available_episode ignore_case fs output_dir season_num in
  match
    Bluray.get_next_episode_number ignore_case fs output_dir season_num
  with
  | None => existing = [] ∧ next = 1
  | Some n =>
      n - 1 ∈ existing ∧ (∀ e, e ∈ existing → e < n) ∧
      1 ≤ next ≤ n ∧ (next = n ↔ ∀ j, 1 ≤ j < n → j ∈ existing)
  end.
Proof. apply get_next_episode_number_bounds. Qed.

Section SortedItemsFacts.
Context {V : Type}.

Lemma insert_item_perm (x : Z * V) l : Dict.insert_item x l ≡ₚ x :: l.
Proof.
  induction l as [|y l IH]; simpl; [done|].
  destruct (Z.leb x.1 y.1); [done|]. rewrite IH. apply perm_swap.
Qed.

Lemma sorted_items_perm (d : list (Z * V)) : Dict.sorted_items d ≡ₚ d.
Proof.
  induction d as [|x d IH]; simpl; [done|].
  by rewrite insert_item_perm, IH.
Qed.

Lemma insert_item_sorted (x : Z * V) l :
  Sorted Z.le (l.*1) → Sorted Z.le ((Dict.insert_item x l).*1).
Proof.
  induction l as [|y l IH]; csimpl; intros Hs.
  - by repeat constructor.
  - destruct (Z.leb_spec x.1 y.1) as [Hle|Hgt]; csimpl.
    + constructor; [done|]. by constructor.
    + apply Sorted_inv in Hs as [Hs Hhd]. constructor; [by apply IH|].
      destruct l as [|z l]; csimpl.
      * constructor. lia.
      * destruct (Z.leb_spec x.1 z.1); csimpl; constructor; [lia|].
        by apply HdRel_inv in Hhd.
Qed.

Lemma sorted_items_sorted (d : list (Z * V)) :
  Sorted Z.le ((Dict.sorted_items d).*1).
Proof.
  induction d as [|x d IH]; simpl; [constructor|].
  by apply insert_item_sorted.
Qed.
End SortedItemsFacts.

Section StringCancel.
Lemma episode_file_inj season_num e1 e2 :
  0 ≤ e1 → 0 ≤ e2 →
  episode_file season_num e1 = episode_file season_num e2 → e1 = e2.
Proof.
  intros H1 H2. unfold episode_file, episode_prefix.
  rewrite !append_assoc. intros Heq.
  do 3 apply append_inv_head in Heq.
  destruct (format_02d_digits e1 H1) as (Hall1 & _ & Hint1).
  destruct (format_02d_digits e2 H2) as (Hall2 & _ & Hint2).
  assert (Py.take_digits (Py.format_02d e1 +:+ ".mkv")
          = Py.take_digits (Py.format_02d e2 +:+ ".mkv")) as Htake
    by (by rewrite Heq).
  rewrite !take_digits_append in Htake by done.
  injection Htake as Hd. rewrite Hd in Hint1. congruence.
Qed.
End StringCancel.

Section EpisodePlanFacts.
Context `{PyFloat F}.

Lemma episode_file_text season_num episode_num :
  "S" +:+ Py.format_02d season_num +:+ "E" +:+
    Py.format_02d episode_num +:+ ".mkv"
  = episode_file season_num episode_num.
Proof.
  unfold episode_file, episode_prefix. by rewrite !append_assoc.
Qed.

Lemma episode_plan_unfold output_dir season_num start_episode
    (matching_titles : list (Z * Bluray.title_info (F := F))) :
  Bluray.episode_plan output_dir season_num start_episode matching_titles
  = zip_with
      (λ kv episode_num,
         (kv.1, episode_num,
          Py.joinpath output_dir (episode_file season_num episode_num)))
      (Dict.sorted_items matching_titles)
      (seqZ start_episode (Z.of_nat (length matching_titles))).
Proof.
  unfold Bluray.episode_plan.
  rewrite <- (Permutation_length (sorted_items_perm matching_titles)).
  generalize (Dict.sorted_items matching_titles). intros l.
  revert start_episode. induction l as [|kv l IH]; intros start; [done|].
  rewrite imap_cons. cbn [length].
  rewrite Nat2Z.inj_succ, seqZ_cons by lia. cbn [zip_with].
  rewrite Z.add_0_r, episode_file_text. f_equal.
  rewrite Z.pred_succ, <- IH. apply imap_ext. intros i x _. simpl.
  by replace (start + Z.of_nat (S i)) with (Z.succ start + Z.of_nat i) by lia.
Qed.

Lemma plan_projections output_dir season_num
    (l : list (Z * Bluray.title_info (F := F))) (es : list Z) :
  length es = length l →
  let plan :=
    zip_with
      (λ kv episode_num,
         (kv.1, episode_num,
          Py.joinpath output_dir (episode_file season_num episode_num)))
      l es in
  plan.*1.*1 = l.*1 ∧ plan.*1.*2 = es ∧
  plan.*2
  = (λ e, Py.joinpath output_dir (episode_file season_num e)) <$> es.
Proof.
  revert es. induction l as [|kv l IH]; intros [|e es] Hlen; try done.
  destruct (IH es) as (H1 & H2 & H3); [simpl in Hlen; lia|].
  cbn zeta in *. cbn [zip_with]. rewrite !fmap_cons. cbn [fst snd].
  by rewrite H1, H2, H3.
Qed.
End EpisodePlanFacts.

(** X11. [process_tv_show] rips the selected titles in ascending title
    order to consecutive episode numbers from the first one. When the
    first number is the one [get_next_episode_number] gives, or a number
    that is not negative entered because no episode exists, the output
    files differ from each other and none of them is an entry of the
    output directory: no episode is overwritten. *)
Theorem episode_plan_free_slots `{PyFloat F} ignore_case fs output_dir
    season_num episode_input start_episode
    (matching_titles : list (Z * Bluray.title_info (F := F))) :
  Bluray.first_episode
    (Bluray.get_next_episode_number ignore_case fs output_dir season_num)
    episode_input = inr (Some start_episode) →
  0 ≤ start_episode →
  let plan :=
    Bluray.episode_plan output_dir season_num start_episode
      matching_titles in
  plan.*1.*1 ≡ₚ Dict.keys matching_titles ∧
  Sorted Z.le (plan.*1.*1) ∧
  plan.*1.*2 = seqZ start_episode (Z.of_nat (length matching_titles)) ∧
  NoDup (plan.*2) ∧
  ∀ title_num episode_num file, (title_num, episode_num, file) ∈ plan →
    file = Py.joinpath output_dir (episode_file season_num episode_num) ∧
    ∀ names, Py.listdir fs output_dir = Some names → Py.name file ∉ names.
Proof.
  intros Hfirst Hstart plan. unfold plan. rewrite episode_plan_unfold.
  pose proof (sorted_items_perm matching_titles) as Hperm.
  pose proof (sorted_items_sorted matching_titles) as Hsorted.
  pose proof (Permutation_length Hperm) as Hlen.
  set (l := Dict.sorted_items matching_titles) in *.
  set (es := seqZ start_episode (Z.of_nat (length matching_titles))).
  assert (length es = length l) as Hles.
  { unfold es. rewrite length_seqZ. lia. }
  destruct (plan_projections output_dir season_num l es Hles)
    as (Hfst & Hsnd & Hfiles).
  split; [by rewrite Hfst, Hperm|]. split; [by rewrite Hfst|].
  split; [done|]. split.
  - rewrite Hfiles. apply NoDup_fmap_2_strong; [|apply NoDup_seqZ].
    intros e1 e2 He1%elem_of_seqZ He2%elem_of_seqZ Heq.
    apply joinpath_inj in Heq; [|apply plain_episode_file..].
    apply (episode_file_inj season_num); [lia..|done].
  - intros title_num episode_num file Hin.
    assert (episode_num ∈ es ∧
            file = Py.joinpath output_dir
                     (episode_file season_num episode_num)) as [He ->].
    { apply elem_of_zip_with in Hin as (kv & e & [= -> -> ->] & _ & He).
      done. }
    split; [done|]. intros names Hdir.
    rewrite (name_joinpath _ _ (plain_episode_file _ _)). intros Hname.
    apply elem_of_seqZ in He.
    assert (episode_num ∈
              existing_episodes ignore_case fs output_dir season_num) as Hex.
    { apply (episode_file_existing _ _ _ _ names); [done|lia|done]. }
    pose proof (get_next_episode_number_bounds ignore_case fs output_dir
                  season_num) as Hspec. simpl in Hspec.
    destruct (Bluray.get_next_episode_number _ _ _ _) as [n|].
    + injection Hfirst as <-. destruct Hspec as (_ & Hlt & _).
      apply Hlt in Hex. lia.
    + destruct Hspec as [Hnil _]. rewrite Hnil in Hex.
      by apply elem_of_nil in Hex.
Qed.

(** Episodes 1, 2 and 4 exist: titles 2 and 5 become episodes 5 and 6. *)
Lemma episode_plan_free_slots_example :
  let plan :=
    Bluray.episode_plan (F := Q) Examples.season1 1 5
      (Bluray.get_title_info
         [Examples.title 5 1800 4; Examples.title 2 1900 4]).1 in
  plan.*1.*2 = seqZ 5 2 ∧ NoDup (plan.*2).
Proof.
  intros plan.
  destruct (episode_plan_free_slots (F := Q) false Examples.fs_gap
              Examples.season1 1 "" 5
              (Bluray.get_title_info
                 [Examples.title 5 1800 4; Examples.title 2 1900 4]).1)
    as (_ & _ & Hnums & Hfiles & _).
  - vm_compute. reflexivity.
  - compute_done.
  - split; [exact Hnums|exact Hfiles].
Defined.

(** ** The catalog and the selection of the Blu-ray script *)

Section ParseTitlesInvariants.
Variable gigabytes : string → Py.exn + Z.

Lemma titles_inv_set ts k i :
  Bluray.titles_inv ts → Bluray.number i = k →
  Bluray.titles_inv (Dict.set ts k i).
Proof.
  intros [Hwf Hnum] Hi. split; [by apply dict_set_wf|].
  intros k' i' [[-> ->]|Hin]%elem_of_dict_set; [done|by apply Hnum].
Qed.

Lemma title_info_line_inv ts parts ts' :
  Bluray.titles_inv ts →
  Bluray.title_info_line gigabytes ts parts = inr ts' → Bluray.titles_inv ts'.
Proof.
  intros Hinv. unfold Bluray.title_info_line.
  destruct (Bluray.int_after_colon _) as [e|title_id]; simpl; [done|].
  set (ts1 := match Dict.get ts title_id with
              | Some _ => ts
              | None => Dict.set ts title_id (Bluray.default_title title_id)
              end).
  assert (Bluray.titles_inv ts1) as Hinv1.
  { unfold ts1. destruct (Dict.get ts title_id); [done|].
    by apply titles_inv_set. }
  set (info := default (Bluray.default_title title_id)
                 (Dict.get ts1 title_id)).
  assert (Bluray.number info = title_id) as Hinfo.
  { unfold info. destruct (Dict.get ts1 title_id) as [i|] eqn:Hget; [|done].
    apply dict_get_Some_elem in Hget. simpl. by apply Hinv1. }
  repeat match goal with
         | |- context [if ?b then _ else _] => destruct b
         end;
    try (intros [= <-]; first [done | by apply titles_inv_set]).
  - destruct (Py.int _) as [e|n]; simpl; [done|].
    intros [= <-]. by apply titles_inv_set.
  - destruct (Bluray.hms_seconds _) as [e|d]; simpl; [done|].
    intros [= <-]. by apply titles_inv_set.
  - destruct (gigabytes _) as [e|b]; simpl; [done|].
    intros [= <-]. by apply titles_inv_set.
Qed.

Lemma parse_line_inv ts line ts' :
  Bluray.titles_inv ts →
  Bluray.parse_line gigabytes ts line = inr ts' → Bluray.titles_inv ts'.
Proof.
  intros Hinv. unfold Bluray.parse_line.
  destruct (Py.startswith line "TCOUNT:").
  { destruct (Bluray.int_after_colon line); simpl; [done|by intros [= <-]]. }
  destruct (Py.startswith line "TINFO:").
  { destruct (4 <=? _)%nat; [by apply title_info_line_inv|by intros [= <-]]. }
  destruct (Py.startswith line "SINFO:"); [|by intros [= <-]].
  destruct (4 <=? _)%nat; [|by intros [= <-]].
  destruct (Bluray.int_after_colon _); simpl; [done|].
  destruct (Py.int _); simpl; [done|by intros [= <-]].
Qed.

Lemma parse_lines_inv ts lines ts' :
  Bluray.titles_inv ts →
  Bluray.parse_lines gigabytes ts lines = inr ts' → Bluray.titles_inv ts'.
Proof.
  revert ts. induction lines as [|line lines IH]; intros ts Hinv; simpl.
  - by intros [= <-].
  - destruct (Bluray.parse_line gigabytes ts line) as [e|ts1] eqn:Hline;
      simpl; [done|].
    apply IH. by eapply parse_line_inv.
Qed.

Lemma parse_titles_inv output titles :
  Bluray.parse_titles gigabytes output = inr titles →
  Dict.wf titles ∧
  ∀ k i, (k, i) ∈ titles → Bluray.number i = k ∧ 120 ≤ Bluray.duration i.
Proof.
  unfold Bluray.parse_titles.
  destruct (Bluray.parse_lines _ _ _) as [e|parsed] eqn:Hparsed; simpl;
    [done|].
  intros [= <-].
  assert (Bluray.titles_inv parsed) as [Hwf Hnum].
  { eapply parse_lines_inv; [|done]. split; [apply NoDup_nil_2|].
    by intros k i ?%elem_of_nil. }
  split; [by apply filter_wf|].
  intros k i [Hlong Hin]%list_elem_of_filter. split; [by apply Hnum|done].
Qed.
End ParseTitlesInvariants.

(** X12. The dictionary [parse_titles] returns has every title number
    once, and each record carries its own number in [number] (and has a
    duration of at least 120 seconds). *)
Theorem parse_titles_wf gigabytes output titles :
  Bluray.parse_titles gigabytes output = inr titles →
  Dict.wf titles ∧
  ∀ k i, (k, i) ∈ titles → Bluray.number i = k ∧ 120 ≤ Bluray.duration i.
Proof. apply parse_titles_inv. Qed.

(** The output with a title of thirty minutes and one of ninety seconds. *)
Lemma parse_titles_wf_example :
  Dict.wf [(0, Bluray.Title 0 1800 0 0 "" "")] ∧
  ∀ k i, (k, i) ∈ [(0, Bluray.Title 0 1800 0 0 "" "")] →
    Bluray.number i = k ∧ 120 ≤ Bluray.duration i.
Proof.
  apply (parse_titles_wf (λ _, inl Py.ValueError) Examples.two_title_info).
  vm_compute. reflexivity.
Defined.

Section SelectTitlesFacts.
Context `{PyFloat F}.

Local Abbreviation info_t := (Bluray.title_info (F := F)).

Lemma get_title_info_map (titles : list (Z * Bluray.title)) :
  Dict.wf titles →
  let overflows (kv : Z * Bluray.title) :=
    true_division_overflows (Bluray.duration kv.2) 60 = true in
  Bluray.get_title_info (F := F) titles
  = ((λ kv, (kv.1, Bluray.TitleInfo (Bluray.duration kv.2)
                     (fdiv (of_int (Bluray.duration kv.2)) (of_int 60))))
       <$> filter (λ kv, ¬ overflows kv) titles,
     (λ kv, "Title " +:+ Py.str kv.1 +:+
            ": integer division result too large for a float")
       <$> filter overflows titles).
Proof.
  intros Hwf overflows. unfold Bluray.get_title_info.
  induction titles as [|[k i] l IH] using rev_ind; [done|].
  unfold Dict.wf, Dict.keys in Hwf. rewrite fmap_app in Hwf.
  apply NoDup_app in Hwf as (Hwf & Hfresh & _).
  rewrite fold_left_app, IH by done. cbn [fold_left fst snd].
  rewrite !filter_app, !fmap_app.
  destruct (true_division_overflows (Bluray.duration i) 60) eqn:Hover.
  - rewrite (filter_cons_True overflows) by done.
    rewrite filter_cons_False by (intros Hn; by apply Hn).
    by rewrite !filter_nil, app_nil_r.
  - rewrite (filter_cons_False overflows)
      by (unfold overflows; simpl; congruence).
    rewrite filter_cons_True by (unfold overflows; simpl; congruence).
    rewrite !filter_nil, app_nil_r. f_equal.
    rewrite dict_set_fresh; [done|].
    unfold Dict.keys. rewrite <- list_fmap_compose.
    intros Hin. apply (Hfresh k); [|left].
    apply list_elem_of_fmap in Hin as (x & -> & [_ Hx]%list_elem_of_filter).
    apply list_elem_of_fmap. by exists x.
Qed.

Lemma get_title_info_wf (titles : list (Z * Bluray.title)) :
  Dict.wf titles → Dict.wf (Bluray.get_title_info (F := F) titles).1.
Proof.
  intros Hwf. rewrite get_title_info_map by done. cbn [fst].
  unfold Dict.wf, Dict.keys. rewrite <- list_fmap_compose.
  eapply sublist_NoDup; [exact Hwf|]. apply fmap_sublist, sublist_filter.
Qed.

Lemma title_numbers_error parts e :
  Bluray.title_numbers parts = inl e → e = Py.ValueError.
Proof.
  induction parts as [|x parts IH]; simpl; [done|].
  destruct (Py.int _) as [e'|n] eqn:Hint; simpl.
  { intros [= <-]. by eapply int_error. }
  destruct (Bluray.title_numbers parts); simpl; [|done].
  intros [= <-]. by apply IH.
Qed.

(** The loop that adds the titles the user asks for. *)
Lemma include_fold (titles matching non_matching : list (Z * info_t))
    (nums : list Z) :
  Dict.wf titles → Dict.wf matching →
  (∀ x, x ∈ matching → x ∈ titles) →
  (∀ x, x ∈ non_matching → x ∈ titles) →
  let result :=
    fold_left
      (λ matching num,
         match Dict.get non_matching num with
         | Some info => Dict.set matching num info
         | None => matching
         end) nums matching in
  Dict.wf result ∧
  (∀ x, x ∈ matching → x ∈ result) ∧
  (∀ x, x ∈ result →
        x ∈ matching ∨ (x.1 ∈ nums ∧ x ∈ non_matching)).
Proof.
  intros Hwf. revert matching.
  induction nums as [|num nums IH]; intros matching Hwfm Hm Hn; simpl.
  { split; [done|]. split; [done|]. by left. }
  set (m1 := match Dict.get non_matching num with
             | Some info => Dict.set matching num info
             | None => matching
             end).
  assert (Dict.wf m1 ∧ (∀ x, x ∈ matching → x ∈ m1) ∧
          (∀ x, x ∈ m1 → x ∈ matching ∨ (x.1 = num ∧ x ∈ non_matching)))
    as (Hwf1 & Hkeep & Hnew).
  { unfold m1. destruct (Dict.get non_matching num) as [info|] eqn:Hget.
    2: { split; [done|]. split; [done|]. by left. }
    apply dict_get_Some_elem in Hget.
    split; [by apply dict_set_wf|]. split.
    - intros [k i] Hin. destruct (decide (k = num)) as [->|Hne].
      + assert (i = info) as ->.
        { eapply (NoDup_fst_agree titles num); [done|by apply Hm|by apply Hn]. }
        apply elem_of_dict_set_new.
      + by apply elem_of_dict_set_ne.
    - intros [k i] [[-> ->]|Hin]%elem_of_dict_set; [by right|by left]. }
  destruct (IH m1) as (Hwfr & Hkeepr & Hnewr); [done| |done|].
  { intros x [Hin|[_ Hin]]%Hnew; [by apply Hm|by apply Hn]. }
  split; [done|]. split; [by intros x ?%Hkeep%Hkeepr|].
  intros x [[Hin|[Hx Hin]]%Hnew|[Hx Hin]]%Hnewr.
  - by left.
  - right. split; [rewrite Hx; left|done].
  - right. split; [by right|done].
Qed.

Lemma select_titles_outcome
    (titles : list (Z * Bluray.title_info (F := F)))
    (min_runtime max_runtime : Z) (include_choice : bool)
    (additional : string) :
  Dict.wf titles →
  let inside (x : Z * Bluray.title_info (F := F)) :=
    within_margin (of_int min_runtime) (of_int max_runtime) (of_int 20)
      (Bluray.info_duration x.2) = true in
  match
    Bluray.select_titles titles min_runtime max_runtime include_choice
      additional
  with
  | inr (Bluray.Selected matching_titles) =>
      matching_titles ≠ [] ∧ Dict.wf matching_titles ∧
      (∀ x, x ∈ titles → inside x → x ∈ matching_titles) ∧
      (∀ x, x ∈ matching_titles →
         x ∈ titles ∧
         (inside x ∨
          include_choice = true ∧
          ∃ nums, Bluray.title_numbers (Py.split "," additional) = inr nums ∧
                  x.1 ∈ nums))
  | inr Bluray.StartOver =>
      include_choice = true ∧ ∃ x, x ∈ titles ∧ ¬ inside x
  | inl e =>
      e = Py.BluRayError
            "No valid titles found matching expected episode duration" ∧
      ∀ x, x ∈ titles → ¬ inside x
  end.
Proof.
  intros Hwf inside. unfold Bluray.select_titles.
  rewrite (filter_titles_by_duration_filter Bluray.info_duration titles
             (of_int min_runtime) (of_int max_runtime) (of_int 20) Hwf).
  cbn zeta.
  set (non_matching :=
         filter (λ x : Z * Bluray.title_info (F := F),
                   ¬ (within_margin (of_int min_runtime) (of_int max_runtime)
                        (of_int 20) (Bluray.info_duration x.2) = true))
           titles).
  set (matching := filter inside titles).
  assert (Dict.wf matching) as Hwfm by (by apply filter_wf).
  assert (∀ x, x ∈ matching ↔ inside x ∧ x ∈ titles) as Hm
    by (intros x; unfold matching; by rewrite list_elem_of_filter).
  assert (∀ x, x ∈ non_matching ↔ ¬ inside x ∧ x ∈ titles) as Hn
    by (intros x; unfold non_matching; by rewrite list_elem_of_filter).
  assert (∀ m : list (Z * Bluray.title_info (F := F)),
            Dict.wf m → (∀ x, x ∈ titles → inside x → x ∈ m) →
            (∀ x, x ∈ m →
               x ∈ titles ∧
               (inside x ∨
                include_choice = true ∧
                ∃ nums,
                  Bluray.title_numbers (Py.split "," additional) = inr nums ∧
                  x.1 ∈ nums)) →
            match
              match m with
              | [] =>
                  inl (Py.BluRayError
                         "No valid titles found matching expected episode duration")
              | _ => inr (Bluray.Selected m)
              end
            with
            | inr (Bluray.Selected matching_titles) =>
                matching_titles ≠ [] ∧ Dict.wf matching_titles ∧
                (∀ x, x ∈ titles → inside x → x ∈ matching_titles) ∧
                (∀ x, x ∈ matching_titles →
                   x ∈ titles ∧
                   (inside x ∨
                    include_choice = true ∧
                    ∃ nums,
                      Bluray.title_numbers (Py.split "," additional)
                        = inr nums ∧ x.1 ∈ nums))
            | inr Bluray.StartOver =>
                include_choice = true ∧ ∃ x, x ∈ titles ∧ ¬ inside x
            | inl e =>
                e = Py.BluRayError
                      "No valid titles found matching expected episode duration" ∧
                ∀ x, x ∈ titles → ¬ inside x
            end) as Hselected.
  { intros [|t m] Hwf' Hall Hsound.
    - split; [done|]. intros x Hx Hin.
      by apply (Hall x Hx), elem_of_nil in Hin.
    - done. }
  assert (∀ x, x ∈ titles → inside x → x ∈ matching) as Hall
    by (intros; by apply Hm).
  assert (∀ x, x ∈ matching →
            x ∈ titles ∧
            (inside x ∨
             include_choice = true ∧
             ∃ nums,
               Bluray.title_numbers (Py.split "," additional) = inr nums ∧
               x.1 ∈ nums)) as Hsound.
  { intros x [? ?]%Hm. split; [done|by left]. }
  destruct non_matching as [|t0 non0] eqn:Hnon.
  { by apply (Hselected matching). }
  rewrite <- Hnon in *.
  assert (∃ x, x ∈ titles ∧ ¬ inside x) as Hout.
  { exists t0. assert (t0 ∈ non_matching) as [? ?]%Hn by (rewrite Hnon; left).
    done. }
  clear Hnon. destruct include_choice; [|by apply (Hselected matching)].
  destruct (String.eqb (Py.lower additional) "b"); [done|].
  unfold Bluray.include_titles.
  destruct (Bluray.title_numbers (Py.split "," additional))
    as [e|nums] eqn:Hnums; simpl.
  { apply title_numbers_error in Hnums as ->. done. }
  destruct (include_fold titles matching non_matching nums)
    as (Hwfr & Hkeep & Hnew); [done|done|by intros x [_ ?]%Hm|
                               by intros x [_ ?]%Hn|].
  apply Hselected; [done|by intros x ? ?; apply Hkeep, Hall|].
  intros x [Hin|[Hx [_ Hin]%Hn]]%Hnew; [by apply Hsound|].
  split; [done|]. right. split; [done|]. by exists nums.
Qed.
End SelectTitlesFacts.

(** X13. The selection of [process_tv_show] ends in one of three ways.
    With titles: they are not empty, every title within the margin of 20
    percent is among them, and every other one is a title whose number the
    user has listed. By starting over: only after the user has agreed to
    add titles. With the error [No valid titles found matching expected
    episode duration]: only when no title lies within the margin. *)
Theorem select_titles_spec `{PyFloat F}
    (titles : list (Z * Bluray.title_info (F := F)))
    (min_runtime max_runtime : Z) (include_choice : bool)
    (additional : string) :
  Dict.wf titles →
  let inside (x : Z * Bluray.title_info (F := F)) :=
    within_margin (of_int min_runtime) (of_int max_runtime) (of_int 20)
      (Bluray.info_duration x.2) = true in
  match
    Bluray.select_titles titles min_runtime max_runtime include_choice
      additional
  with
  | inr (Bluray.Selected matching_titles) =>
      matching_titles ≠ [] ∧ Dict.wf matching_titles ∧
      (∀ x, x ∈ titles → inside x → x ∈ matching_titles) ∧
      (∀ x, x ∈ matching_titles →
         x ∈ titles ∧
         (inside x ∨
          include_choice = true ∧
          ∃ nums, Bluray.title_numbers (Py.split "," additional) = inr nums ∧
                  x.1 ∈ nums))
  | inr Bluray.StartOver =>
      include_choice = true ∧ ∃ x, x ∈ titles ∧ ¬ inside x
  | inl e =>
      e = Py.BluRayError
            "No valid titles found matching expected episode duration" ∧
      ∀ x, x ∈ titles → ¬ inside x
  end.
Proof.
  exact (select_titles_outcome titles min_runtime max_runtime include_choice
           additional).
Qed.

(** A title of 30 minutes and one of 700 seconds against 30 to 60
    minutes: the second is added on request. *)
Lemma select_titles_spec_example :
  let titles :=
    (Bluray.get_title_info (F := Q)
       [Examples.title 5 1800 4; Examples.title 2 700 4]).1 in
  ∃ matching_titles,
    Bluray.select_titles titles 1800 3600 true " 2 , 7"
      = inr (Bluray.Selected matching_titles) ∧
    matching_titles ≠ [] ∧ Dict.wf matching_titles ∧
    Dict.keys matching_titles = [5; 2].
Proof.
  intros titles.
  pose proof (select_titles_spec (F := Q) titles 1800 3600 true " 2 , 7")
    as Hspec.
  cbv zeta in Hspec.
  destruct (Bluray.select_titles titles 1800 3600 true " 2 , 7")
    as [e|[matching_titles|]] eqn:Hsel.
  - vm_compute in Hsel. discriminate Hsel.
  - destruct Hspec as (Hne & Hwf & _).
    + unfold Dict.wf. compute_done.
    + exists matching_titles. split; [reflexivity|].
      split; [exact Hne|]. split; [exact Hwf|].
      vm_compute in Hsel. injection Hsel as <-. reflexivity.
  - vm_compute in Hsel. discriminate Hsel.
Defined.

(** X14. From the output of the engine to the titles that are ripped:
    every title [process_tv_show] selects from the catalog of
    [parse_titles] is a title of that catalog, under its own number, with
    its duration, and lasts at least 120 seconds, also when the user has
    added it from outside the range. *)
Theorem process_tv_show_selection `{PyFloat F} gigabytes output titles
    min_runtime max_runtime include_choice additional matching_titles :
  Bluray.parse_titles gigabytes output = inr titles →
  Bluray.select_titles (F := F) (Bluray.get_title_info titles).1
    min_runtime max_runtime include_choice additional
    = inr (Bluray.Selected matching_titles) →
  Dict.wf matching_titles ∧
  ∀ k info, (k, info) ∈ matching_titles →
    ∃ title, (k, title) ∈ titles ∧ Bluray.number title = k ∧
      Bluray.info_duration info = Bluray.duration title ∧
      120 ≤ Bluray.duration title.
Proof.
  intros [Hwf Htitles]%parse_titles_inv Hsel.
  pose proof (select_titles_outcome (Bluray.get_title_info titles).1
                min_runtime max_runtime include_choice additional
                (get_title_info_wf titles Hwf)) as Hspec.
  cbn zeta in Hspec. rewrite Hsel in Hspec.
  destruct Hspec as (_ & Hwfm & _ & Hsound). split; [done|].
  intros k info [Hin _]%Hsound.
  rewrite get_title_info_map in Hin by done. cbn [fst] in Hin.
  apply list_elem_of_fmap in Hin
    as ([k0 title] & [= -> ->] & [_ Hin]%list_elem_of_filter).
  exists title. simpl. destruct (Htitles _ _ Hin). done.
Qed.

(** The title of thirty minutes is selected. *)
Lemma process_tv_show_selection_example :
  let titles := [(0, Bluray.Title 0 1800 0 0 "" "")] in
  let matching_titles := (Bluray.get_title_info (F := Q) titles).1 in
  Dict.wf matching_titles ∧
  ∀ k info, (k, info) ∈ matching_titles →
    ∃ title, (k, title) ∈ titles ∧ Bluray.number title = k ∧
      Bluray.info_duration info = Bluray.duration title ∧
      120 ≤ Bluray.duration title.
Proof.
  intros titles matching_titles.
  apply (process_tv_show_selection (F := Q) (λ _, inl Py.ValueError)
           Examples.two_title_info titles 1800 3600 false "").
  - vm_compute. reflexivity.
  - vm_compute. reflexivity.
Defined.

(** ** The range text of the title choice *)

Section ParseTitleRangeFacts.
Lemma part_covers_nonneg part n : Bluray.part_covers part n → 0 ≤ n.
Proof.
  unfold Bluray.part_covers. destruct (Py.contains part "-") eqn:Hminus.
  - intros (start & stop & [Hstart _]%int_pair_nonneg & Hn). lia.
  - apply int_nonneg. intros Hocc%contains_char. congruence.
Qed.

Lemma title_range_part_spec numbers part :
  match Bluray.title_range_part numbers part with
  | inr numbers' =>
      ∀ n, n ∈ numbers' ↔ n ∈ numbers ∨ Bluray.part_covers part n
  | inl e => e = Py.ValueError
  end.
Proof.
  unfold Bluray.title_range_part, Bluray.part_covers.
  destruct (Py.contains part "-").
  - destruct (Py.int_pair "-" part) as [e|[start stop]] eqn:Hpair; simpl.
    { by eapply int_pair_error. }
    intros n. rewrite elem_of_union, elem_of_list_to_set.
    unfold Py.range. rewrite elem_of_seqZ. split.
    + intros [?|?]; [by left|]. right. exists start, stop. split; [done|lia].
    + intros [?|(a & b & [= <- <-] & ?)]; [by left|right; lia].
  - destruct (Py.int part) as [e|num] eqn:Hint; simpl.
    { by eapply int_error. }
    intros n. rewrite elem_of_union, elem_of_singleton. split.
    + intros [?|Heq]; [by left|]. right. by rewrite Heq.
    + intros [?|[= Heq]]; [by left|by right].
Qed.

Lemma title_range_parts_spec numbers parts :
  match Bluray.title_range_parts numbers parts with
  | inr numbers' =>
      ∀ n, n ∈ numbers' ↔
           n ∈ numbers ∨ ∃ part, part ∈ parts ∧ Bluray.part_covers part n
  | inl e => e = Py.ValueError
  end.
Proof.
  revert numbers. induction parts as [|part parts IH]; intros numbers; simpl.
  - intros n. split; [by left|]. intros [?|(part & ?%elem_of_nil & _)]; done.
  - pose proof (title_range_part_spec numbers part) as Hpart.
    destruct (Bluray.title_range_part numbers part) as [e|numbers1]; simpl;
      [done|].
    specialize (IH numbers1).
    destruct (Bluray.title_range_parts numbers1 parts) as [e|numbers2];
      [done|].
    intros n. rewrite IH, Hpart. split.
    + intros [[?|?]|(p & ? & ?)]; [by left|right..].
      * exists part. split; [left|done].
      * exists p. split; [by right|done].
    + intros [?|(p & [->|?]%elem_of_cons & ?)].
      * left. by left.
      * left. by right.
      * right. by exists p.
Qed.

Lemma StronglySorted_le_lt (l : list Z) :
  StronglySorted Z.le l → NoDup l → StronglySorted Z.lt l.
Proof.
  induction 1 as [|x l Hs IH Hall]; intros Hnd; [constructor|].
  apply NoDup_cons in Hnd as [Hx Hnd]. constructor; [by apply IH|].
  rewrite Forall_forall in *. intros y Hy.
  assert (x ≠ y) by (intros ->; by apply Hx, list_elem_of_In).
  specialize (Hall y Hy). lia.
Qed.
End ParseTitleRangeFacts.

(** X15. [parse_title_range] returns the numbers its parts stand for (a
    number, or every number from [start] to [end]) in strictly ascending
    order, each once; none of them is negative, since a minus sign always
    separates a range; and the only exception it raises is
    [ValueError]. *)
Theorem parse_title_range_spec range_str :
  match Bluray.parse_title_range range_str with
  | inr numbers =>
      StronglySorted Z.lt numbers ∧
      (∀ n, n ∈ numbers ↔
            ∃ part, part ∈ Py.split "," range_str ∧ Bluray.part_covers part n) ∧
      (∀ n, n ∈ numbers → 0 ≤ n)
  | inl e => e = Py.ValueError
  end.
Proof.
  unfold Bluray.parse_title_range.
  pose proof (title_range_parts_spec ∅ (Py.split "," range_str)) as Hparts.
  destruct (Bluray.title_range_parts ∅ _) as [e|numbers]; simpl; [done|].
  assert (∀ n, n ∈ merge_sort Z.le (elements numbers) ↔
               ∃ part,
                 part ∈ Py.split "," range_str ∧ Bluray.part_covers part n)
    as Hmem.
  { intros n. rewrite merge_sort_Permutation, elem_of_elements, Hparts.
    split; [|by right]. intros [?%elem_of_empty|?]; done. }
  split; [|split; [done|]].
  - apply StronglySorted_le_lt.
    + apply StronglySorted_merge_sort; apply _.
    + rewrite merge_sort_Permutation. apply NoDup_elements.
  - intros n (part & _ & Hcov)%Hmem. by eapply part_covers_nonneg.
Qed.

Example parse_title_range_example :
  Bluray.parse_title_range "7, 3-5 ,1,4" = inr [1; 3; 4; 5; 7] ∧
  Bluray.parse_title_range "-3" = inl Py.ValueError ∧
  Bluray.parse_title_range "5-3" = inr [].
Proof. by vm_compute. Qed.

(** ** The folders of a show in the Blu-ray script *)

Section CreateFolderFacts.
Lemma mkdir_exist_ok_is_dir fs p fs' :
  Py.mkdir_exist_ok fs p = inr fs' → Py.is_dir fs' p = true.
Proof.
  intros (Hold & Hnew & _)%mkdir_exist_ok_listdir.
  unfold Py.is_dir. apply bool_decide_eq_true.
  destruct (Py.listdir fs p) as [es|] eqn:Hl.
  - by rewrite (Hold es).
  - by rewrite Hnew.
Qed.

Lemma create_folder_structure_path fs base_dir show_name season_num fs'
    season_dir :
  Bluray.create_folder_structure fs base_dir show_name season_num
    = inr (fs', season_dir) →
  season_dir = Py.joinpath (Py.joinpath base_dir show_name)
                 ("Season " +:+ Py.str season_num) ∧
  Py.is_dir fs' season_dir = true.
Proof.
  unfold Bluray.create_folder_structure.
  destruct (Py.mkdir_exist_ok fs _) as [e|fs1]; simpl; [done|].
  destruct (Py.mkdir_exist_ok fs1 _) as [e|fs2] eqn:Hmk; simpl; [done|].
  intros [= <- <-]. split; [done|]. by eapply mkdir_exist_ok_is_dir.
Qed.

(** A directory whose name matches the season pattern is returned as it
    is, without a question and without a change of the file system. *)
Lemma setup_output_directory_season fs provided_dir season_num asked_show
    asked_season asked_choice :
  Re.search_season ["season"; "series"]%string
    (Py.lower (Py.name provided_dir)) ≫= Py.int_of_digits
  = Some season_num →
  Bluray.setup_output_directory fs provided_dir asked_show asked_season
    asked_choice
  = inr (fs, (provided_dir,
              Py.strip (Re.sub_spaced_years
                          (Py.name (Py.parent provided_dir))),
              season_num)).
Proof. unfold Bluray.setup_output_directory. by intros ->. Qed.
End CreateFolderFacts.

(** X16. A folder made by [create_folder_structure] for a season number
    that is not negative exists afterwards and is read back:
    [get_show_info_from_path] and [setup_output_directory] both find the
    season number from its name, and the name of the show folder without
    its year tags. The name of the show folder is the show name when that
    is a single path component; otherwise it is the last component of
    [base_dir / show_name] (for a show name with a slash, or an empty
    one). *)
Theorem create_folder_structure_round_trip fs base_dir show_name season_num
    fs' season_dir :
  0 ≤ season_num →
  Bluray.create_folder_structure fs base_dir show_name season_num
    = inr (fs', season_dir) →
  let show_dir := Py.joinpath base_dir show_name in
  Py.is_dir fs' season_dir = true ∧
  Py.parent season_dir = show_dir ∧
  Bluray.get_show_info_from_path season_dir
    = (Py.strip (Re.sub_years (Py.name show_dir)), Some season_num) ∧
  (∀ asked_show asked_season asked_choice,
     Bluray.setup_output_directory fs' season_dir asked_show asked_season
       asked_choice
     = inr (fs', (season_dir,
                  Py.strip (Re.sub_spaced_years (Py.name show_dir)),
                  season_num))) ∧
  (Py.plain_name show_name → Py.name show_dir = show_name).
Proof.
  intros Hn [-> Hdir]%create_folder_structure_path show_dir.
  fold show_dir.
  pose proof (parent_joinpath show_dir _ (plain_season season_num))
    as Hparent.
  pose proof (name_joinpath show_dir _ (plain_season season_num)) as Hname.
  split; [done|]. split; [done|]. split; [|split].
  - unfold Bluray.get_show_info_from_path.
    rewrite Hparent, Hname. f_equal. by apply search_season_folder.
  - intros asked_show asked_season asked_choice.
    rewrite (setup_output_directory_season _ _ season_num).
    + by rewrite Hparent.
    + rewrite Hname. by apply search_season_folder.
  - apply name_joinpath.
Qed.

(** A new show with a year tag, season 3. *)
Lemma create_folder_structure_round_trip_example :
  Bluray.get_show_info_from_path
    (Py.Path "/" ["media"; "New Show (2020)"; "Season 3"])
  = (Py.strip (Re.sub_years "New Show (2020)"), Some 3).
Proof.
  destruct (create_folder_structure_round_trip Examples.fs_library
              Examples.library "New Show (2020)" 3
              [(Examples.library,
                ["Show"; "show (2005)"; "SHOW"; "Other"; "notes.txt";
                 "New Show (2020)"]);
               (Py.joinpath Examples.library "Show", []);
               (Py.joinpath Examples.library "show (2005)", []);
               (Py.joinpath Examples.library "SHOW", []);
               (Py.joinpath Examples.library "Other", []);
               (Py.joinpath Examples.library "New Show (2020)",
                ["Season 3"]);
               (Py.Path "/" ["media"; "New Show (2020)"; "Season 3"],
                [])]%string
              (Py.Path "/" ["media"; "New Show (2020)"; "Season 3"]))
    as (_ & _ & Hinfo & _ & Hplain).
  - compute_done.
  - vm_compute. reflexivity.
  - rewrite Hplain in Hinfo; [exact Hinfo|].
    split; [done|]. split; [done|]. vm_compute. by intuition.
Defined.

(** X17. The directory [setup_output_directory] returns is found again:
    when the season number is not negative, a second run on the returned
    directory asks nothing, changes nothing and returns the same directory
    and season. *)
Theorem setup_output_directory_stable fs provided_dir asked_show
    asked_season asked_choice fs' output_dir show_name season_num :
  Bluray.setup_output_directory fs provided_dir asked_show asked_season
    asked_choice = inr (fs', (output_dir, show_name, season_num)) →
  0 ≤ season_num →
  ∀ asked_show' asked_season' asked_choice',
    Bluray.setup_output_directory fs' output_dir asked_show' asked_season'
      asked_choice'
    = inr (fs', (output_dir,
                 Py.strip (Re.sub_spaced_years
                             (Py.name (Py.parent output_dir))),
                 season_num)).
Proof.
  intros Hsetup Hn asked_show' asked_season' asked_choice'.
  apply setup_output_directory_season.
  unfold Bluray.setup_output_directory in Hsetup.
  destruct (Re.search_season _ _ ≫= Py.int_of_digits) as [n|] eqn:Hmatch.
  { simpl in Hsetup. injection Hsetup as <- <- _ <-. done. }
  unfold Py.try_except in Hsetup.
  assert (∀ fs0 (r : Py.exn + Py.filesystem * Py.path) n,
            match r with
            | inl e => inl e
            | inr (fs1, season_dir) => inr (fs1, (season_dir, asked_show, n))
            end = inr (fs', (output_dir, show_name, season_num)) →
            r = Bluray.create_folder_structure fs0 provided_dir asked_show n →
            Py.name output_dir = "Season " +:+ Py.str season_num)
    as Hcreate.
  { intros fs0 [e|[fs1 season_dir]] n; [done|]. intros [= -> -> -> ->] Hr.
    symmetry in Hr. apply create_folder_structure_path in Hr as [-> _].
    by rewrite (name_joinpath _ _ (plain_season _)). }
  assert (Py.name output_dir = "Season " +:+ Py.str season_num) as Hname.
  { destruct (Py.int asked_season) as [e|n]; simpl in Hsetup; [done|].
    destruct (Bluray.find_show_folder fs provided_dir asked_show)
      as [|folder folders].
    { destruct (Bluray.create_folder_structure fs provided_dir asked_show n)
        as [e|[fs1 season_dir]] eqn:Hc; simpl in Hsetup; [done|].
      eapply (Hcreate fs (inr (fs1, season_dir)) n); [|by rewrite Hc].
      done. }
    destruct (Py.int asked_choice) as [e|choice]; simpl in Hsetup; [done|].
    destruct (choice <=? _).
    - destruct (Py.index _ _) as [e|show_dir]; simpl in Hsetup; [done|].
      destruct (if Py.exists_ fs _ then _ else _) as [e|fs1];
        simpl in Hsetup; [done|].
      injection Hsetup as _ <- _ <-.
      by rewrite (name_joinpath _ _ (plain_season _)).
    - destruct (Bluray.create_folder_structure fs provided_dir asked_show n)
        as [e|[fs1 season_dir]] eqn:Hc; simpl in Hsetup; [done|].
      eapply (Hcreate fs (inr (fs1, season_dir)) n); [|by rewrite Hc].
      done. }
  by apply name_season_folder.
Qed.

(** The user picks the first of the folders found for [Show], season 2. *)
Lemma setup_output_directory_stable_example :
  let fs' :=
    [(Examples.library,
      ["Show"; "show (2005)"; "SHOW"; "Other"; "notes.txt"]);
     (Py.joinpath Examples.library "Show", []);
     (Py.joinpath Examples.library "show (2005)", []);
     (Py.joinpath Examples.library "SHOW", ["Season 2"]);
     (Py.joinpath Examples.library "Other", []);
     (Py.Path "/" ["media"; "SHOW"; "Season 2"], [])]%string in
  let output_dir := Py.Path "/" ["media"; "SHOW"; "Season 2"] in
  Bluray.setup_output_directory fs' output_dir "" "" ""
  = inr (fs', (output_dir,
               Py.strip (Re.sub_spaced_years
                           (Py.name (Py.parent output_dir))), 2)).
Proof.
  intros fs' output_dir.
  apply (setup_output_directory_stable Examples.fs_library Examples.library
           "Show" "2" "1" fs' output_dir "SHOW" 2).
  - vm_compute. reflexivity.
  - compute_done.
Defined.

Section FindShowFolderFacts.
Lemma startswith_contains s p :
  Py.startswith s p = true → Py.contains s p = true.
Proof. unfold Py.startswith. destruct s; simpl; by intros ->. Qed.

(** The third test of [find_show_folder] never adds a folder: a name the
    year pattern matches starts with the show name, so the second test has
    taken it. *)
Lemma year_tagged_contains show_name folder_name :
  Bluray.year_tagged show_name folder_name = true →
  Py.contains folder_name show_name = true.
Proof.
  unfold Bluray.year_tagged. intros [? _]%andb_true_iff.
  by apply startswith_contains.
Qed.
End FindShowFolderFacts.

(** X18. [find_show_folder] returns the subfolders whose name is the show
    name without regard to case, the last of them first, and then the
    subfolders whose name contains the show name, in listing order. The
    test for a name with a year tag adds nothing: such a name contains the
    show name. *)
Theorem find_show_folder_spec fs base_dir show_name entries :
  Py.listdir fs base_dir = Some entries →
  let folders :=
    filter (λ entry, Py.is_dir fs (Py.joinpath base_dir entry) = true)
      entries in
  let exact entry := Py.lower entry = Py.lower show_name in
  let partial entry :=
    Py.contains (Py.lower entry) (Py.lower show_name) = true in
  Bluray.find_show_folder fs base_dir show_name
  = (Py.joinpath base_dir <$> reverse (filter exact folders)) ++
    (Py.joinpath base_dir <$>
       filter (λ entry, ¬ exact entry ∧ partial entry) folders).
Proof.
  intros Hdir folders exact partial. unfold Bluray.find_show_folder.
  rewrite Hdir. unfold folders. clear Hdir folders.
  induction entries as [|entry entries IH] using rev_ind; [done|].
  rewrite fold_left_app, IH. cbn [fold_left]. clear IH.
  rewrite filter_app. unfold Bluray.show_folder_step.
  destruct (Py.is_dir fs (Py.joinpath base_dir entry)) eqn:Hisdir.
  2: { rewrite (filter_cons_False _ entry) by congruence.
       by rewrite filter_nil, !app_nil_r. }
  rewrite (filter_cons_True _ entry) by done. rewrite filter_nil.
  rewrite !filter_app.
  destruct (String.eqb_spec (Py.lower entry) (Py.lower show_name))
    as [Heq|Hne].
  { rewrite (filter_cons_True exact) by done.
    rewrite filter_cons_False by (by intros [? _]).
    rewrite !filter_nil, app_nil_r, reverse_app. done. }
  rewrite (filter_cons_False exact) by done.
  rewrite filter_nil, app_nil_r.
  destruct (Py.contains (Py.lower entry) (Py.lower show_name)) eqn:Hpart.
  { rewrite filter_cons_True by done.
    by rewrite filter_nil, fmap_app, app_assoc. }
  rewrite filter_cons_False by (intros [_ ?]; unfold partial in *; congruence).
  rewrite filter_nil, app_nil_r.
  destruct (Bluray.year_tagged _ _) eqn:Hyear; [|done].
  apply year_tagged_contains in Hyear. congruence.
Qed.

(** The library with three spellings of the show. *)
Lemma find_show_folder_spec_example :
  Bluray.find_show_folder Examples.fs_library Examples.library "Show"
  = [Py.joinpath Examples.library "SHOW";
     Py.joinpath Examples.library "Show";
     Py.joinpath Examples.library "show (2005)"].
Proof.
  rewrite (find_show_folder_spec Examples.fs_library Examples.library "Show"
             ["Show"; "show (2005)"; "SHOW"; "Other"; "notes.txt"]%string).
  - vm_compute. reflexivity.
  - vm_compute. reflexivity.
Defined.

(** Capital letters of Latin-1 are folded as well: the folder [POKÉMON]
    is an exact match for the show [Pokémon]. *)
Example find_show_folder_latin1 :
  let folder := "POK" +:+ String "201" "MON" in
  let show_name := "Pok" +:+ String "233" "mon" in
  Bluray.find_show_folder
    [(Examples.library, [folder]);
     (Py.joinpath Examples.library folder, [])]
    Examples.library show_name
  = [Py.joinpath Examples.library folder].
Proof. by vm_compute. Qed.

(** ** The search for the ripped file *)

Section FindLatestFacts.
Lemma newest_spec f files :
  let best := Bluray.newest f files in
  best ∈ f :: files ∧
  ∀ g, g ∈ f :: files → Bluray.st_mtime g ≤ Bluray.st_mtime best.
Proof.
  unfold Bluray.newest. revert f.
  induction files as [|g files IH]; intros f; simpl.
  - split; [left|]. by intros g ->%list_elem_of_singleton.
  - destruct (Z.ltb_spec (Bluray.st_mtime f) (Bluray.st_mtime g)).
    + destruct (IH g) as [Hin Hmax]. split; [by right|].
      intros x [->|Hx]%elem_of_cons; [|by apply Hmax].
      assert (Bluray.st_mtime g ≤
              Bluray.st_mtime (fold_left
                (λ best g0, if Bluray.st_mtime best <? Bluray.st_mtime g0
                            then g0 else best) files g))
        by (apply Hmax; left). lia.
    + destruct (IH f) as [Hin Hmax]. split.
      * apply elem_of_cons in Hin as [->|Hin]; [left|right; by right].
      * intros x [->|[->|Hx]%elem_of_cons]%elem_of_cons.
        -- apply Hmax. left.
        -- assert (Bluray.st_mtime f ≤
                   Bluray.st_mtime (fold_left
                     (λ best g0, if Bluray.st_mtime best <? Bluray.st_mtime g0
                                 then g0 else best) files f))
             by (apply Hmax; left). lia.
        -- apply Hmax. by right.
Qed.
End FindLatestFacts.

(** X19. [find_latest_mkv] returns a [.mkv] entry of the directory that
    was modified after the given time and is at least as new as every
    other such entry; it returns [None] exactly when there is none. *)
Theorem find_latest_mkv_spec directory created_after :
  let recent f :=
    Py.endswith (Bluray.file_name f) ".mkv" = true ∧
    created_after < Bluray.st_mtime f in
  match Bluray.find_latest_mkv directory created_after with
  | Some f =>
      f ∈ directory ∧ recent f ∧
      ∀ g, g ∈ directory → recent g → Bluray.st_mtime g ≤ Bluray.st_mtime f
  | None => ∀ g, g ∈ directory → ¬ recent g
  end.
Proof.
  intros recent. unfold Bluray.find_latest_mkv.
  set (recent_files := filter _ (filter _ directory)).
  assert (∀ g, g ∈ recent_files ↔ g ∈ directory ∧ recent g) as Hrecent.
  { intros g. unfold recent_files, recent.
    rewrite !list_elem_of_filter. by intuition. }
  destruct recent_files as [|f files].
  - intros g Hg Hr. by apply (elem_of_nil g), Hrecent.
  - destruct (newest_spec f files) as [Hin Hmax].
    apply Hrecent in Hin as [Hin Hr]. split; [done|]. split; [done|].
    intros g Hg Hgr. apply Hmax, Hrecent. done.
Qed.

(** ** The runtime ranges *)

Section RangeFacts.
Lemma min_of_le_max_of x l : Tvdb.min_of x l ≤ Tvdb.max_of x l.
Proof.
  unfold Tvdb.min_of, Tvdb.max_of.
  induction l as [|y l IH]; simpl; lia.
Qed.

Lemma min_of_elem x l : Tvdb.min_of x l ∈ x :: l.
Proof.
  unfold Tvdb.min_of. induction l as [|y l IH]; simpl; [left|].
  destruct (Z.min_spec y (foldr Z.min x l)) as [[_ ->]|[_ ->]].
  - right. left.
  - apply elem_of_cons in IH as [->|IH]; [left|right; by right].
Qed.

Lemma runtimes_of_pos episodes r :
  r ∈ Windows.runtimes_of episodes → 0 < r.
Proof.
  unfold Windows.runtimes_of.
  intros (e & _ & Hr)%list_elem_of_omap.
  destruct (Tvdb.runtime e) as [r0|]; [|done].
  destruct (Z.ltb_spec 0 r0); [|done]. by injection Hr as <-.
Qed.

Lemma default_runtimes_range (runtimes : list Z) :
  (∀ r, r ∈ runtimes → 0 < r) →
  let runtimes := match runtimes with [] => [30] | r :: rs => r :: rs end in
  0 < match runtimes with [] => 0 | r :: rs => Tvdb.min_of r rs end
    ≤ match runtimes with [] => 0 | r :: rs => Tvdb.max_of r rs end.
Proof.
  intros Hpos. destruct runtimes as [|r rs]; simpl.
  - unfold Tvdb.min_of, Tvdb.max_of. simpl. lia.
  - pose proof (min_of_le_max_of r rs).
    pose proof (min_of_elem r rs) as Hin. apply Hpos in Hin. lia.
Qed.
End RangeFacts.

(** X20. The range a resolver returns is never empty: the minimum of
    [get_tvdb_episode_info] is at most its maximum, and [get_tvdb_info]
    returns a positive [min_length] that is at most [max_length], for the
    season that was asked for. *)
Theorem resolver_ranges_ordered :
  (∀ api show_name season_num lo hi,
     Bluray.get_tvdb_episode_info api show_name season_num = inr (lo, hi) →
     lo ≤ hi) ∧
  (∀ api show_name season_num info,
     Windows.get_tvdb_info api show_name season_num = inr info →
     0 < Windows.min_length info ≤ Windows.max_length info ∧
     Windows.season info = season_num).
Proof.
  split.
  - intros api show_name season_num lo hi.
    unfold Bluray.get_tvdb_episode_info, Py.try_except.
    destruct (Tvdb.search api show_name) as [e|[|s shows]]; simpl.
    { destruct e; intros [= <- <-]; lia. }
    { intros [= <- <-]; lia. }
    destruct (Py.item (Tvdb.id s)) as [e|show_id]; simpl.
    { destruct e; intros [= <- <-]; lia. }
    destruct (Tvdb.episodes_official api show_id None) as [e|episodes];
      simpl.
    { destruct e; intros [= <- <-]; lia. }
    destruct (Bluray.season_runtimes season_num episodes) as [|r rs].
    { intros [= <- <-]; lia. }
    intros [= <- <-]. pose proof (min_of_le_max_of r rs). lia.
  - intros api show_name season_num info.
    unfold Windows.get_tvdb_info.
    destruct (Windows.get_tvdb_token api) as [e|token]; simpl; [done|].
    unfold Py.try_except.
    destruct (Tvdb.search api show_name) as [e|[|s shows]]; simpl.
    { by destruct e. }
    { done. }
    destruct (Py.item (Tvdb.id s)) as [e|show_id]; simpl.
    { by destruct e. }
    destruct (Tvdb.episodes_official api show_id (Some season_num))
      as [e|[|ep episodes]]; cbn -[Windows.runtimes_of].
    { by destruct e. }
    { done. }
    intros [= <-]. split; [|done].
    exact (default_runtimes_range (Windows.runtimes_of (ep :: episodes))
             (runtimes_of_pos (ep :: episodes))).
Qed.
